(** * cs2-gamemode-framework: plugin orchestration core

    A shallow embedding of the event bus ([src/core/event-bus.ts]), the
    hot-reload state utilities ([dev/src/core/state-utils.ts]) and the
    plugin lifecycle of the orchestrator
    ([src/core/gamemode-orchestrator.ts]), followed by the properties
    established about them. *)

From Stdlib Require Import ZArith Permutation Sorted.
From stdpp Require Import gmap strings list fin_maps pretty.

Local Open Scope string_scope.
Local Open Scope list_scope.
Local Open Scope stdpp_scope.

(** ** JavaScript values

    Objects live in a heap and are compared by reference, which is what the
    [WeakSet] of [validateStateShape] observes. *)
Module Js.

Inductive Value : Type :=
| VUndefined
| VNull
| VBool (b : bool)
| VNum (n : Z)
| VStr (s : string)
| VFun (a : nat)      (* typeof v === "function" *)
| VObj (a : nat).     (* typeof v === "object", v !== null; [a] is the reference *)

(** An object is an array or a record.  A record lists its own enumerable
    properties in insertion order (what [Object.entries] returns) and,
    separately, the properties it only answers to through [in] and property
    access: inherited or non-enumerable ones, such as class methods. *)
Inductive Obj : Type :=
| OArray (items : list Value)
| ORecord (own : list (string * Value)) (hidden : list (string * Value)).

(** The heap: an object's reference is its index; allocation appends. *)
Abbreviation Heap := (list Obj).

Definition typeOf (v : Value) : string :=
  match v with
  | VUndefined => "undefined"
  | VNull => "object"
  | VBool _ => "boolean"
  | VNum _ => "number"
  | VStr _ => "string"
  | VFun _ => "function"
  | VObj _ => "object"
  end.

(** [if (v)]: JavaScript truthiness. *)
Definition truthy (v : Value) : bool :=
  match v with
  | VUndefined | VNull => false
  | VBool b => b
  | VNum n => negb (n =? 0)%Z
  | VStr s => negb (String.eqb s "")
  | VFun _ | VObj _ => true
  end.

(** First binding of a key in a property list. *)
Fixpoint assoc {A : Type} (k : string) (l : list (string * A)) : option A :=
  match l with
  | [] => None
  | (k', v) :: l' => if String.eqb k k' then Some v else assoc k l'
  end.

(** Property read [o[k]] on a record: own properties shadow the others. *)
Definition getProp (o : Obj) (k : string) : option Value :=
  match o with
  | OArray _ => None
  | ORecord own hidden =>
      match assoc k own with
      | Some v => Some v
      | None => assoc k hidden
      end
  end.

(** [Array.prototype.sort(cmp)].  The sort is stable, so for a comparator
    that is a consistent ordering the result does not depend on the engine's
    algorithm; it is computed here by stable insertion. *)
Fixpoint insert_by {A : Type} (cmp : A → A → Z) (x : A) (l : list A) : list A :=
  match l with
  | [] => [x]
  | y :: l' => if (cmp x y <=? 0)%Z then x :: l else y :: insert_by cmp x l'
  end.

Definition sort {A : Type} (cmp : A → A → Z) (l : list A) : list A :=
  foldr (insert_by cmp) [] l.

(** [Array.prototype.includes] on an array of strings. *)
Definition includes (l : list string) (s : string) : bool :=
  existsb (String.eqb s) l.

(** [Array.prototype.findIndex]; [None] stands for [-1]. *)
Fixpoint findIndex {A : Type} (p : A → bool) (l : list A) : option nat :=
  match l with
  | [] => None
  | x :: l' => if p x then Some 0 else S <$> findIndex p l'
  end.

(** A [Map] with string keys, in insertion order: [set] on a present key
    keeps its position, on a new key appends. *)
Definition Map_get {A : Type} (k : string) (m : list (string * A)) : option A :=
  assoc k m.

Fixpoint Map_set {A : Type} (k : string) (v : A) (m : list (string * A))
  : list (string * A) :=
  match m with
  | [] => [(k, v)]
  | (k', v') :: m' =>
      if String.eqb k k' then (k, v) :: m' else (k', v') :: Map_set k v m'
  end.

Fixpoint Map_delete {A : Type} (k : string) (m : list (string * A))
  : list (string * A) :=
  match m with
  | [] => []
  | (k', v') :: m' =>
      if String.eqb k k' then m' else (k', v') :: Map_delete k m'
  end.

(** A thrown value, by what the [catch] blocks of the program make of it:
    [errorMessage] is what [error instanceof Error ? error.message :
    String(error)] comes to, and [interpolate] what the template literal
    [`${error}`] comes to.  Either is a string, or the value the conversion
    throws in turn: a [TypeError] for an object without [toString], such as
    [Object.create(null)], and for a [Symbol] in a template literal, and
    anything at all for a value with a [toString] of its own. *)
Inductive Exn : Type :=
| mkExn (errorMessage : string + Exn) (interpolate : string + Exn).

Definition errorMessage (error : Exn) : string + Exn :=
  match error with mkExn m _ => m end.

Definition interpolate (error : Exn) : string + Exn :=
  match error with mkExn _ t => t end.

(** [new Error(message)], [new TypeError(message)], [new RangeError(message)] *)
Definition Error (message : string) : Exn :=
  mkExn (inl message) (inl ("Error: " +:+ message)).

Definition TypeError (message : string) : Exn :=
  mkExn (inl message) (inl ("TypeError: " +:+ message)).

Definition RangeError (message : string) : Exn :=
  mkExn (inl message) (inl ("RangeError: " +:+ message)).


(** [Symbol()] as a thrown value: [String] renders it, a template literal
    does not. *)
Definition thrownSymbol : Exn :=
  mkExn (inl "Symbol()")
        (inr (TypeError "Cannot convert a Symbol value to a string")).

(** What the program does not decide itself: the room left on the call
    stack where [validateStateShape] is called, in nesting levels of its
    [checkValue], and the members a plain object inherits, which a property
    read [o[name]] answers with when [o] has no own property [name]
    ([constructor], [toString], ... of [Object.prototype]). *)
Record Engine : Type := mkEngine {
  callStack : nat;
  objectPrototype : string → option Value
}.

End Js.

(** ** The event bus ([src/core/event-bus.ts]) *)
Module EventBus.
Import Js.

Record Subscription : Type := mkSub {
  id : nat;
  eventName : string;
  handler : nat;        (* the handler closure, named by its index in the code table *)
  once : bool
}.

(** What a handler may do while it runs: return, throw, or call back into
    the bus and go on with the answer. *)
Inductive Prog : Type :=
| Ret
| Raise (error : Exn)
| CallOn (ev : string) (h : nat) (k : nat → Prog)
| CallOnce (ev : string) (h : nat) (k : nat → Prog)
| CallOff (sid : nat) (k : Prog)
| CallEmit (ev : string) (data : Value) (k : Prog)
| CallClear (ev : string) (k : Prog)
| CallClearAll (k : Prog)
| CallHasSubscribers (ev : string) (k : bool → Prog)
| CallSubscriberCount (ev : string) (k : nat → Prog).

(** Lines written through [instance.Msg]. *)
Inductive Log : Type :=
| LogSubscribed (once : bool) (ev : string) (id : nat)
| LogUnsubscribed (ev : string) (id : nat)
| LogEmitNone (ev : string)
| LogEmit (ev : string) (n : nat)
| LogCleared (n : nat) (ev : string)
| LogClearedAll (n : nat)
| LogHandlerError (ev : string) (error : string).

(** The closure state of [createEventBus].  The [Subscription[]] arrays are
    objects shared between the map and a delivery in flight, so they are kept
    in a store and the map holds references into it. *)
Record Bus : Type := mkBus {
  debug : bool;
  arrays : list (list Subscription);
  subscriptions : list (string * nat);
  nextId : nat;
  calls : list (Subscription * Value);   (* handler invocations, oldest first *)
  out : list Log
}.

Definition createEventBus (debug : bool) : Bus :=
  mkBus debug [] [] 1 [] [].

Definition array (b : Bus) (r : nat) : list Subscription :=
  default [] (arrays b !! r).

Definition Msg (m : Log) (b : Bus) : Bus :=
  mkBus (debug b) (arrays b) (subscriptions b) (nextId b) (calls b) (out b ++ [m]).

Definition log (m : Log) (b : Bus) : Bus :=
  if debug b then Msg m b else b.

Definition set_array (r : nat) (subs : list Subscription) (b : Bus) : Bus :=
  mkBus (debug b) (<[r := subs]> (arrays b)) (subscriptions b) (nextId b)
        (calls b) (out b).

Definition set_subscriptions (m : list (string * nat)) (b : Bus) : Bus :=
  mkBus (debug b) (arrays b) m (nextId b) (calls b) (out b).

Definition set_nextId (n : nat) (b : Bus) : Bus :=
  mkBus (debug b) (arrays b) (subscriptions b) n (calls b) (out b).

Definition new_array (b : Bus) : nat * Bus :=
  (length (arrays b),
   mkBus (debug b) (arrays b ++ [[]]) (subscriptions b) (nextId b)
         (calls b) (out b)).

Definition record_call (sub : Subscription) (data : Value) (b : Bus) : Bus :=
  mkBus (debug b) (arrays b) (subscriptions b) (nextId b)
        (calls b ++ [(sub, data)]) (out b).

Definition addSubscription (eventName : string) (handler : nat) (once : bool)
    (b : Bus) : nat * Bus :=
  let id := nextId b in
  let b := set_nextId (S id) b in
  let subscription := mkSub id eventName handler once in
  let '(subs, b) :=
    match Map_get eventName (subscriptions b) with
    | Some subs => (subs, b)
    | None =>
        let '(subs, b) := new_array b in
        (subs, set_subscriptions (Map_set eventName subs (subscriptions b)) b)
    end in
  let b := set_array subs (array b subs ++ [subscription]) b in
  (id, log (LogSubscribed once eventName id) b).

Definition on (eventName : string) (handler : nat) (b : Bus) : nat * Bus :=
  addSubscription eventName handler false b.

Definition once_ (eventName : string) (handler : nat) (b : Bus) : nat * Bus :=
  addSubscription eventName handler true b.

(** [off]: the loop over the map's entries, leaving at the first array that
    holds the id. *)
Fixpoint off_entries (entries : list (string * nat)) (subscriptionId : nat)
    (b : Bus) : Bus :=
  match entries with
  | [] => b
  | (eventName, subs) :: rest =>
      match findIndex (λ s, Nat.eqb (id s) subscriptionId) (array b subs) with
      | Some index =>
          let b := set_array subs (delete index (array b subs)) b in
          let b := log (LogUnsubscribed eventName subscriptionId) b in
          if Nat.eqb (length (array b subs)) 0
          then set_subscriptions (Map_delete eventName (subscriptions b)) b
          else b
      | None => off_entries rest subscriptionId b
      end
  end.

Definition off (subscriptionId : nat) (b : Bus) : Bus :=
  off_entries (subscriptions b) subscriptionId b.

Definition subscriberCount (eventName : string) (b : Bus) : nat :=
  match Map_get eventName (subscriptions b) with
  | Some subs => length (array b subs)
  | None => 0
  end.

Definition hasSubscribers (eventName : string) (b : Bus) : bool :=
  match Map_get eventName (subscriptions b) with
  | Some subs => Nat.ltb 0 (length (array b subs))
  | None => false
  end.

Definition clear (eventName : string) (b : Bus) : Bus :=
  let count := subscriberCount eventName b in
  let b := set_subscriptions (Map_delete eventName (subscriptions b)) b in
  log (LogCleared count eventName) b.

Definition clearAll (b : Bus) : Bus :=
  let totalCount :=
    foldl (λ n e, n + length (array b e.2)) 0 (subscriptions b) in
  let b := set_subscriptions [] b in
  let b := set_nextId 1 b in
  log (LogClearedAll totalCount) b.

Section Emit.
(** The handler closures: what handler [h] does when called with [data]. *)
Variable code : nat → Value → Prog.

(** Running a handler body.  [emit_rec] is [emit] for re-entrant calls;
    [None] is a run that does not come back.  A run that comes back ends in
    a return ([None]) or with an exception on its way up ([Some error]). *)
Fixpoint run (emit_rec : string → Value → Bus → option (option Exn * Bus))
    (p : Prog) (b : Bus) : option (option Exn * Bus) :=
  match p with
  | Ret => Some (None, b)
  | Raise error => Some (Some error, b)
  | CallOn ev h k => let '(i, b) := on ev h b in run emit_rec (k i) b
  | CallOnce ev h k => let '(i, b) := once_ ev h b in run emit_rec (k i) b
  | CallOff sid k => run emit_rec k (off sid b)
  | CallEmit ev data k =>
      match emit_rec ev data b with
      | Some (None, b) => run emit_rec k b
      | Some (Some error, b) => Some (Some error, b)
      | None => None
      end
  | CallClear ev k => run emit_rec k (clear ev b)
  | CallClearAll k => run emit_rec k (clearAll b)
  | CallHasSubscribers ev k => run emit_rec (k (hasSubscribers ev b)) b
  | CallSubscriberCount ev k => run emit_rec (k (subscriberCount ev b)) b
  end.

(** [for (const sub of subs)]: the array iterator reads [subs[index]] from
    the live array at every step and stops at the first index past its
    current end.  [n] bounds the number of steps.  The [catch] renders the
    thrown value into its log line, and what that throws leaves the loop. *)
Fixpoint deliver (emit_rec : string → Value → Bus → option (option Exn * Bus))
    (n : nat) (subs : nat) (index : nat) (eventName : string) (data : Value)
    (toRemove : list nat) (b : Bus) : option (option Exn * list nat * Bus) :=
  match n with
  | 0 => None
  | S n =>
      match array b subs !! index with
      | None => Some (None, toRemove, b)
      | Some sub =>
          match run emit_rec (code (handler sub) data) (record_call sub data b) with
          | None => None
          | Some (None, b) =>
              deliver emit_rec n subs (S index) eventName data
                (if once sub then toRemove ++ [id sub] else toRemove) b
          | Some (Some error, b) =>
              match interpolate error with
              | inl text =>
                  deliver emit_rec n subs (S index) eventName data toRemove
                    (Msg (LogHandlerError eventName text) b)
              | inr raised => Some (Some raised, toRemove, b)
              end
          end
      end
  end.

Fixpoint emit (fuel : nat) (eventName : string) (data : Value) (b : Bus)
    : option (option Exn * Bus) :=
  match fuel with
  | 0 => None
  | S fuel =>
      match Map_get eventName (subscriptions b) with
      | None => Some (None, log (LogEmitNone eventName) b)
      | Some subs =>
          if Nat.eqb (length (array b subs)) 0
          then Some (None, log (LogEmitNone eventName) b)
          else
            let b := log (LogEmit eventName (length (array b subs))) b in
            match deliver (emit fuel) fuel subs 0 eventName data [] b with
            | None => None
            | Some (Some error, _, b) => Some (Some error, b)
            | Some (None, toRemove, b) =>
                Some (None, foldl (λ b i, off i b) b toRemove)
            end
      end
  end.
End Emit.

End EventBus.

(** ** The host, the plugins and the effects of the orchestrator *)
Module Host.
Import Js.

(** How a call into plugin code ends. *)
Inductive Outcome (A : Type) : Type :=
| Returns (a : A)
| Throws (error : Exn).
Arguments Returns {A} a.
Arguments Throws {A} error.

(** A plugin instance ([Plugin] in [plugin.ts]), by what each of its methods
    does when called.  A member the code probes with [typeof ... ===
    "function"] before calling is optional here; [init] is called unprobed,
    so a missing [init] is one that throws. *)
Record Plugin : Type := mkPlugin {
  init : Outcome unit;
  cleanup : option (Outcome unit);
  getState : option (Outcome Value);
  restoreState : option (Value → Outcome unit);
  onHotReloadComplete : option (Outcome unit);
  onBeforePlayerDamage : option (Value → Outcome Value)
}.

Record PluginDescriptor : Type := mkDescriptor {
  name : string;
  create : Outcome Plugin;      (* the factory applied to the plugin context *)
  priority : option Z
}.

Inductive Method : Type :=
| MCreate
| MInit
| MCleanup
| MGetState
| MRestoreState (state : Value)
| MOnHotReloadComplete
| MOnBeforePlayerDamage (event : Value).

(** What the orchestrator is seen doing, in order. *)
Inductive Event : Type :=
| Invoke (plugin : string) (m : Method)
| Return_ (plugin : string) (m : Method)
| Threw (plugin : string) (m : Method)
| Msg (line : string)
| SetThink
| SetNextThink (now : bool)     (* [true]: at the current game time; [false]: -1, never *)
| ClearAll.

Record World : Type := mkWorld {
  heap : Heap;
  activePlugins : gmap string Plugin;
  orderedPlugins : list PluginDescriptor;
  eventBus : EventBus.Bus;
  (* [instance.GetPlayerController(slot)]: the controller in the slot, if
     any, given by what its [IsValid()] answers *)
  controllers : nat → option bool
}.

(** The end of a computation: a value, an exception on its way up, or no
    end at all. *)
Inductive Result (A : Type) : Type :=
| Ok (a : A)
| Thrown (error : Exn)
| Diverged.
Arguments Ok {A} a.
Arguments Thrown {A} error.
Arguments Diverged {A}.

Definition M (A : Type) : Type := World → Result A * World * list Event.

Definition ret {A : Type} (a : A) : M A := λ w, (Ok a, w, []).

Definition bind {A B : Type} (m : M A) (f : A → M B) : M B :=
  λ w,
    match m w with
    | (Ok a, w1, t1) => let '(r, w2, t2) := f a w1 in (r, w2, t1 ++ t2)
    | (Thrown e, w1, t1) => (Thrown e, w1, t1)
    | (Diverged, w1, t1) => (Diverged, w1, t1)
    end.

#[global] Instance M_ret : MRet M := @ret.
#[global] Instance M_bind : MBind M := λ A B f m, bind m f.

(** [try { m } catch (error) { h error }] *)
Definition try_catch {A : Type} (m : M A) (h : Exn → M A) : M A :=
  λ w,
    match m w with
    | (Thrown e, w1, t1) => let '(r, w2, t2) := h e w1 in (r, w2, t1 ++ t2)
    | other => other
    end.

(** [throw error] *)
Definition throw {A : Type} (error : Exn) : M A := λ w, (Thrown error, w, []).

Definition tell (e : Event) : M unit := λ w, (Ok tt, w, [e]).
Definition gets {A : Type} (f : World → A) : M A := λ w, (Ok (f w), w, []).
Definition modify (f : World → World) : M unit := λ w, (Ok tt, f w, []).

(** A call into plugin code, by how it ends.  What the plugin does on the
    side, to the objects of the heap or to the event bus it holds, is not
    followed: the results below are about answers and traces, and about the
    registry, which the plugin context ([instance] and [eventBus]) does not
    hand out. *)
Definition call {A : Type} (plugin : string) (m : Method) (o : Outcome A) : M A :=
  λ w,
    match o with
    | Returns a => (Ok a, w, [Invoke plugin m; Return_ plugin m])
    | Throws e => (Thrown e, w, [Invoke plugin m; Threw plugin m])
    end.

(** A new object. *)
Definition alloc (o : Obj) : M Value :=
  λ w, (Ok (VObj (length (heap w))),
        mkWorld (heap w ++ [o]) (activePlugins w) (orderedPlugins w)
                (eventBus w) (controllers w),
        []).

Definition set_activePlugins (m : gmap string Plugin) (w : World) : World :=
  mkWorld (heap w) m (orderedPlugins w) (eventBus w) (controllers w).

Definition set_orderedPlugins (l : list PluginDescriptor) (w : World) : World :=
  mkWorld (heap w) (activePlugins w) l (eventBus w) (controllers w).

Definition set_eventBus (b : EventBus.Bus) (w : World) : World :=
  mkWorld (heap w) (activePlugins w) (orderedPlugins w) b (controllers w).

Fixpoint forEach {A : Type} (f : A → M unit) (l : list A) : M unit :=
  match l with
  | [] => ret tt
  | x :: l' => f x;; forEach f l'
  end.

(** A [forEach] whose callback updates local variables of the caller. *)
Fixpoint forEachAcc {A St : Type} (f : A → St → M St) (l : list A) (s : St)
    : M St :=
  match l with
  | [] => ret s
  | x :: l' => s ← f x s; forEachAcc f l' s
  end.

End Host.

(** ** State utilities for hot reload ([dev/src/core/state-utils.ts]) *)
Module StateUtils.
Import Js Host.

Record SafeStateResult : Type := mkSafeStateResult {
  success : bool;
  data : Value;
  error : option string
}.

Record ValidationResult : Type := mkValidationResult {
  valid : bool;
  validation_error : option string
}.

Definition createEmptyState : M Value := alloc (ORecord [] []).

(** [const errorMsg = error instanceof Error ? error.message : String(error)]
    in a [catch] block: the conversion may throw in turn, and nothing
    catches that. *)
Definition errorMsgOf (thrown : Exn) : M string :=
  match errorMessage thrown with
  | inl errorMsg => mret errorMsg
  | inr raised => throw raised
  end.

Definition safeGetState (feature : Plugin) (featureName : string)
    : M SafeStateResult :=
  try_catch
    (match getState feature with
     | None =>
         empty ← createEmptyState;
         mret (mkSafeStateResult false empty
                 (Some ("Feature '" +:+ featureName +:+ "' has no getState method")))
     | Some getState =>
         state ← call featureName MGetState getState;
         match state with
         | VNull | VUndefined =>
             tell (Msg ("[StateUtils] WARNING: Feature '" +:+ featureName
                        +:+ "' returned null/undefined state"));;
             empty ← createEmptyState;
             mret (mkSafeStateResult true empty None)
         | VObj _ => mret (mkSafeStateResult true state None)
         | _ =>
             tell (Msg ("[StateUtils] WARNING: Feature '" +:+ featureName
                        +:+ "' returned non-object state: " +:+ typeOf state));;
             empty ← createEmptyState;
             mret (mkSafeStateResult false empty
                     (Some ("State must be an object, got " +:+ typeOf state)))
         end
     end)
    (λ thrown,
       errorMsg ← errorMsgOf thrown;
       tell (Msg ("[StateUtils] ERROR: Failed to get state for feature '"
                  +:+ featureName +:+ "': " +:+ errorMsg));;
       empty ← createEmptyState;
       mret (mkSafeStateResult false empty (Some errorMsg))).

(** ["IsValid" in value && typeof value.IsValid === "function"] *)
Definition hasIsValid (o : Obj) : bool :=
  match getProp o "IsValid" with
  | Some (VFun _) => true
  | _ => false
  end.

(** [forEach] with the index, over a callback that may not come back. *)
Fixpoint forEachIndexed {A St : Type} (f : A → nat → St → option St)
    (l : list A) (index : nat) (s : St) : option St :=
  match l with
  | [] => Some s
  | x :: l' =>
      match f x index s with
      | Some s' => forEachIndexed f l' (S index) s'
      | None => None
      end
  end.

(** The inner [checkValue] of [validateStateShape].  The pair threaded
    through is the closure's [seen] set and [issues] array.  The recursion
    runs on the call stack: [fuel] is the room left on it, one unit per
    nesting level, and [None] is a walk that runs out of it, which the
    engine ends with a [RangeError]. *)
Fixpoint checkValue (h : Heap) (fuel : nat) (value : Value) (path : string)
    (st : gset nat * list string) : option (gset nat * list string) :=
  match fuel with
  | 0 => None
  | S fuel =>
      match value with
      | VNull | VUndefined => Some st
      | VFun _ =>
          Some (st.1, st.2 ++ ["Function at " +:+ path
                               +:+ " - functions cannot be serialized"])
      | VObj a =>
          if decide (a ∈ st.1)
          then Some (st.1, st.2 ++ ["Circular reference at " +:+ path])
          else
            let seen := {[a]} ∪ st.1 in
            match h !! a with
            | None => Some (seen, st.2)
            | Some o =>
                if hasIsValid o
                then Some (seen, st.2 ++ ["Entity reference at " +:+ path
                             +:+ " - store entity names as strings instead"])
                else
                  match o with
                  | OArray items =>
                      forEachIndexed
                        (λ item index,
                           checkValue h fuel item
                             (path +:+ "[" +:+ pretty index +:+ "]"))
                        items 0 (seen, st.2)
                  | ORecord own _ =>
                      forEachIndexed
                        (λ entry _,
                           checkValue h fuel entry.2 (path +:+ "." +:+ entry.1))
                        own 0 (seen, st.2)
                  end
            end
      | VBool _ | VNum _ | VStr _ => Some st
      end
  end.

Definition validateStateShape (h : Heap) (fuel : nat) (state : Value)
    (_featureName : string) : option ValidationResult :=
  match state with
  | VObj _ =>
      match checkValue h fuel state "state" (∅, []) with
      | None => None
      | Some (_, issues) =>
          Some (if Nat.ltb 0 (length issues)
                then mkValidationResult false (Some (String.concat "; " issues))
                else mkValidationResult true None)
      end
  | _ =>
      Some (mkValidationResult false
              (Some ("State must be an object, got " +:+ typeOf state)))
  end.

(** The validator run on the current heap with [stack] levels of call stack
    left: a walk that needs more throws. *)
Definition validate (stack : nat) (state : Value) (featureName : string)
    : M ValidationResult :=
  λ w,
    match validateStateShape (heap w) stack state featureName with
    | Some v => (Ok v, w, [])
    | None => (Thrown (RangeError "Maximum call stack size exceeded"), w, [])
    end.

Definition safeRestoreState (stack : nat) (feature : Plugin) (state : Value)
    (featureName : string) : M bool :=
  try_catch
    (match restoreState feature with
     | None =>
         tell (Msg ("[StateUtils] WARNING: Feature '" +:+ featureName
                    +:+ "' has no restoreState method"));;
         mret false
     | Some restoreState =>
         match state with
         | VUndefined | VNull =>
             tell (Msg ("[StateUtils] WARNING: No state to restore for feature '"
                        +:+ featureName +:+ "'"));;
             mret false
         | _ =>
             validation ← validate stack state featureName;
             (if valid validation then mret tt
              else tell (Msg ("[StateUtils] WARNING: Invalid state shape for '"
                              +:+ featureName +:+ "': "
                              +:+ default "undefined" (validation_error validation))));;
             call featureName (MRestoreState state) (restoreState state);;
             mret true
         end
     end)
    (λ thrown,
       errorMsg ← errorMsgOf thrown;
       tell (Msg ("[StateUtils] ERROR: Failed to restore state for feature '"
                  +:+ featureName +:+ "': " +:+ errorMsg));;
       mret false).

Definition safeHotReloadComplete (feature : Plugin) (featureName : string)
    : M bool :=
  try_catch
    (match onHotReloadComplete feature with
     | Some hook =>
         call featureName MOnHotReloadComplete hook;;
         mret true
     | None => mret true
     end)
    (λ thrown,
       errorMsg ← errorMsgOf thrown;
       tell (Msg ("[StateUtils] ERROR: onHotReloadComplete failed for feature '"
                  +:+ featureName +:+ "': " +:+ errorMsg));;
       mret false).

End StateUtils.

(** ** The orchestrator ([src/core/gamemode-orchestrator.ts]) *)
Module Orchestrator.
Import Js Host StateUtils.

(** Default priority for plugins that don't specify one *)
Definition DEFAULT_PRIORITY : Z := 100.

(** Maximum number of player slots *)
Definition MAX_PLAYER_SLOTS : nat := 64.

(** The merged configuration [cfg], as far as the plugin lifecycle reads it.
    [ticksPerSec] is the rendering of [1 / (cfg.thinkInterval || 0.05)]. *)
Record GamemodeConfig : Type := mkConfig {
  gamemodeName : string;
  plugins : list PluginDescriptor;
  enabledPlugins : option (list string);
  ticksPerSec : string
}.

Section WithConfig.
Variable cfg : GamemodeConfig.
Variable engine : Engine.

Definition Msg_cfg (text : string) : M unit :=
  tell (Msg ("[" +:+ gamemodeName cfg +:+ "] " +:+ text)).

(** [cfg.enabledPlugins && cfg.enabledPlugins.length > 0] *)
Definition hasEnabledList : bool :=
  match enabledPlugins cfg with
  | Some names => Nat.ltb 0 (length names)
  | None => false
  end.

Definition effectivePriority (d : PluginDescriptor) : Z :=
  default DEFAULT_PRIORITY (priority d).

Definition getOrderedPlugins : list PluginDescriptor :=
  let pluginsToLoad :=
    if hasEnabledList
    then List.filter (λ d, includes (default [] (enabledPlugins cfg)) (name d))
                     (plugins cfg)
    else plugins cfg in
  Js.sort (λ a b, (effectivePriority a - effectivePriority b)%Z) pluginsToLoad.

Definition createPluginInstances : M unit :=
  modify (set_activePlugins ∅);;
  ordered ← gets orderedPlugins;
  forEach (λ d,
             pluginInstance ← call (name d) MCreate (create d);
             modify (λ w, set_activePlugins
                            (<[name d := pluginInstance]> (activePlugins w)) w))
          ordered.

Definition initializePlugins : M unit :=
  modify (set_orderedPlugins getOrderedPlugins);;
  ordered ← gets orderedPlugins;
  Msg_cfg ("Initializing " +:+ pretty (length ordered) +:+ " plugin(s)...");;
  forEach (λ d,
             let p := effectivePriority d in
             Msg_cfg ("Loading plugin: " +:+ name d +:+ " (priority: "
                      +:+ pretty p +:+ ")");;
             pluginInstance ← call (name d) MCreate (create d);
             call (name d) MInit (init pluginInstance);;
             modify (λ w, set_activePlugins
                            (<[name d := pluginInstance]> (activePlugins w)) w))
          ordered;;
  if hasEnabledList
  then Msg_cfg ("Enabled plugins: "
                +:+ String.concat ", " (default [] (enabledPlugins cfg)))
  else Msg_cfg ("All " +:+ pretty (length ordered)
                +:+ " plugins loaded (no filter)").

(** Iterate over plugins in priority order; the callback may update the
    caller's local variables, threaded here as [s]. *)
Definition forEachPluginInOrderAcc {St : Type}
    (callback : Plugin → string → St → M St) (s : St) : M St :=
  ordered ← gets orderedPlugins;
  forEachAcc (λ d s,
                plugin ← gets (λ w, activePlugins w !! name d);
                match plugin with
                | Some plugin => callback plugin (name d) s
                | None => mret s
                end)
             ordered s.

Definition forEachPluginInOrder (callback : Plugin → string → M unit) : M unit :=
  forEachPluginInOrderAcc (λ plugin name _, callback plugin name) tt.

Definition setupMainThinkLoop : M unit :=
  tell SetThink;;
  tell (SetNextThink true);;
  Msg_cfg ("Main think loop started (" +:+ ticksPerSec cfg +:+ " ticks/sec)").

(** [state[name] = value] on the plain object [state], given by its own
    properties: the name [__proto__] is the accessor of [Object.prototype],
    and assigning an object to it replaces the prototype and adds no
    property. *)
Definition setProperty (state : gmap string Value) (name : string)
    (value : Value) : gmap string Value :=
  if String.eqb name "__proto__" then state else <[name := value]> state.

(** [state[name]] on the object the host hands back, given by its own
    properties: a name it does not have is looked up in what it inherits. *)
Definition getProperty (state : gmap string Value) (name : string) : Value :=
  match state !! name with
  | Some value => value
  | None => default VUndefined (objectPrototype engine name)
  end.

(** The [before] callback of [setupHotReload]: the checkpoint save pass.
    The accumulator is [(state, savedCount, errorCount)]. *)
Definition setupHotReload_before : M (gmap string Value) :=
  Msg_cfg "Hot reload detected - saving state...";;
  tell (SetNextThink false);;
  modify (λ w, set_eventBus (EventBus.clearAll (eventBus w)) w);;
  tell ClearAll;;
  forEachPluginInOrder
    (λ plugin name,
       match cleanup plugin with
       | Some cleanup => call name MCleanup cleanup
       | None => mret tt
       end);;
  acc ← forEachPluginInOrderAcc
    (λ plugin name '(state, savedCount, errorCount),
       result ← safeGetState plugin name;
       if success result
       then mret (setProperty state name (data result), S savedCount, errorCount)
       else mret (state, savedCount, S errorCount))
    (∅, 0, 0);
  let '(state, savedCount, errorCount) := acc in
  (if Nat.ltb 0 errorCount
   then Msg_cfg ("WARNING: " +:+ pretty errorCount
                 +:+ " plugin(s) failed to save state")
   else mret tt);;
  size ← gets (λ w, size (activePlugins w));
  Msg_cfg ("State saved for hot reload (" +:+ pretty savedCount +:+ "/"
           +:+ pretty size +:+ " plugins)");;
  mret state.

Definition connectedPlayerCount (w : World) : nat :=
  length (List.filter
            (λ slot, match controllers w slot with
                     | Some isValid => isValid
                     | None => false
                     end)
            (seq 0 MAX_PLAYER_SLOTS)).

(** The restore pass of the [after] callback, [if (state) { ... }]; its
    answer is [restoredCount].  [state] is [None] when the host hands back
    nothing. *)
Definition restorePass (state : option (gmap string Value)) : M nat :=
  match state with
  | Some state =>
      forEachPluginInOrderAcc
        (λ plugin name restoredCount,
           if truthy (getProperty state name)
           then
             success ← safeRestoreState (callStack engine) plugin
                         (getProperty state name) name;
             mret (if success : bool then S restoredCount else restoredCount)
           else mret restoredCount)
        0
  | None => mret 0
  end.

(** The [after] callback of [setupHotReload]: the rebuild. *)
Definition setupHotReload_after (state : option (gmap string Value)) : M unit :=
  Msg_cfg "Restoring from hot reload...";;
  modify (set_orderedPlugins getOrderedPlugins);;
  createPluginInstances;;
  restoredCount ← restorePass state;
  size ← gets (λ w, size (activePlugins w));
  Msg_cfg ("State restored for " +:+ pretty restoredCount +:+ "/"
           +:+ pretty size +:+ " plugins");;
  forEachPluginInOrder (λ plugin name, call name MInit (init plugin));;
  setupMainThinkLoop;;
  connected ← gets connectedPlayerCount;
  (if Nat.ltb 0 connected
   then
     Msg_cfg ("Reinitializing " +:+ pretty connected
              +:+ " connected player(s)...");;
     forEachPluginInOrder
       (λ plugin name, safeHotReloadComplete plugin name;; mret tt)
   else mret tt);;
  Msg_cfg "Hot reload complete - all plugins restored".

(** The [OnBeforePlayerDamage] callback of [setupDamageEvents]: the loop
    over [orderedPlugins] with its early [return]. *)
Fixpoint beforePlayerDamage_loop (ordered : list PluginDescriptor)
    (event : Value) : M Value :=
  match ordered with
  | [] => mret VUndefined
  | d :: rest =>
      plugin ← gets (λ w, activePlugins w !! name d);
      match plugin ≫= onBeforePlayerDamage with
      | Some hook =>
          result ← call (name d) (MOnBeforePlayerDamage event) (hook event);
          match result with
          | VUndefined => beforePlayerDamage_loop rest event
          | _ => mret result
          end
      | None => beforePlayerDamage_loop rest event
      end
  end.

Definition setupDamageEvents_OnBeforePlayerDamage (event : Value) : M Value :=
  ordered ← gets orderedPlugins;
  beforePlayerDamage_loop ordered event.

End WithConfig.

End Orchestrator.

(** ** Serialization helpers of the state utilities
    ([dev/src/core/state-utils.ts]) *)
Module Serialization.
Import Js.

(** A value handed back by a reload where an array is expected: nothing, an
    array, or something else. *)
Inductive Saved (A : Type) : Type :=
| SavedMissing                 (* undefined or null *)
| SavedArray (items : list A)
| SavedOther (v : Value).      (* anything [Array.isArray] rejects *)
Arguments SavedMissing {A}.
Arguments SavedArray {A} items.
Arguments SavedOther {A} v.

Section Collections.
Context {K V : Type} `{EqDecision K}.

(** A [Map<K, V>]: its entries in insertion order.  [Map.prototype.set]
    overwrites the value of a present key in place and appends a new key. *)
Fixpoint JsMap_set (k : K) (v : V) (m : list (K * V)) : list (K * V) :=
  match m with
  | [] => [(k, v)]
  | (k', v') :: m' =>
      if decide (k = k') then (k, v) :: m' else (k', v') :: JsMap_set k v m'
  end.

Fixpoint JsMap_get (k : K) (m : list (K * V)) : option V :=
  match m with
  | [] => None
  | (k', v') :: m' => if decide (k = k') then Some v' else JsMap_get k m'
  end.

(** [new Map(entries)] *)
Definition JsMap_new (entries : list (K * V)) : list (K * V) :=
  foldl (λ m e, JsMap_set e.1 e.2 m) [] entries.

(** [Array.from(map.entries())] *)
Definition serializeMap (map : list (K * V)) : list (K * V) := map.

Definition deserializeMap (entries : Saved (K * V)) : list (K * V) :=
  match entries with
  | SavedArray entries => JsMap_new entries
  | SavedMissing | SavedOther _ => JsMap_new []
  end.

(** A [Set<K>]: its values in insertion order.  [Set.prototype.add] ignores a
    value that is present. *)
Definition JsSet_add (x : K) (s : list K) : list K :=
  if decide (x ∈ s) then s else s ++ [x].

(** [new Set(values)] *)
Definition JsSet_new (values : list K) : list K :=
  foldl (λ s x, JsSet_add x s) [] values.

(** [Array.from(set)] *)
Definition serializeSet (set : list K) : list K := set.

Definition deserializeSet (values : Saved K) : list K :=
  match values with
  | SavedArray values => JsSet_new values
  | SavedMissing | SavedOther _ => JsSet_new []
  end.

End Collections.

(** Object spread [{ ...target, ...source }] on own enumerable properties:
    each property of [source] is set on the copy, a present key keeping its
    place. *)
Definition spread (target source : list (string * Value)) : list (string * Value) :=
  foldl (λ o e, Map_set e.1 e.2 o) target source.

(** [mergeWithDefaults]: [savedState] is [None] when it is falsy. *)
Definition mergeWithDefaults (savedState : option (list (string * Value)))
    (defaultState : list (string * Value)) : list (string * Value) :=
  match savedState with
  | None => spread [] defaultState
  | Some savedState => spread (spread [] defaultState) savedState
  end.

End Serialization.

(** ** Fan-out dispatch of the orchestrator
    ([src/core/gamemode-orchestrator.ts]) *)
Module Dispatch.
Import Js Host Orchestrator.

(** [dispatchEvent(hookName, ...args)].  The property read
    [plugin[hookName]] is [hook], which yields what the call
    [hook.apply(plugin, args)] does when the property is a function; [m] is
    the tag the call carries in the trace. *)
Definition dispatchEvent (m : Method) (hook : Plugin → option (Outcome unit))
    : M unit :=
  forEachPluginInOrder
    (λ plugin name,
       match hook plugin with
       | Some hook => call name m hook
       | None => mret tt
       end).

(** The callback [setupMainThinkLoop] hands to [instance.SetThink]: one
    tick, namely [dispatchEvent("onThink")] and then
    [instance.SetNextThink(now + interval)].  [m] and [hook] stand for the
    plugins' [onThink]; the last component tells whether the tick asked for
    the next one. *)
Definition thinkTick (m : Method) (hook : Plugin → option (Outcome unit))
    : World → Result unit * World * list Event * bool :=
  λ w,
    match dispatchEvent m hook w with
    | (Ok _, w', t) => (Ok tt, w', t, true)
    | (r, w', t) => (r, w', t, false)
    end.

End Dispatch.

(** * Properties *)

Import Js Host StateUtils Orchestrator.

(** ** Plugin ordering *)
Section Sorting.
Context {A : Type} (key : A → Z).

Local Abbreviation cmp := (λ a b : A, (key a - key b)%Z).
Local Abbreviation has p := (λ a : A, (key a =? p)%Z).

Lemma insert_by_perm (x : A) (l : list A) : insert_by cmp x l ≡ₚ x :: l.
Proof.
  induction l as [|y l IH]; simpl; [done|].
  destruct (cmp x y <=? 0)%Z; [done|].
  rewrite IH. apply perm_swap.
Qed.

Lemma sort_perm (l : list A) : Js.sort cmp l ≡ₚ l.
Proof.
  induction l as [|x l IH]; simpl; [done|].
  rewrite insert_by_perm. by f_equiv.
Qed.

Lemma insert_by_sorted (x : A) (l : list A) :
  StronglySorted (λ a b, key a ≤ key b)%Z l →
  StronglySorted (λ a b, key a ≤ key b)%Z (insert_by cmp x l).
Proof.
  induction 1 as [|y l Hl IH Hy]; simpl.
  - repeat constructor.
  - destruct (Z.leb_spec (key x - key y) 0) as [Hle|Hgt].
    + constructor; [by constructor|].
      constructor; [lia|].
      eapply Forall_impl; [exact Hy|]. simpl. intros; lia.
    + constructor; [exact IH|].
      rewrite (insert_by_perm x l). constructor; [lia|exact Hy].
Qed.

Lemma sort_sorted (l : list A) :
  StronglySorted (λ a b, key a ≤ key b)%Z (Js.sort cmp l).
Proof.
  induction l as [|x l IH]; simpl; [constructor|].
  by apply insert_by_sorted.
Qed.

(** Insertion never moves an element past one of the same key. *)
Lemma insert_by_stable (p : Z) (x : A) (l : list A) :
  List.filter (has p) (insert_by cmp x l) = List.filter (has p) (x :: l).
Proof.
  induction l as [|y l IH]; [done|].
  cbn [insert_by].
  destruct (Z.leb_spec (key x - key y) 0) as [Hle|Hgt]; [done|].
  simpl. rewrite IH. simpl.
  destruct (Z.eqb_spec (key y) p) as [Hy|Hy];
    destruct (Z.eqb_spec (key x) p) as [Hx|Hx]; try done; exfalso; lia.
Qed.

Lemma sort_stable (p : Z) (l : list A) :
  List.filter (has p) (Js.sort cmp l) = List.filter (has p) l.
Proof.
  induction l as [|x l IH]; [done|].
  cbn [Js.sort foldr]. rewrite insert_by_stable.
  simpl. fold (Js.sort cmp l). by rewrite IH.
Qed.
End Sorting.

(** The enabled filter, in the words of the configuration's documentation:
    with no list, or an empty one, every plugin passes. *)
Definition passesEnabledFilter (enabled : option (list string)) (n : string) : bool :=
  match enabled with
  | None | Some [] => true
  | Some names => bool_decide (n ∈ names)
  end.

Lemma includes_elem_of (l : list string) (s : string) :
  includes l s = bool_decide (s ∈ l).
Proof.
  induction l as [|x l IH]; simpl; [done|].
  rewrite IH. destruct (String.eqb_spec s x) as [->|Hne]; simpl.
  - symmetry. apply bool_decide_eq_true. left.
  - apply eq_true_iff_eq. rewrite !bool_decide_eq_true.
    split; [by right|]. by inversion 1.
Qed.

Lemma getOrderedPlugins_unfold (cfg : GamemodeConfig) :
  getOrderedPlugins cfg =
  Js.sort (λ a b, (effectivePriority a - effectivePriority b)%Z)
    (List.filter (λ d, passesEnabledFilter (enabledPlugins cfg) (name d))
                 (plugins cfg)).
Proof.
  unfold getOrderedPlugins, hasEnabledList, passesEnabledFilter.
  destruct (enabledPlugins cfg) as [[|n names]|]; simpl.
  - f_equal. induction (plugins cfg) as [|d l IH]; simpl; congruence.
  - f_equal. apply filter_ext. intros d.
    rewrite <- (includes_elem_of (n :: names)). done.
  - f_equal. induction (plugins cfg) as [|d l IH]; simpl; congruence.
Qed.

(** C3.  The ordered plugin list holds exactly the descriptors that pass the
    enabled filter (all of them when the list is absent or empty); it is
    sorted ascending by priority, a missing priority counting as 100;
    descriptors of equal priority keep their registration order; and the
    result is a function of the descriptor list and the enabled list
    alone. *)
Theorem getOrderedPlugins_ordered (cfg : GamemodeConfig) :
  let kept :=
    List.filter (λ d, passesEnabledFilter (enabledPlugins cfg) (name d))
                (plugins cfg) in
  getOrderedPlugins cfg ≡ₚ kept
  ∧ StronglySorted
      (λ a b, default 100 (priority a) ≤ default 100 (priority b))%Z
      (getOrderedPlugins cfg)
  ∧ (∀ p : Z,
       List.filter (λ d, default 100 (priority d) =? p)%Z (getOrderedPlugins cfg)
       = List.filter (λ d, default 100 (priority d) =? p)%Z kept)
  ∧ (∀ (otherName otherTicks : string),
       getOrderedPlugins
         (mkConfig otherName (plugins cfg) (enabledPlugins cfg) otherTicks)
       = getOrderedPlugins cfg).
Proof.
  intros kept. rewrite getOrderedPlugins_unfold. fold kept.
  split; [apply (sort_perm effectivePriority)|].
  split; [apply (sort_sorted effectivePriority)|].
  split; [intros p; apply (sort_stable effectivePriority)|].
  intros. by rewrite getOrderedPlugins_unfold.
Qed.

(** ** Reasoning about host computations *)

Definition result_of {A : Type} (m : M A) (w : World) : Result A := (m w).1.1.
Definition world_of {A : Type} (m : M A) (w : World) : World := (m w).1.2.
Definition trace_of {A : Type} (m : M A) (w : World) : list Event := (m w).2.

(** Unfold the monad's operations and run what has become runnable. *)
Ltac unfold_M :=
  unfold mbind, M_bind, bind, mret, M_ret, ret, gets, modify, tell, call,
         try_catch, alloc;
  cbn beta iota zeta.

Lemma bind_ok {A B : Type} (m : M A) (f : A → M B) (w w1 w2 : World) (a : A)
    (r : Result B) (t1 t2 : list Event) :
  m w = (Ok a, w1, t1) → f a w1 = (r, w2, t2) →
  (m ≫= f) w = (r, w2, t1 ++ t2).
Proof. intros Hm Hf. unfold_M. by rewrite Hm, Hf. Qed.

(** ** The damage-override dispatch *)

(** The damage hook the dispatch finds for a descriptor: that of the active
    instance registered under its name, if it has one. *)
Definition damageHook (w : World) (d : PluginDescriptor)
    : option (Value → Outcome Value) :=
  activePlugins w !! name d ≫= onBeforePlayerDamage.

(** The trace of the hooks of [ds] being called and returning. *)
Definition hookCalls (w : World) (event : Value) (ds : list PluginDescriptor)
    : list Event :=
  ds ≫= (λ d, match damageHook w d with
              | Some _ => [Invoke (name d) (MOnBeforePlayerDamage event);
                           Return_ (name d) (MOnBeforePlayerDamage event)]
              | None => []
              end).

Ltac fold_damageHook w d :=
  change (option_bind _ _ onBeforePlayerDamage (activePlugins w !! name d))
    with (damageHook w d).

Lemma beforePlayerDamage_loop_skip (w : World) (event : Value)
    (pre rest : list PluginDescriptor) (r : Result Value) (w' : World)
    (t : list Event) :
  (∀ d hook, d ∈ pre → damageHook w d = Some hook →
             hook event = Returns VUndefined) →
  beforePlayerDamage_loop rest event w = (r, w', t) →
  beforePlayerDamage_loop (pre ++ rest) event w =
  (r, w', hookCalls w event pre ++ t).
Proof.
  intros Hpre Hrest. induction pre as [|d pre IH]; [done|].
  cbn [app beforePlayerDamage_loop].
  unfold hookCalls. cbn [mbind list_bind]. fold (hookCalls w event pre).
  assert (IH' := IH (λ d' h' Hd', Hpre d' h' (list_elem_of_further _ _ _ Hd'))).
  unfold_M. fold_damageHook w d.
  destruct (damageHook w d) as [hook|] eqn:Hhook.
  - assert (Hev : hook event = Returns VUndefined)
      by (apply (Hpre d); [apply list_elem_of_here|done]).
    unfold_M. rewrite Hev. rewrite IH'. done.
  - rewrite IH'. done.
Qed.

(** C4.  The damage-override dispatch visits the ordered list in order.  When
    a plugin's [onBeforePlayerDamage] returns a value other than [undefined]
    and the hooks of all plugins ordered before it returned [undefined], that
    value is the decision, and the hooks called are those of the earlier
    plugins and this one: no hook of a later plugin is called.  When every
    hook returns [undefined], every hook is called, in order, and the
    decision is [undefined]. *)
Theorem damage_first_responder_wins (w : World) (event : Value) :
  (∀ pre d post hook v,
     orderedPlugins w = pre ++ d :: post →
     (∀ d' hook', d' ∈ pre → damageHook w d' = Some hook' →
                  hook' event = Returns VUndefined) →
     damageHook w d = Some hook →
     hook event = Returns v →
     v ≠ VUndefined →
     setupDamageEvents_OnBeforePlayerDamage event w =
     (Ok v, w, hookCalls w event (pre ++ [d])))
  ∧ ((∀ d hook, d ∈ orderedPlugins w → damageHook w d = Some hook →
                hook event = Returns VUndefined) →
     setupDamageEvents_OnBeforePlayerDamage event w =
     (Ok VUndefined, w, hookCalls w event (orderedPlugins w))).
Proof.
  split.
  - intros pre d post hook v Hord Hpre Hhook Hv Hne.
    assert (Hd : beforePlayerDamage_loop (d :: post) event w =
                 (Ok v, w, [Invoke (name d) (MOnBeforePlayerDamage event);
                            Return_ (name d) (MOnBeforePlayerDamage event)])).
    { cbn [beforePlayerDamage_loop]. unfold_M.
      fold_damageHook w d. rewrite Hhook. unfold_M. rewrite Hv.
      by destruct v. }
    unfold setupDamageEvents_OnBeforePlayerDamage. unfold_M. rewrite Hord.
    rewrite (beforePlayerDamage_loop_skip _ _ _ _ _ _ _ Hpre Hd).
    unfold hookCalls. rewrite bind_app. cbn [mbind list_bind]. rewrite Hhook.
    by rewrite app_nil_r.
  - intros Hall.
    assert (Hnil : beforePlayerDamage_loop [] event w = (Ok VUndefined, w, []))
      by done.
    unfold setupDamageEvents_OnBeforePlayerDamage. unfold_M.
    rewrite <- (app_nil_r (orderedPlugins w)) at 1.
    rewrite (beforePlayerDamage_loop_skip _ _ _ _ _ _ _ Hall Hnil).
    by rewrite !app_nil_r.
Qed.

(** ** Trace properties that survive sequencing *)

(** [traces T m]: whatever [m] does, from any world, its trace satisfies [T]. *)
Definition traces {A : Type} (T : list Event → Prop) (m : M A) : Prop :=
  ∀ w, T (trace_of m w).

(** Plugin-call events. *)
Definition isPluginEvent (e : Event) : bool :=
  match e with
  | Invoke _ _ | Return_ _ _ | Threw _ _ => true
  | _ => false
  end.

Section Traces.
Variable T : list Event → Prop.
Variable allowed : Method → Prop.
Hypothesis T_nil : T [].
Hypothesis T_app : ∀ t1 t2, T t1 → T t2 → T (t1 ++ t2).
Hypothesis T_host : ∀ e, isPluginEvent e = false → T [e].
Hypothesis T_return : ∀ n m, allowed m → T [Invoke n m; Return_ n m].
Hypothesis T_threw : ∀ n m, allowed m → T [Invoke n m; Threw n m].

Lemma traces_ret {A : Type} (a : A) : traces T (mret a).
Proof. intros w. exact T_nil. Qed.

Lemma traces_gets {A : Type} (f : World → A) : traces T (gets f).
Proof. intros w. exact T_nil. Qed.

Lemma traces_modify (f : World → World) : traces T (modify f).
Proof. intros w. exact T_nil. Qed.

Lemma traces_alloc (o : Obj) : traces T (alloc o).
Proof. intros w. exact T_nil. Qed.

Lemma traces_tell (e : Event) : isPluginEvent e = false → traces T (tell e).
Proof. intros He w. by apply T_host. Qed.

Lemma traces_call {A : Type} (n : string) (m : Method) (o : Outcome A) :
  allowed m → traces T (call n m o).
Proof. intros Hm w. unfold trace_of, call. destruct o; simpl; auto. Qed.

Lemma traces_bind {A B : Type} (m : M A) (f : A → M B) :
  traces T m → (∀ a, traces T (f a)) → traces T (m ≫= f).
Proof.
  intros Hm Hf w. specialize (Hm w). unfold trace_of in *. unfold_M.
  destruct (m w) as [[[a|e|] w1] t1]; try done.
  specialize (Hf a w1). unfold trace_of in Hf.
  destruct (f a w1) as [[r w2] t2]. simpl in *. auto.
Qed.

Lemma traces_throw {A : Type} (error : Exn) : traces T (throw (A:=A) error).
Proof. intros w. exact T_nil. Qed.

Lemma traces_try_catch {A : Type} (m : M A) (h : Exn → M A) :
  traces T m → (∀ e, traces T (h e)) → traces T (try_catch m h).
Proof.
  intros Hm Hh w. specialize (Hm w). unfold trace_of in *. unfold_M.
  destruct (m w) as [[[a|e|] w1] t1]; try done.
  specialize (Hh e w1). unfold trace_of in Hh.
  destruct (h e w1) as [[r w2] t2]. simpl in *. auto.
Qed.

Lemma traces_forEachAcc {A St : Type} (f : A → St → M St) (l : list A) (s : St) :
  (∀ x s, traces T (f x s)) → traces T (forEachAcc f l s).
Proof.
  intros Hf. revert s. induction l as [|x l IH]; intros s; simpl.
  - apply traces_ret.
  - apply traces_bind; auto.
Qed.

Lemma traces_forEach {A : Type} (f : A → M unit) (l : list A) :
  (∀ x, traces T (f x)) → traces T (forEach f l).
Proof.
  intros Hf. induction l as [|x l IH]; simpl.
  - apply traces_ret.
  - apply traces_bind; auto.
Qed.

Lemma traces_validate (stack : nat) (state : Value) (n : string) :
  traces T (validate stack state n).
Proof.
  intros w. unfold trace_of, validate.
  by destruct (validateStateShape _ _ _ _).
Qed.

Lemma traces_errorMsgOf (thrown : Exn) : traces T (errorMsgOf thrown).
Proof.
  unfold errorMsgOf. destruct (errorMessage thrown);
    [apply traces_ret|apply traces_throw].
Qed.

(** One step of a derivation that a computation keeps [T]. *)
Ltac traces_step :=
  first
    [ apply traces_ret | apply traces_gets | apply traces_modify
    | apply traces_alloc | apply traces_validate | apply traces_errorMsgOf
    | apply traces_throw
    | apply traces_tell; reflexivity
    | apply traces_call; assumption
    | apply traces_bind; [|intros]
    | apply traces_try_catch; [|intros]
    | apply traces_forEachAcc; intros
    | apply traces_forEach; intros
    | match goal with
      | |- traces _ (match ?x with _ => _ end) => destruct x
      | |- traces _ (let '(_, _) := ?x in _) => destruct x
      end ].

Lemma traces_safeGetState (p : Plugin) (n : string) :
  allowed MGetState → traces T (safeGetState p n).
Proof.
  intros H. unfold safeGetState, createEmptyState. repeat traces_step.
Qed.

Lemma traces_safeRestoreState (stack : nat) (p : Plugin) (v : Value)
    (n : string) :
  allowed (MRestoreState v) → traces T (safeRestoreState stack p v n).
Proof.
  intros H. unfold safeRestoreState. repeat traces_step.
Qed.

Lemma traces_safeHotReloadComplete (p : Plugin) (n : string) :
  allowed MOnHotReloadComplete → traces T (safeHotReloadComplete p n).
Proof.
  intros H. unfold safeHotReloadComplete. repeat traces_step.
Qed.

Lemma traces_forEachPluginInOrderAcc {St : Type}
    (callback : Plugin → string → St → M St) (s : St) :
  (∀ p n s, traces T (callback p n s)) →
  traces T (forEachPluginInOrderAcc callback s).
Proof.
  intros H. unfold forEachPluginInOrderAcc. repeat traces_step. apply H.
Qed.

Lemma traces_forEachPluginInOrder (callback : Plugin → string → M unit) :
  (∀ p n, traces T (callback p n)) →
  traces T (forEachPluginInOrder callback).
Proof.
  intros H. unfold forEachPluginInOrder.
  apply traces_forEachPluginInOrderAcc. intros. apply H.
Qed.

Lemma traces_createPluginInstances :
  allowed MCreate → traces T createPluginInstances.
Proof.
  intros H. unfold createPluginInstances. repeat traces_step.
Qed.

Lemma traces_setupMainThinkLoop (cfg : GamemodeConfig) :
  traces T (setupMainThinkLoop cfg).
Proof. unfold setupMainThinkLoop, Msg_cfg. repeat traces_step. Qed.

Lemma traces_initializePlugins (cfg : GamemodeConfig) :
  allowed MCreate → allowed MInit → traces T (initializePlugins cfg).
Proof.
  intros H1 H2. unfold initializePlugins, Msg_cfg. repeat traces_step.
Qed.

(** The rebuild up to, and without, its [init] pass. *)
Lemma traces_restore_pass (engine : Engine)
    (state : option (gmap string Value)) :
  (∀ v, allowed (MRestoreState v)) →
  traces T (restorePass engine state).
Proof.
  intros H. unfold restorePass. destruct state as [state|]; [|apply traces_ret].
  apply traces_forEachPluginInOrderAcc. intros p n s.
  destruct (truthy _); [|apply traces_ret].
  apply traces_bind; [by apply traces_safeRestoreState|intros; apply traces_ret].
Qed.

(** The rebuild from its [init] pass on. *)
Lemma traces_init_pass (cfg : GamemodeConfig) :
  allowed MInit → allowed MOnHotReloadComplete →
  traces T
    (forEachPluginInOrder (λ plugin name, call name MInit (init plugin));;
     setupMainThinkLoop cfg;;
     connected ← gets connectedPlayerCount;
     (if Nat.ltb 0 connected
      then
        Msg_cfg cfg ("Reinitializing " +:+ pretty connected
                     +:+ " connected player(s)...");;
        forEachPluginInOrder
          (λ plugin name, safeHotReloadComplete plugin name;; mret tt)
      else mret tt);;
     Msg_cfg cfg "Hot reload complete - all plugins restored").
Proof.
  intros H1 H2.
  apply traces_bind;
    [apply traces_forEachPluginInOrder; intros; by apply traces_call|intros _].
  apply traces_bind; [apply traces_setupMainThinkLoop|intros _].
  apply traces_bind; [apply traces_gets|intros connected].
  apply traces_bind; [|intros _; unfold Msg_cfg; by apply traces_tell].
  destruct (Nat.ltb 0 connected); [|apply traces_ret].
  apply traces_bind; [unfold Msg_cfg; by apply traces_tell|intros _].
  apply traces_forEachPluginInOrder. intros p n.
  apply traces_bind; [by apply traces_safeHotReloadComplete|intros; apply traces_ret].
Qed.

Lemma traces_setupHotReload_after (cfg : GamemodeConfig) (engine : Engine)
    (state : option (gmap string Value)) :
  (∀ m, allowed m) → traces T (setupHotReload_after cfg engine state).
Proof.
  intros H. unfold setupHotReload_after.
  apply traces_bind; [unfold Msg_cfg; by apply traces_tell|intros _].
  apply traces_bind; [by apply traces_modify|intros _].
  apply traces_bind; [by apply traces_createPluginInstances|intros _].
  apply traces_bind; [by apply traces_restore_pass|intros rc].
  apply traces_bind; [by apply traces_gets|intros size].
  apply traces_bind; [unfold Msg_cfg; by apply traces_tell|intros _].
  by apply traces_init_pass.
Qed.
End Traces.

(** ** Restore before init *)

Definition isRestoreEvent (e : Event) : bool :=
  match e with
  | Invoke _ (MRestoreState _) | Return_ _ (MRestoreState _)
  | Threw _ (MRestoreState _) => true
  | _ => false
  end.

Definition isInitCall (e : Event) : bool :=
  match e with
  | Invoke _ MInit => true
  | _ => false
  end.

(** Every [P] event of the trace comes before every [Q] event. *)
Definition precedes (P Q : Event → bool) (t : list Event) : Prop :=
  ∀ i j e1 e2,
    t !! i = Some e1 → t !! j = Some e2 → P e1 = true → Q e2 = true → i < j.

(** Every call in the trace is directly followed by its end. *)
Definition completed (t : list Event) : Prop :=
  ∀ i n m,
    t !! i = Some (Invoke n m) →
    t !! S i = Some (Return_ n m) ∨ t !! S i = Some (Threw n m).

(** The trace falls into a part free of [Q] followed by a part free of [P]. *)
Definition splits {A : Type} (P Q : Event → bool) (m : M A) : Prop :=
  ∀ w, ∃ t1 t2,
    trace_of m w = t1 ++ t2
    ∧ Forall (λ e, Q e = false) t1 ∧ Forall (λ e, P e = false) t2.

Lemma precedes_split (P Q : Event → bool) (t1 t2 : list Event) :
  Forall (λ e, Q e = false) t1 → Forall (λ e, P e = false) t2 →
  precedes P Q (t1 ++ t2).
Proof.
  intros H1 H2 i j e1 e2 Hi Hj HP HQ.
  rewrite Forall_lookup in H1. rewrite Forall_lookup in H2.
  destruct (decide (i < length t1)) as [Hlt|Hge].
  - destruct (decide (j < length t1)) as [Hj1|Hj1]; [|lia].
    rewrite lookup_app_l in Hj by done.
    specialize (H1 _ _ Hj). congruence.
  - rewrite lookup_app_r in Hi by lia.
    specialize (H2 _ _ Hi). congruence.
Qed.

Lemma splits_bind_l {A B : Type} (P Q : Event → bool) (m : M A) (f : A → M B) :
  traces (Forall (λ e, Q e = false)) m → (∀ a, splits P Q (f a)) →
  splits P Q (m ≫= f).
Proof.
  intros Hm Hf w. specialize (Hm w). unfold trace_of in *. unfold_M.
  destruct (m w) as [[[a|e|] w1] t1]; simpl in *.
  - destruct (Hf a w1) as (u1 & u2 & Hu & Hu1 & Hu2). unfold trace_of in Hu.
    destruct (f a w1) as [[r w2] t2]. simpl in *. subst t2.
    exists (t1 ++ u1), u2. rewrite app_assoc. split; [done|].
    split; [by apply Forall_app|done].
  - exists t1, []. by rewrite app_nil_r.
  - exists t1, []. by rewrite app_nil_r.
Qed.

Lemma splits_second {A : Type} (P Q : Event → bool) (m : M A) :
  traces (Forall (λ e, P e = false)) m → splits P Q m.
Proof. intros Hm w. exists [], (trace_of m w). split; [done|]. split; [done|apply Hm]. Qed.

Lemma completed_app (t1 t2 : list Event) :
  completed t1 → completed t2 → completed (t1 ++ t2).
Proof.
  intros H1 H2 i n m Hi.
  destruct (decide (i < length t1)) as [Hlt|Hge].
  - rewrite lookup_app_l in Hi by done.
    assert (S i < length t1).
    { destruct (H1 i n m Hi) as [H|H]; by apply lookup_lt_Some in H. }
    rewrite lookup_app_l by done. by apply H1.
  - rewrite lookup_app_r in Hi by lia. rewrite lookup_app_r by lia.
    replace (S i - length t1) with (S (i - length t1)) by lia. by apply H2.
Qed.

Lemma completed_host (e : Event) : isPluginEvent e = false → completed [e].
Proof. intros He [|i] n m Hi; simpl in *; [|done]. by simplify_eq. Qed.

Lemma completed_return (n : string) (m : Method) :
  completed [Invoke n m; Return_ n m].
Proof. intros [|[|i]] n' m' Hi; simpl in *; simplify_eq; auto. Qed.

Lemma completed_threw (n : string) (m : Method) :
  completed [Invoke n m; Threw n m].
Proof. intros [|[|i]] n' m' Hi; simpl in *; simplify_eq; auto. Qed.

Lemma Forall_false_host (P : Event → bool) (e : Event) :
  (∀ e, isPluginEvent e = false → P e = false) →
  isPluginEvent e = false → Forall (λ e, P e = false) [e].
Proof. intros HP He. repeat constructor. by apply HP. Qed.

Lemma isRestoreEvent_host (e : Event) :
  isPluginEvent e = false → isRestoreEvent e = false.
Proof. by destruct e. Qed.

Lemma isInitCall_host (e : Event) :
  isPluginEvent e = false → isInitCall e = false.
Proof. by destruct e. Qed.

Definition notRestore (m : Method) : Prop :=
  match m with MRestoreState _ => False | _ => True end.

Definition notInit (m : Method) : Prop :=
  match m with MInit => False | _ => True end.

Lemma setupHotReload_after_splits (cfg : GamemodeConfig) (engine : Engine)
    (state : option (gmap string Value)) :
  splits isRestoreEvent isInitCall (setupHotReload_after cfg engine state).
Proof.
  pose (T := Forall (λ e, isInitCall e = false)).
  assert (Hnil : T []) by constructor.
  assert (Happ : ∀ t1 t2, T t1 → T t2 → T (t1 ++ t2))
    by (intros; by apply Forall_app).
  assert (Hhost : ∀ e, isPluginEvent e = false → T [e])
    by (intros e He; apply Forall_false_host; auto using isInitCall_host).
  assert (Hret : ∀ n m, notInit m → T [Invoke n m; Return_ n m])
    by (intros n []; simpl; intros; try done; by repeat constructor).
  assert (Hthr : ∀ n m, notInit m → T [Invoke n m; Threw n m])
    by (intros n []; simpl; intros; try done; by repeat constructor).
  unfold setupHotReload_after.
  apply splits_bind_l; [unfold Msg_cfg; by apply traces_tell|intros _].
  apply splits_bind_l; [by apply traces_modify|intros _].
  apply splits_bind_l;
    [by apply (traces_createPluginInstances T notInit)|intros _].
  apply splits_bind_l; [by apply (traces_restore_pass T notInit)|intros rc].
  apply splits_bind_l; [by apply traces_gets|intros size].
  apply splits_bind_l; [unfold Msg_cfg; by apply traces_tell|intros _].
  apply splits_second.
  apply (traces_init_pass _ notRestore); try done.
  - intros; by apply Forall_app.
  - intros e He; apply Forall_false_host; auto using isRestoreEvent_host.
  - intros n []; simpl; intros; try done; by repeat constructor.
  - intros n []; simpl; intros; try done; by repeat constructor.
Qed.

(** C6.  On a checkpoint rebuild every event of a [restoreState] call, its
    end included, comes before every call of [init], and every call that is
    made is directly followed by its return or its throw; on a fresh boot no
    [restoreState] is called at all. *)
Theorem restore_completes_before_init (cfg : GamemodeConfig)
    (engine : Engine) (w : World) (state : option (gmap string Value)) :
  precedes isRestoreEvent isInitCall
    (trace_of (setupHotReload_after cfg engine state) w)
  ∧ completed (trace_of (setupHotReload_after cfg engine state) w)
  ∧ Forall (λ e, isRestoreEvent e = false)
      (trace_of (initializePlugins cfg) w).
Proof.
  split; [|split].
  - destruct (setupHotReload_after_splits cfg engine state w) as (t1 & t2 & -> & H1 & H2).
    by apply precedes_split.
  - apply (traces_setupHotReload_after completed (λ _, True));
      auto using completed_app, completed_host, completed_return,
                 completed_threw.
    by intros [|i] ???.
  - apply (traces_initializePlugins _ notRestore); try done.
    + intros; by apply Forall_app.
    + intros e He; apply Forall_false_host; auto using isRestoreEvent_host.
    + intros n []; simpl; intros; try done; by repeat constructor.
    + intros n []; simpl; intros; try done; by repeat constructor.
Qed.

(** ** The state validator *)

Lemma forEachIndexed_total {A St : Type} (f : A → nat → St → option St)
    (Inv : St → Prop) (l : list A) (index : nat) (s : St) :
  Inv s →
  (∀ x i s, Inv s → ∃ s', f x i s = Some s' ∧ Inv s') →
  ∃ s', forEachIndexed f l index s = Some s' ∧ Inv s'.
Proof.
  intros Hs Hf. revert index s Hs.
  induction l as [|x l IH]; intros index s Hs; simpl; [by eauto|].
  destruct (Hf x index s Hs) as (s1 & -> & Hs1). by apply IH.
Qed.

Lemma forEachIndexed_mono {A St : Type} (f g : A → nat → St → option St)
    (l : list A) (index : nat) (s r : St) :
  (∀ x i s r, f x i s = Some r → g x i s = Some r) →
  forEachIndexed f l index s = Some r →
  forEachIndexed g l index s = Some r.
Proof.
  intros Hfg. revert index s.
  induction l as [|x l IH]; intros index s; simpl; [done|].
  destruct (f x index s) as [s1|] eqn:Hf; [|done].
  rewrite (Hfg _ _ _ _ Hf). apply IH.
Qed.

(** The objects of the heap the walk has not entered yet. *)
Definition unseen (h : Heap) (seen : gset nat) : gset nat :=
  set_seq 0 (length h) ∖ seen.

Lemma unseen_enter (h : Heap) (seen : gset nat) (a : nat) (o : Obj) :
  h !! a = Some o → a ∉ seen →
  size (unseen h ({[a]} ∪ seen)) < size (unseen h seen).
Proof.
  intros Ha Hseen. apply subset_size. unfold unseen.
  apply lookup_lt_Some in Ha.
  assert (a ∈ (set_seq 0 (length h) : gset nat))
    by (apply elem_of_set_seq; lia).
  set_solver.
Qed.

Lemma unseen_mono (h : Heap) (seen seen' : gset nat) :
  seen ⊆ seen' → (size (unseen h seen') ≤ size (unseen h seen))%nat.
Proof. intros H. apply subseteq_size. unfold unseen. set_solver. Qed.

(** The walk comes back whenever its fuel exceeds the number of objects not
    entered yet, and it only adds to [seen]. *)
Lemma checkValue_total (h : Heap) (fuel : nat) (value : Value) (path : string)
    (seen : gset nat) (issues : list string) :
  size (unseen h seen) < fuel →
  ∃ st, checkValue h fuel value path (seen, issues) = Some st ∧ seen ⊆ st.1.
Proof.
  revert value path seen issues.
  induction fuel as [|fuel IH]; intros value path seen issues Hfuel; [lia|].
  destruct value as [| |b|n|s|a|a]; simpl; try by eauto.
  destruct (decide (a ∈ seen)) as [Hin|Hnotin]; [by eauto|].
  destruct (h !! a) as [o|] eqn:Ha; [|eexists; split; [done|set_solver]].
  destruct (hasIsValid o); [eexists; split; [done|set_solver]|].
  pose proof (unseen_enter h seen a o Ha Hnotin) as Hless.
  assert (Hstep : ∀ (v : Value) (p : string) (s : gset nat * list string),
             {[a]} ∪ seen ⊆ s.1 →
             ∃ s', checkValue h fuel v p s = Some s' ∧ {[a]} ∪ seen ⊆ s'.1).
  { intros v p [seen1 issues1] Hsub. simpl in Hsub.
    destruct (IH v p seen1 issues1) as (st & Hst & Hseen1).
    - pose proof (unseen_mono h _ _ Hsub). lia.
    - exists st. split; [done|]. set_solver. }
  destruct o as [items|own hidden].
  - destruct (forEachIndexed_total
                (λ item index, checkValue h fuel item
                                 (path +:+ "[" +:+ pretty index +:+ "]"))
                (λ s, {[a]} ∪ seen ⊆ s.1) items 0 ({[a]} ∪ seen, issues))
      as (st & Hst & Hsub); [done|by intros; apply Hstep|].
    exists st. split; [done|set_solver].
  - destruct (forEachIndexed_total
                (λ (entry : string * Value) (_ : nat),
                   checkValue h fuel entry.2 (path +:+ "." +:+ entry.1))
                (λ s, {[a]} ∪ seen ⊆ s.1) own 0 ({[a]} ∪ seen, issues))
      as (st & Hst & Hsub); [done|by intros; apply Hstep|].
    exists st. split; [done|set_solver].
Qed.

(** More fuel does not change the outcome of a walk that came back. *)
Lemma checkValue_fuel_mono (h : Heap) (fuel : nat) (value : Value)
    (path : string) (st r : gset nat * list string) :
  checkValue h fuel value path st = Some r →
  checkValue h (S fuel) value path st = Some r.
Proof.
  revert value path st r.
  induction fuel as [|fuel IH]; intros value path st r; [done|].
  destruct value as [| |b|n|s|a|a]; try done.
  cbn [checkValue].
  destruct (decide (a ∈ st.1)); [done|].
  destruct (h !! a) as [o|]; [|done].
  destruct (hasIsValid o); [done|].
  destruct o as [items|own hidden]; apply forEachIndexed_mono; intros; by apply IH.
Qed.

Lemma checkValue_fuel_le (h : Heap) (fuel fuel' : nat) (value : Value)
    (path : string) (st r : gset nat * list string) :
  (fuel ≤ fuel')%nat →
  checkValue h fuel value path st = Some r →
  checkValue h fuel' value path st = Some r.
Proof.
  induction 1 as [|fuel' Hle IH]; [done|].
  intros H. by apply checkValue_fuel_mono, IH.
Qed.

Lemma validateStateShape_result (h : Heap) (state : Value) (featureName : string) :
  ∃ result, ∀ fuel, length h < fuel →
    validateStateShape h fuel state featureName = Some result.
Proof.
  destruct state as [| |b|n|s|a|a]; try (eexists; intros; reflexivity).
  destruct (checkValue_total h (S (length h)) (VObj a) "state" ∅ [])
    as ([seen issues] & Hst & _).
  { pose proof (unseen_mono h ∅ ∅). unfold unseen.
    assert (size (set_seq (C:=gset nat) 0 (length h) ∖ ∅) ≤ length h)%nat.
    { etrans; [apply subseteq_size|]; [apply subseteq_difference_l; done|].
      by rewrite size_set_seq. }
    lia. }
  eexists. intros fuel Hfuel. unfold validateStateShape.
  rewrite (checkValue_fuel_le h (S (length h)) fuel _ _ _ _ ltac:(lia) Hst).
  reflexivity.
Qed.

(** A chain of [n] objects, each the [next] of the one before it:
    [{ next: { next: ... { next: null } } }]. *)
Definition chain (n : nat) : Heap :=
  (λ i, ORecord [("next", if Nat.eqb (S i) n then VNull else VObj (S i))] [])
    <$> seq 0 n.

Lemma chain_lookup (n i : nat) :
  i < n →
  chain n !! i
  = Some (ORecord [("next", if Nat.eqb (S i) n then VNull else VObj (S i))] []).
Proof.
  intros Hi. unfold chain. rewrite list_lookup_fmap, lookup_seq_lt by done.
  reflexivity.
Qed.

(** The walk of a chain goes one level down per object, and one more for
    the [null] at its end. *)
Lemma checkValue_chain (n fuel i : nat) (path : string) (seen : gset nat)
    (issues : list string) :
  (i + fuel ≤ n)%nat → (∀ j, j ∈ seen → j < i) →
  checkValue (chain n) fuel (VObj i) path (seen, issues) = None.
Proof.
  revert i path seen. induction fuel as [|fuel IH]; intros i path seen Hle Hseen;
    [done|].
  cbn [checkValue fst snd].
  rewrite decide_False by (intros Hin; specialize (Hseen i Hin); lia).
  rewrite chain_lookup by lia. cbn [hasIsValid getProp assoc].
  replace (String.eqb "IsValid" "next") with false by reflexivity.
  cbn [assoc forEachIndexed fst snd].
  destruct (Nat.eqb_spec (S i) n) as [Heq|Hne].
  - assert (fuel = 0) as -> by lia. reflexivity.
  - rewrite IH; [done|lia|].
    intros j [->%elem_of_singleton|Hj]%elem_of_union; [lia|].
    specialize (Hseen j Hj). lia.
Qed.

Lemma validateStateShape_chain (n : nat) (featureName : string) :
  validateStateShape (chain n) n (VObj 0) featureName = None.
Proof.
  unfold validateStateShape. rewrite checkValue_chain; [done|lia|].
  intros j Hj. by apply elem_of_empty in Hj.
Qed.

(** C10, amended.  On a state of plain data, cyclic or shared as it may be,
    [validateStateShape] comes back with a validation result whenever the
    call stack has room for more nesting levels than the heap has objects,
    and the result does not depend on how much more; an object already in
    the identity set is reported and not entered again, which is what bounds
    the nesting by the number of objects. *)
Theorem validateStateShape_returns_within_stack (h : Heap) (state : Value)
    (featureName : string) :
  (∃ result, ∀ stack, length h < stack →
     validateStateShape h stack state featureName = Some result
     ∧ ∀ w, heap w = h →
         validate stack state featureName w = (Ok result, w, []))
  ∧ (∀ stack a path seen issues,
       a ∈ seen →
       checkValue h (S stack) (VObj a) path (seen, issues)
       = Some (seen, issues ++ ["Circular reference at " +:+ path])).
Proof.
  split.
  - destruct (validateStateShape_result h state featureName) as (result & Hres).
    exists result. intros stack Hstack. split; [by apply Hres|].
    intros w <-. unfold validate. by rewrite Hres.
  - intros stack a path seen issues Hin. simpl. by rewrite decide_True.
Qed.

(** C10 as stated fails on a deep state.  A chain of 3000 nested objects has
    no cycle and no shared object, and with room for 3000 levels on the call
    stack the walk runs out of stack: [validateStateShape] throws a
    [RangeError] where the claim has it return a result. *)
Lemma validateStateShape_overflows_on_deep_state :
  validateStateShape (chain 3000) 3000 (VObj 0) "plugin" = None
  ∧ ∀ w, heap w = chain 3000 →
      validate 3000 (VObj 0) "plugin" w
      = (Thrown (RangeError "Maximum call stack size exceeded"), w, []).
Proof.
  split; [apply validateStateShape_chain|].
  intros w Hw. unfold validate. by rewrite Hw, validateStateShape_chain.
Qed.

(** What it is for a heap to hold plain data only. *)
Definition children (o : Obj) : list Value :=
  match o with
  | OArray items => items
  | ORecord own _ => own.*2
  end.

Definition functionFree (h : Heap) : Prop :=
  ∀ a o f, h !! a = Some o → VFun f ∉ children o.

Definition handleFree (h : Heap) : Prop :=
  ∀ a o, h !! a = Some o → hasIsValid o = false.

(** No reference cycle: the objects can be ranked so that every reference
    goes to a strictly lower rank. *)
Definition acyclic (h : Heap) : Prop :=
  ∃ rank : nat → nat,
    ∀ a b o, h !! a = Some o → VObj b ∈ children o → rank b < rank a.

(** [const a = {}; state = { x: a, y: a }] *)
Definition sharedHeap : Heap :=
  [ORecord [("x", VObj 1); ("y", VObj 1)] []; ORecord [] []].

(** C7, at a state that holds one object twice.  The state has no function,
    no handle and no reference cycle, and [validateStateShape] reports a
    circular reference at the second path to the shared object. *)
Theorem validateStateShape_flags_shared_object :
  functionFree sharedHeap ∧ handleFree sharedHeap ∧ acyclic sharedHeap
  ∧ validateStateShape sharedHeap 3 (VObj 0) "plugin"
    = Some (mkValidationResult false (Some "Circular reference at state.y")).
Proof.
  split; [|split; [|split]].
  - intros [|[|a]] o f Ho Hf; simplify_eq/=.
    + repeat (apply elem_of_cons in Hf as [Hf|Hf]; [done|]).
      by apply elem_of_nil in Hf.
    + by apply elem_of_nil in Hf.
  - intros [|[|a]] o Ho; by simplify_eq/=.
  - exists (λ a, match a with 0 => 1 | _ => 0 end).
    intros [|[|a]] b o Ho Hb; simplify_eq/=.
    + repeat (apply elem_of_cons in Hb as [Hb|Hb]; [simplify_eq; lia|]).
      by apply elem_of_nil in Hb.
    + by apply elem_of_nil in Hb.
  - vm_compute. reflexivity.
Qed.

(** ** Restoring is not gated by validation *)

(** What the [catch] of a state operation leaves in the trace: its error
    line, when the thrown value converts to a string. *)
Definition caughtTrace (line : string → string) (thrown : Exn) : list Event :=
  match errorMessage thrown with
  | inl errorMsg => [Msg (line errorMsg)]
  | inr _ => []
  end.

(** How the [catch] of a state operation ends: with [false], or with what
    the conversion of the thrown value to a string threw. *)
Definition caughtResult (thrown : Exn) : Result bool :=
  match errorMessage thrown with
  | inl _ => Ok false
  | inr raised => Thrown raised
  end.

Definition restoreCallTrace (featureName : string) (state : Value)
    (o : Outcome unit) : list Event :=
  Invoke featureName (MRestoreState state) ::
  match o with
  | Returns _ => [Return_ featureName (MRestoreState state)]
  | Throws thrown =>
      Threw featureName (MRestoreState state)
      :: caughtTrace
           (λ errorMsg,
              "[StateUtils] ERROR: Failed to restore state for feature '"
              +:+ featureName +:+ "': " +:+ errorMsg) thrown
  end.

Definition restoreCallResult (o : Outcome unit) : Result bool :=
  match o with
  | Returns _ => Ok true
  | Throws thrown => caughtResult thrown
  end.

Definition validationWarning (featureName : string) (v : ValidationResult)
    : list Event :=
  if valid v then []
  else [Msg ("[StateUtils] WARNING: Invalid state shape for '" +:+ featureName
             +:+ "': " +:+ default "undefined" (validation_error v))].

Definition returned {A : Type} (o : Outcome A) : bool :=
  match o with
  | Returns _ => true
  | Throws _ => false
  end.

(** A thrown value that converts to a string. *)
Definition printable (thrown : Exn) : Prop :=
  ∃ errorMsg, errorMessage thrown = inl errorMsg.

Lemma try_catch_caught {A : Type} (m : M A) (h : Exn → M A) (w w1 w2 : World)
    (thrown : Exn) (r : Result A) (t1 t2 : list Event) :
  m w = (Thrown thrown, w1, t1) → h thrown w1 = (r, w2, t2) →
  try_catch m h w = (r, w2, t1 ++ t2).
Proof. intros Hm Hh. unfold try_catch. by rewrite Hm, Hh. Qed.

Lemma try_catch_ok {A : Type} (m : M A) (h : Exn → M A) (w w1 : World)
    (a : A) (t1 : list Event) :
  m w = (Ok a, w1, t1) → try_catch m h w = (Ok a, w1, t1).
Proof. intros Hm. unfold try_catch. by rewrite Hm. Qed.

(** [safeRestoreState] on a plugin with the method and a state that is
    there, by what the validator does. *)
Lemma safeRestoreState_validated (stack : nat) (feature : Plugin)
    (state : Value) (featureName : string) (w : World)
    (restore : Value → Outcome unit) (validation : ValidationResult) :
  restoreState feature = Some restore →
  state ≠ VUndefined →
  state ≠ VNull →
  validateStateShape (heap w) stack state featureName = Some validation →
  safeRestoreState stack feature state featureName w
  = (restoreCallResult (restore state), w,
     validationWarning featureName validation
     ++ restoreCallTrace featureName state (restore state)).
Proof.
  intros Hrestore Hundef Hnull Hval.
  unfold safeRestoreState. rewrite Hrestore.
  unfold validationWarning, restoreCallTrace, restoreCallResult, caughtTrace,
    caughtResult, errorMsgOf.
  destruct state; try done; unfold_M; unfold validate; rewrite Hval;
    destruct (valid validation); unfold_M;
    destruct (restore _) as [[]|thrown]; try reflexivity;
    unfold throw; destruct (errorMessage thrown); reflexivity.
Qed.

Lemma safeRestoreState_overflow (stack : nat) (feature : Plugin)
    (state : Value) (featureName : string) (w : World)
    (restore : Value → Outcome unit) :
  restoreState feature = Some restore →
  state ≠ VUndefined →
  state ≠ VNull →
  validateStateShape (heap w) stack state featureName = None →
  safeRestoreState stack feature state featureName w
  = (Ok false, w,
     [Msg ("[StateUtils] ERROR: Failed to restore state for feature '"
           +:+ featureName +:+ "': Maximum call stack size exceeded")]).
Proof.
  intros Hrestore Hundef Hnull Hval.
  unfold safeRestoreState. rewrite Hrestore.
  destruct state; try done; unfold_M; unfold validate; rewrite Hval;
    reflexivity.
Qed.

(** C9, amended.  For a plugin that has a [restoreState] method and a state
    that is neither [undefined] nor [null], whenever [validateStateShape]
    comes back with a verdict, [safeRestoreState] calls
    [restoreState(state)] whatever the verdict is: the verdict only decides
    whether a warning line precedes the call.  The call made, the answer is
    [true] when [restoreState] returned and [false] when it threw; when the
    thrown value has no conversion to a string, what the conversion throws
    leaves [safeRestoreState]. *)
Theorem safeRestoreState_validation_is_advisory (stack : nat)
    (feature : Plugin) (state : Value) (featureName : string) (w : World)
    (restore : Value → Outcome unit) (validation : ValidationResult) :
  restoreState feature = Some restore →
  state ≠ VUndefined →
  state ≠ VNull →
  validateStateShape (heap w) stack state featureName = Some validation →
  safeRestoreState stack feature state featureName w
  = (restoreCallResult (restore state), w,
     validationWarning featureName validation
     ++ restoreCallTrace featureName state (restore state))
  ∧ Invoke featureName (MRestoreState state)
    ∈ trace_of (safeRestoreState stack feature state featureName) w.
Proof.
  intros Hrestore Hundef Hnull Hval.
  pose proof (safeRestoreState_validated stack feature state featureName w
                restore validation Hrestore Hundef Hnull Hval) as Hrun.
  split; [exact Hrun|].
  unfold trace_of. rewrite Hrun. cbn [snd]. apply elem_of_app. right.
  apply list_elem_of_here.
Qed.

(** A plugin whose methods all return, and that restores under any state. *)
Definition examplePlugin : Plugin :=
  mkPlugin (Returns tt) (Some (Returns tt)) (Some (Returns (VObj 0)))
           (Some (λ _, Returns tt)) (Some (Returns tt)) None.

Definition exampleWorld : World :=
  mkWorld sharedHeap ∅ [] (EventBus.createEventBus false) (λ _, None).

Lemma safeRestoreState_validation_is_advisory_witness :
  safeRestoreState 3 examplePlugin (VObj 0) "p" exampleWorld
  = (Ok true, exampleWorld,
     validationWarning "p"
       (mkValidationResult false (Some "Circular reference at state.y"))
     ++ restoreCallTrace "p" (VObj 0) (Returns tt))
  ∧ Invoke "p" (MRestoreState (VObj 0))
    ∈ trace_of (safeRestoreState 3 examplePlugin (VObj 0) "p") exampleWorld.
Proof.
  apply (safeRestoreState_validation_is_advisory
           3 examplePlugin (VObj 0) "p" exampleWorld (λ _, Returns tt)
           (mkValidationResult false (Some "Circular reference at state.y")));
    [reflexivity | discriminate | discriminate | reflexivity].
Defined.

(** A world whose heap is a chain of 3000 nested objects. *)
Definition deepWorld : World :=
  mkWorld (chain 3000) ∅ [] (EventBus.createEventBus false) (λ _, None).

(** C9 as stated fails, twice.  The state [null] fails
    [validateStateShape], and [safeRestoreState] returns [false] without
    calling the plugin's [restoreState].  On a chain of 3000 nested objects,
    with room for 3000 levels on the call stack, the validator itself
    throws: the [RangeError] of the walk is caught, and [safeRestoreState]
    returns [false], again without calling [restoreState]. *)
Lemma safeRestoreState_does_not_always_restore :
  is_Some (restoreState examplePlugin)
  ∧ validateStateShape (heap exampleWorld) 3 VNull "p"
    = Some (mkValidationResult false (Some "State must be an object, got object"))
  ∧ safeRestoreState 3 examplePlugin VNull "p" exampleWorld
    = (Ok false, exampleWorld,
       [Msg "[StateUtils] WARNING: No state to restore for feature 'p'"])
  ∧ safeRestoreState 3000 examplePlugin (VObj 0) "p" deepWorld
    = (Ok false, deepWorld,
       [Msg ("[StateUtils] ERROR: Failed to restore state for feature '"
             +:+ "p" +:+ "': Maximum call stack size exceeded")]).
Proof.
  split; [by eexists|]. split; [reflexivity|]. split; [reflexivity|].
  apply (safeRestoreState_overflow 3000 examplePlugin (VObj 0) "p" deepWorld
           (λ _, Returns tt)); [reflexivity|discriminate|discriminate|].
  apply validateStateShape_chain.
Qed.

(** ** The damage-override dispatch at the example of two plugins *)

(** [{ abort: true }] and [{ damage: 2 }] *)
Definition decisionHeap : Heap :=
  [ORecord [("abort", VBool true)] []; ORecord [("damage", VNum 2)] []].

Definition P1 : Plugin :=
  mkPlugin (Returns tt) None None None None (Some (λ _, Returns (VObj 0))).
Definition P2 : Plugin :=
  mkPlugin (Returns tt) None None None None (Some (λ _, Returns (VObj 1))).

Definition dP1 : PluginDescriptor := mkDescriptor "P1" (Returns P1) (Some 10%Z).
Definition dP2 : PluginDescriptor := mkDescriptor "P2" (Returns P2) (Some 20%Z).

Definition damageWorld : World :=
  mkWorld decisionHeap {[ "P1" := P1; "P2" := P2 ]} [dP1; dP2]
          (EventBus.createEventBus false) (λ _, None).

Lemma damage_first_responder_wins_witness :
  setupDamageEvents_OnBeforePlayerDamage VNull damageWorld
  = (Ok (VObj 0), damageWorld, hookCalls damageWorld VNull ([] ++ [dP1])).
Proof.
  apply (proj1 (damage_first_responder_wins damageWorld VNull)
           [] dP1 [dP2] (λ _, Returns (VObj 0)) (VObj 0)).
  - reflexivity.
  - intros d' hook' Hd'. by apply elem_of_nil in Hd'.
  - reflexivity.
  - reflexivity.
  - discriminate.
Defined.

(** ** Loops that leave the world as it is *)


Lemma forEachAcc_steady_trace {A St : Type} (f : A → St → M St) (w : World)
    (tr : A → list Event) (l : list A) :
  (∀ x s, x ∈ l → ∃ s', f x s w = (Ok s', w, tr x)) →
  ∀ s, ∃ s', forEachAcc f l s w = (Ok s', w, l ≫= tr).
Proof.
  induction l as [|x l IH]; intros Hf s; simpl; [by eexists|].
  destruct (Hf x s) as (s1 & H1); [apply list_elem_of_here|].
  destruct (IH (λ y s Hy, Hf y s (list_elem_of_further _ _ _ Hy)) s1)
    as (s2 & H2).
  eexists. by eapply bind_ok.
Qed.



(** What a call of [safeHotReloadComplete] leaves in the trace. *)
Definition hotReloadTrace (p : Plugin) (n : string) : list Event :=
  match onHotReloadComplete p with
  | Some (Returns _) =>
      [Invoke n MOnHotReloadComplete; Return_ n MOnHotReloadComplete]
  | Some (Throws thrown) =>
      Invoke n MOnHotReloadComplete :: Threw n MOnHotReloadComplete
      :: caughtTrace
           (λ errorMsg,
              "[StateUtils] ERROR: onHotReloadComplete failed for feature '"
              +:+ n +:+ "': " +:+ errorMsg) thrown
  | None => []
  end.

(** How a call of [safeHotReloadComplete] ends. *)
Definition hotReloadResult (p : Plugin) : Result bool :=
  match onHotReloadComplete p with
  | Some (Throws thrown) => caughtResult thrown
  | _ => Ok true
  end.

Lemma safeHotReloadComplete_run (p : Plugin) (n : string) (w : World) :
  safeHotReloadComplete p n w = (hotReloadResult p, w, hotReloadTrace p n).
Proof.
  unfold safeHotReloadComplete, hotReloadTrace, hotReloadResult, caughtTrace,
    caughtResult, errorMsgOf.
  destruct (onHotReloadComplete p) as [[[]|thrown]|]; unfold_M; try reflexivity.
  unfold throw. by destruct (errorMessage thrown).
Qed.


(** The instances [createPluginInstances] registers, when every factory
    returns. *)
Definition registered (m : gmap string Plugin) (l : list PluginDescriptor)
    : gmap string Plugin :=
  foldl (λ m d, match create d with
                | Returns p => <[name d := p]> m
                | Throws _ => m
                end) m l.


Lemma createPluginInstances_loop (l : list PluginDescriptor) (w : World) :
  (∀ d, d ∈ l → ∃ p, create d = Returns p) →
  ∃ t,
    forEach (λ d,
               pluginInstance ← call (name d) MCreate (create d);
               modify (λ w, set_activePlugins
                              (<[name d := pluginInstance]> (activePlugins w)) w))
            l w
    = (Ok tt, set_activePlugins (registered (activePlugins w) l) w, t).
Proof.
  revert w. induction l as [|d l IH]; intros w Hl; simpl.
  - exists []. by destruct w.
  - destruct (Hl d) as (p & Hp); [apply list_elem_of_here|].
    destruct (IH (set_activePlugins (<[name d := p]> (activePlugins w)) w))
      as (t & Ht); [intros; apply Hl; by apply list_elem_of_further|].
    eexists.
    eapply (bind_ok _ _ _ (set_activePlugins (<[name d := p]> (activePlugins w)) w)).
    + unfold_M. rewrite Hp. reflexivity.
    + rewrite Ht. unfold registered. simpl. rewrite Hp. reflexivity.
Qed.


(** The trace of a pass in which the callback's trace is [tr]. *)
Definition passTrace (w : World) (tr : Plugin → string → list Event)
    : list Event :=
  orderedPlugins w ≫= (λ d, match activePlugins w !! name d with
                             | Some p => tr p (name d)
                             | None => []
                             end).

Lemma forEachPluginInOrder_steady_trace (callback : Plugin → string → M unit)
    (tr : Plugin → string → list Event) (w : World) :
  (∀ d p, d ∈ orderedPlugins w → activePlugins w !! name d = Some p →
          callback p (name d) w = (Ok tt, w, tr p (name d))) →
  forEachPluginInOrder callback w = (Ok tt, w, passTrace w tr).
Proof.
  intros Hcb. unfold forEachPluginInOrder, forEachPluginInOrderAcc.
  destruct (forEachAcc_steady_trace
              (λ d (s : unit),
                 plugin ← gets (λ w, activePlugins w !! name d);
                 match plugin with
                 | Some plugin => callback plugin (name d)
                 | None => mret s
                 end)
              w
              (λ d, match activePlugins w !! name d with
                    | Some p => tr p (name d)
                    | None => []
                    end)
              (orderedPlugins w)) with (s := tt) as ([] & H).
  - intros d [] Hd. exists tt.
    destruct (activePlugins w !! name d) as [p|] eqn:Hp.
    + change (tr p (name d)) with ([] ++ tr p (name d)).
      eapply bind_ok; [reflexivity|]. simpl. rewrite Hp. by apply Hcb.
    + eapply (bind_ok _ _ w w w _ _ [] []); [reflexivity|].
      simpl. rewrite Hp. reflexivity.
  - change (passTrace w tr) with ([] ++ passTrace w tr).
    eapply bind_ok; [reflexivity|exact H].
Qed.

(** ** The hot-reload completion hook *)


Definition isAnyHotReloadCall (e : Event) : bool :=
  match e with
  | Invoke _ MOnHotReloadComplete => true
  | _ => false
  end.



(** The world a rebuild ends in when every factory returns. *)
Definition rebuilt (cfg : GamemodeConfig) (w : World) : World :=
  set_activePlugins (registered ∅ (getOrderedPlugins cfg))
                    (set_orderedPlugins (getOrderedPlugins cfg) w).




Section NoHotReload.
Let T : list Event → Prop := Forall (λ e, isAnyHotReloadCall e = false).





End NoHotReload.










(** Two plugins behind one configuration; a player sits in slot 0. *)
Definition plainPlugin : Plugin :=
  mkPlugin (Returns tt) None (Some (Returns (VObj 1))) (Some (λ _, Returns tt))
           None None.

Definition dHud : PluginDescriptor := mkDescriptor "hud" (Returns examplePlugin) None.
Definition dDebug : PluginDescriptor :=
  mkDescriptor "debug" (Returns plainPlugin) (Some 10%Z).

Definition reloadConfig : GamemodeConfig :=
  mkConfig "Sandbox" [dHud; dDebug] None "20".


(** The function members a plain object inherits from [Object.prototype]. *)
Definition objectPrototypeMembers : list string :=
  ["constructor"; "hasOwnProperty"; "isPrototypeOf"; "propertyIsEnumerable";
   "toLocaleString"; "toString"; "valueOf"; "__defineGetter__";
   "__defineSetter__"; "__lookupGetter__"; "__lookupSetter__"].

(** An engine with room for 3000 levels on the call stack, in which plain
    objects inherit those members. *)
Definition exampleEngine : Engine :=
  mkEngine 3000
    (λ name, VFun <$> findIndex (String.eqb name) objectPrototypeMembers).





(** ** The checkpoint save pass *)









(** A plugin whose [getState] throws, next to one whose [getState] returns
    an object. *)
Definition throwingPlugin : Plugin :=
  mkPlugin (Returns tt) (Some (Returns tt)) (Some (Throws (Error "boom")))
           (Some (λ _, Returns tt)) None None.

Definition dBroken : PluginDescriptor :=
  mkDescriptor "broken" (Returns throwingPlugin) (Some 5%Z).

Definition saveWorld : World :=
  mkWorld sharedHeap {[ "broken" := throwingPlugin; "debug" := plainPlugin ]}
          [dBroken; dDebug] (EventBus.createEventBus false) (λ _, None).






(** ** Delivery on the event bus *)

Import EventBus.

(** The subscribers of an event: the array the map holds for it. *)
Definition subscribers (b : Bus) (eventName : string) : list Subscription :=
  match Map_get eventName (subscriptions b) with
  | Some subs => array b subs
  | None => []
  end.


Lemma calls_log (m : Log) (b : Bus) : calls (log m b) = calls b.
Proof. unfold log. by destruct (debug b). Qed.

Lemma array_log (m : Log) (b : Bus) (r : nat) : array (log m b) r = array b r.
Proof. unfold log. by destruct (debug b). Qed.

Lemma subscriptions_log (m : Log) (b : Bus) :
  subscriptions (log m b) = subscriptions b.
Proof. unfold log. by destruct (debug b). Qed.

Lemma calls_off_entries (entries : list (string * nat)) (sid : nat) (b : Bus) :
  calls (off_entries entries sid b) = calls b.
Proof.
  induction entries as [|[ev r] entries IH]; [done|]. simpl.
  destruct (findIndex _ _); [|done].
  destruct (Nat.eqb _ _); simpl; by rewrite calls_log.
Qed.

Lemma calls_off (sid : nat) (b : Bus) : calls (off sid b) = calls b.
Proof. apply calls_off_entries. Qed.

Lemma calls_foldl_off (toRemove : list nat) (b : Bus) :
  calls (foldl (λ b i, off i b) b toRemove) = calls b.
Proof.
  revert b. induction toRemove as [|i l IH]; intros b; [done|].
  simpl. by rewrite IH, calls_off.
Qed.



(** Five handlers: 0 subscribes handler 1 to ["x"], 2 unsubscribes
    subscription 1, 3 throws an [Error], 4 throws a [Symbol], any other
    returns. *)
Definition exampleCode (h : nat) (data : Value) : Prog :=
  match h with
  | 0 => CallOn "x" 1 (λ _, Ret)
  | 2 => CallOff 1 Ret
  | 3 => Raise (Error "boom")
  | 4 => Raise thrownSymbol
  | _ => Ret
  end.

(** The handlers called so far, oldest first. *)
Definition called (b : Bus) : list nat := (λ c, handler c.1) <$> calls b.

(** [on("x", h3); on("x", h1)] *)
Definition quietBus : Bus :=
  (on "x" 1 (on "x" 3 (createEventBus false)).2).2.



(** C8, at a [once] handler that throws.  With [once("x", h3)] and
    [on("x", h1)], the first [emit] calls both; [h3] throws an [Error], its
    subscription is not removed, and the second [emit] calls it again. *)
Theorem once_handler_that_throws_is_called_again :
  let b0 := (on "x" 1 (once_ "x" 3 (createEventBus false)).2).2 in
  ∃ b1 b2,
    emit exampleCode 4 "x" VNull b0 = Some (None, b1)
    ∧ emit exampleCode 4 "x" VNull b1 = Some (None, b2)
    ∧ called b1 = [3; 1]
    ∧ called b2 = [3; 1; 3; 1]
    ∧ once <$> subscribers b2 "x" = [true; false].
Proof.
  intros b0.
  destruct (emit exampleCode 4 "x" VNull b0) as [[[e1|] b1]|] eqn:H1;
    [by vm_compute in H1| |by vm_compute in H1].
  destruct (emit exampleCode 4 "x" VNull b1) as [[[e2|] b2]|] eqn:H2.
  - vm_compute in H1. by simplify_eq.
  - exists b1, b2. vm_compute in H1. simplify_eq. vm_compute in H2. simplify_eq.
    repeat split; vm_compute; reflexivity.
  - vm_compute in H1. by simplify_eq.
Qed.

(** * Further properties *)

(** ** Insertion-ordered maps *)

Lemma Map_get_None {A : Type} (k : string) (m : list (string * A)) :
  Map_get k m = None ↔ k ∉ m.*1.
Proof.
  unfold Map_get. induction m as [|[k' v] m IH]; simpl.
  - split; [intros _; apply not_elem_of_nil|done].
  - rewrite not_elem_of_cons. destruct (String.eqb_spec k k') as [->|Hne].
    + split; [done|]. by intros [? _].
    + rewrite IH. naive_solver.
Qed.

Lemma Map_get_Some {A : Type} (k : string) (v : A) (m : list (string * A)) :
  Map_get k m = Some v → (k, v) ∈ m.
Proof.
  unfold Map_get. induction m as [|[k' v'] m IH]; simpl; [done|].
  destruct (String.eqb_spec k k') as [->|Hne].
  - intros [= ->]. left.
  - intros H. right. by apply IH.
Qed.

Lemma Map_get_elem {A : Type} (k : string) (v : A) (m : list (string * A)) :
  NoDup m.*1 → (k, v) ∈ m → Map_get k m = Some v.
Proof.
  unfold Map_get. induction m as [|[k' v'] m IH]; simpl.
  - intros _ H. by apply elem_of_nil in H.
  - rewrite NoDup_cons. intros [Hk' Hnd] Hin.
    apply elem_of_cons in Hin as [[= <- <-]|Hin].
    + by rewrite String.eqb_refl.
    + destruct (String.eqb_spec k k') as [->|Hne]; [|by apply IH].
      destruct Hk'. apply list_elem_of_fmap. by exists (k', v).
Qed.

Lemma Map_set_absent {A : Type} (k : string) (v : A) (m : list (string * A)) :
  Map_get k m = None → Map_set k v m = m ++ [(k, v)].
Proof.
  unfold Map_get. induction m as [|[k' v'] m IH]; simpl; [done|].
  destruct (String.eqb k k'); [done|]. intros H. by rewrite IH.
Qed.

Lemma Map_delete_sublist {A : Type} (k : string) (m : list (string * A)) :
  Map_delete k m `sublist_of` m.
Proof.
  induction m as [|[k' v'] m IH]; simpl; [done|].
  destruct (String.eqb k k'); [by apply sublist_cons|by apply sublist_skip].
Qed.

Lemma Map_delete_elem {A : Type} (k : string) (m : list (string * A))
    (e : string * A) :
  NoDup m.*1 → e ∈ Map_delete k m ↔ e ∈ m ∧ e.1 ≠ k.
Proof.
  induction m as [|[k' v'] m IH]; simpl.
  - intros _. split; [intros H; by apply elem_of_nil in H|intros [H _]; by apply elem_of_nil in H].
  - rewrite NoDup_cons. intros [Hk' Hnd].
    destruct (String.eqb_spec k k') as [->|Hne].
    + rewrite elem_of_cons. split.
      * intros He. split; [by right|]. intros Heq. destruct Hk'.
        apply list_elem_of_fmap. exists e. by rewrite Heq.
      * intros [[->|He] Hk]; [done|done].
    + rewrite !elem_of_cons, IH by done. split.
      * intros [->|[He Hk]]; [split; [by left|done]|split; [by right|done]].
      * intros [[->|He] Hk]; [by left|by right].
Qed.

Lemma Map_get_delete {A : Type} (k k' : string) (m : list (string * A)) :
  NoDup m.*1 →
  Map_get k' (Map_delete k m) = if decide (k' = k) then None else Map_get k' m.
Proof.
  intros Hnd. destruct (decide (k' = k)) as [->|Hne].
  - apply Map_get_None. intros Hin.
    apply list_elem_of_fmap in Hin as ([k1 v1] & -> & Hin).
    apply Map_delete_elem in Hin as [_ Hin]; done.
  - destruct (Map_get k' m) as [v|] eqn:Hget.
    + apply Map_get_elem.
      * eapply sublist_NoDup; [exact Hnd|]. apply fmap_sublist, Map_delete_sublist.
      * apply Map_delete_elem; [done|]. split; [by apply Map_get_Some|done].
    + apply Map_get_None. apply Map_get_None in Hget. intros Hin. apply Hget.
      apply list_elem_of_fmap in Hin as (e & -> & Hin).
      apply Map_delete_elem in Hin as [Hin _]; [|done].
      apply list_elem_of_fmap. by exists e.
Qed.

Lemma NoDup_fmap_eq {A B : Type} (f : A → B) (l : list A) (x y : A) :
  NoDup (f <$> l) → x ∈ l → y ∈ l → f x = f y → x = y.
Proof.
  induction l as [|z l IH]; [intros _ H; by apply elem_of_nil in H|].
  rewrite fmap_cons, NoDup_cons. intros [Hz Hnd] Hx Hy Heq.
  apply elem_of_cons in Hx as [->|Hx]; apply elem_of_cons in Hy as [->|Hy].
  - done.
  - destruct Hz. apply list_elem_of_fmap. by exists y.
  - destruct Hz. apply list_elem_of_fmap. by exists x.
  - by apply IH.
Qed.

(** ** Invariants of the event bus *)

(** The array a reference stands for, in a store of arrays. *)
Definition arrayAt (arrs : list (list Subscription)) (r : nat) : list Subscription :=
  default [] (arrs !! r).

(** What every bus built by the bus's own operations satisfies: the map has
    one entry per event and one array per entry, in the store and not empty;
    a subscription sits under its own event; ids are below [nextId], and no
    two subscriptions share one. *)
Record busInvariant (arrs : list (list Subscription))
    (subs : list (string * nat)) (next : nat) : Prop := mkBusInvariant {
  inv_keys : NoDup subs.*1;
  inv_refs : NoDup subs.*2;
  inv_alloc : ∀ e, e ∈ subs → e.2 < length arrs;
  inv_nonempty : ∀ e, e ∈ subs → arrayAt arrs e.2 ≠ [];
  inv_names : ∀ e sub, e ∈ subs → sub ∈ arrayAt arrs e.2 → eventName sub = e.1;
  inv_fresh : ∀ e sub, e ∈ subs → sub ∈ arrayAt arrs e.2 → id sub < next;
  inv_ids : ∀ e, e ∈ subs → NoDup (id <$> arrayAt arrs e.2);
  inv_apart : ∀ e1 e2 s1 s2,
      e1 ∈ subs → e2 ∈ subs → s1 ∈ arrayAt arrs e1.2 → s2 ∈ arrayAt arrs e2.2 →
      id s1 = id s2 → e1 = e2
}.

Definition wellFormed (b : Bus) : Prop :=
  busInvariant (arrays b) (subscriptions b) (nextId b).

Lemma arrayAt_insert (arrs : list (list Subscription)) (r r' : nat)
    (l : list Subscription) :
  r < length arrs →
  arrayAt (<[r := l]> arrs) r' = if decide (r' = r) then l else arrayAt arrs r'.
Proof.
  intros Hr. unfold arrayAt. destruct (decide (r' = r)) as [->|Hne].
  - by rewrite list_lookup_insert_eq.
  - by rewrite list_lookup_insert_ne.
Qed.

Lemma arrayAt_app (arrs : list (list Subscription)) (l : list Subscription) (r : nat) :
  arrayAt (arrs ++ [l]) r
  = if decide (r = length arrs) then l else arrayAt arrs r.
Proof.
  unfold arrayAt. destruct (decide (r = length arrs)) as [->|Hne].
  - by rewrite lookup_app_r, Nat.sub_diag by lia.
  - destruct (decide (r < length arrs)).
    + by rewrite lookup_app_l.
    + rewrite !lookup_ge_None_2; [done|lia|rewrite length_app; simpl; lia].
Qed.

Lemma busInvariant_empty (arrs : list (list Subscription)) (next : nat) :
  busInvariant arrs [] next.
Proof.
  split; try (intros; exfalso; eapply not_elem_of_nil; eassumption);
    try apply NoDup_nil_2.
Qed.

(** Pushing a subscription with the next id onto the array of an event. *)
Lemma busInvariant_push (arrs : list (list Subscription))
    (subs : list (string * nat)) (next : nat) (ev : string) (r h : nat)
    (o : bool) :
  busInvariant arrs subs next → (ev, r) ∈ subs →
  busInvariant (<[r := arrayAt arrs r ++ [mkSub next ev h o]]> arrs) subs (S next).
Proof.
  intros [Hk Hr Ha Hn Hnm Hf Hi Hap] Hin.
  pose proof (Ha _ Hin) as Hlt. simpl in Hlt.
  assert (Hrefs : ∀ e, e ∈ subs → e.2 = r → e = (ev, r)).
  { intros [ev' r'] He Heq. simpl in Heq. subst r'.
    by apply (NoDup_fmap_eq snd subs (ev', r) (ev, r)). }
  split; try done.
  - intros e He. by rewrite length_insert; apply Ha.
  - intros e He. rewrite arrayAt_insert by done.
    destruct (decide _); [by destruct (arrayAt arrs r)|by apply Hn].
  - intros e sub He. rewrite arrayAt_insert by done.
    destruct (decide _) as [Heq|]; [|by apply Hnm].
    rewrite elem_of_app, list_elem_of_singleton. intros [Hs| ->].
    + apply Hnm; [done|by rewrite Heq].
    + by rewrite (Hrefs e He Heq).
  - intros e sub He. rewrite arrayAt_insert by done.
    destruct (decide _) as [Heq|]; [|intros; by apply Nat.lt_lt_succ_r, (Hf e)].
    rewrite elem_of_app, list_elem_of_singleton. intros [Hs| ->]; [|simpl; lia].
    apply Nat.lt_lt_succ_r, (Hf e); [done|by rewrite Heq].
  - intros e He. rewrite arrayAt_insert by done.
    destruct (decide _) as [Heq|]; [|by apply Hi].
    rewrite fmap_app. apply NoDup_app. split; [by apply (Hi (ev, r))|].
    split; [|apply NoDup_singleton].
    intros i Hi1 Hi2. apply list_elem_of_singleton in Hi2. simpl in Hi2. subst i.
    apply list_elem_of_fmap in Hi1 as (sub & Hid & Hsub).
    pose proof (Hf (ev, r) sub Hin Hsub). lia.
  - intros e1 e2 s1 s2 He1 He2. rewrite !arrayAt_insert by done.
    destruct (decide (e1.2 = r)) as [Heq1|Hne1];
      destruct (decide (e2.2 = r)) as [Heq2|Hne2].
    + intros _ _ _. by rewrite (Hrefs e1 He1 Heq1), (Hrefs e2 He2 Heq2).
    + rewrite elem_of_app, list_elem_of_singleton. intros [Hs1| ->] Hs2 Hid.
      * apply (Hap e1 e2 s1 s2); try done. by rewrite Heq1.
      * pose proof (Hf e2 s2 He2 Hs2). simpl in Hid. lia.
    + rewrite elem_of_app, list_elem_of_singleton. intros Hs1 [Hs2| ->] Hid.
      * apply (Hap e1 e2 s1 s2); try done. by rewrite Heq2.
      * pose proof (Hf e1 s1 He1 Hs1). simpl in Hid. lia.
    + apply Hap; done.
Qed.

(** A first subscription to an event: a new array under a new key. *)
Lemma busInvariant_new (arrs : list (list Subscription))
    (subs : list (string * nat)) (next : nat) (ev : string) (h : nat) (o : bool) :
  busInvariant arrs subs next → Map_get ev subs = None →
  busInvariant (arrs ++ [[mkSub next ev h o]]) (subs ++ [(ev, length arrs)])
               (S next).
Proof.
  intros [Hk Hr Ha Hn Hnm Hf Hi Hap] Hnone.
  apply Map_get_None in Hnone.
  assert (Hold : ∀ e, e ∈ subs → e.2 ≠ length arrs).
  { intros e He. pose proof (Ha e He). lia. }
  assert (Hcase : ∀ e, e ∈ subs ++ [(ev, length arrs)] →
            (e ∈ subs ∧ arrayAt (arrs ++ [[mkSub next ev h o]]) e.2 = arrayAt arrs e.2)
            ∨ (e = (ev, length arrs)
               ∧ arrayAt (arrs ++ [[mkSub next ev h o]]) e.2 = [mkSub next ev h o])).
  { intros e. rewrite elem_of_app, list_elem_of_singleton, arrayAt_app.
    intros [He| ->].
    - left. split; [done|]. by rewrite decide_False by by apply Hold.
    - right. split; [done|]. by rewrite decide_True. }
  split.
  - rewrite fmap_app. apply NoDup_app. split; [done|].
    split; [|apply NoDup_singleton].
    intros k Hk1 Hk2. apply list_elem_of_singleton in Hk2. by subst k.
  - rewrite fmap_app. apply NoDup_app. split; [done|].
    split; [|apply NoDup_singleton].
    intros r Hr1 Hr2. apply list_elem_of_singleton in Hr2. simpl in Hr2. subst r.
    apply list_elem_of_fmap in Hr1 as (e & Heq & He). by apply (Hold e).
  - intros e He. rewrite length_app. simpl.
    destruct (Hcase e He) as [[He' _]|[-> _]]; [pose proof (Ha e He')|simpl]; lia.
  - intros e He. destruct (Hcase e He) as [[He' ->]|[-> ->]]; [by apply Hn|done].
  - intros e sub He. destruct (Hcase e He) as [[He' ->]|[-> ->]]; [by apply Hnm|].
    by intros ->%list_elem_of_singleton.
  - intros e sub He. destruct (Hcase e He) as [[He' ->]|[-> ->]].
    + intros. by apply Nat.lt_lt_succ_r, (Hf e).
    + intros ->%list_elem_of_singleton. simpl. lia.
  - intros e He. destruct (Hcase e He) as [[He' ->]|[-> ->]]; [by apply Hi|].
    apply NoDup_singleton.
  - intros e1 e2 s1 s2 He1 He2.
    destruct (Hcase e1 He1) as [[He1' ->]|[-> ->]];
      destruct (Hcase e2 He2) as [[He2' ->]|[-> ->]].
    + by apply Hap.
    + intros Hs1 ->%list_elem_of_singleton Hid.
      pose proof (Hf e1 s1 He1' Hs1). simpl in Hid. lia.
    + intros ->%list_elem_of_singleton Hs2 Hid.
      pose proof (Hf e2 s2 He2' Hs2). simpl in Hid. lia.
    + done.
Qed.

(** Dropping entries from the map. *)
Lemma busInvariant_sublist (arrs : list (list Subscription))
    (subs subs' : list (string * nat)) (next : nat) :
  busInvariant arrs subs next → subs' `sublist_of` subs →
  busInvariant arrs subs' next.
Proof.
  intros [Hk Hr Ha Hn Hnm Hf Hi Hap] Hsub.
  assert (Hin : ∀ e, e ∈ subs' → e ∈ subs)
    by (intros e He; by eapply elem_of_sublist).
  split; eauto.
  - eapply sublist_NoDup; [exact Hk|]. by apply fmap_sublist.
  - eapply sublist_NoDup; [exact Hr|]. by apply fmap_sublist.
Qed.

(** Splicing one subscription out of the array of an event, and dropping the
    event when its array is left empty. *)
Lemma busInvariant_remove (arrs : list (list Subscription))
    (subs : list (string * nat)) (next : nat) (ev : string) (r index : nat) :
  busInvariant arrs subs next → (ev, r) ∈ subs →
  busInvariant (<[r := delete index (arrayAt arrs r)]> arrs)
    (if Nat.eqb (length (delete index (arrayAt arrs r))) 0
     then Map_delete ev subs else subs)
    next.
Proof.
  intros Hinv Hin. pose proof Hinv as [Hk Hr Ha Hn Hnm Hf Hi Hap].
  pose proof (Ha _ Hin) as Hlt. simpl in Hlt.
  set (l' := delete index (arrayAt arrs r)).
  assert (Hl' : ∀ sub, sub ∈ l' → sub ∈ arrayAt arrs r)
    by (intros sub; apply list_elem_of_delete_inv).
  assert (Hrefs : ∀ e, e ∈ subs → e.2 = r → e = (ev, r)).
  { intros [ev' r'] He Heq. simpl in Heq. subst r'.
    by apply (NoDup_fmap_eq snd subs (ev', r) (ev, r)). }
  assert (Hmid : busInvariant (<[r := l']> arrs)
                   (List.filter (λ e, negb (Nat.eqb e.2 r && Nat.eqb (length l') 0)) subs)
                   next).
  { assert (Hfin : ∀ e, e ∈ List.filter
                           (λ e, negb (Nat.eqb e.2 r && Nat.eqb (length l') 0)) subs →
                         e ∈ subs ∧ (e.2 = r → l' ≠ [])).
    { intros e He. apply list_elem_of_In, filter_In in He as [He Hb].
      apply list_elem_of_In in He. split; [done|]. intros Heq ->.
      rewrite Heq, Nat.eqb_refl in Hb. done. }
    split.
    - eapply sublist_NoDup; [exact Hk|]. apply fmap_sublist.
      clear. induction subs as [|e subs IH]; simpl; [done|].
      destruct (negb _); [by apply sublist_skip|by apply sublist_cons].
    - eapply sublist_NoDup; [exact Hr|]. apply fmap_sublist.
      clear. induction subs as [|e subs IH]; simpl; [done|].
      destruct (negb _); [by apply sublist_skip|by apply sublist_cons].
    - intros e [He _]%Hfin. rewrite length_insert. by apply Ha.
    - intros e [He Hne]%Hfin. rewrite arrayAt_insert by done.
      destruct (decide _); [by apply Hne|by apply Hn].
    - intros e sub [He _]%Hfin. rewrite arrayAt_insert by done.
      destruct (decide _) as [Heq|]; [|by apply Hnm].
      intros Hs%Hl'. apply Hnm; [done|by rewrite Heq].
    - intros e sub [He _]%Hfin. rewrite arrayAt_insert by done.
      destruct (decide _) as [Heq|]; [|by apply Hf].
      intros Hs%Hl'. apply (Hf e); [done|by rewrite Heq].
    - intros e [He _]%Hfin. rewrite arrayAt_insert by done.
      destruct (decide _) as [Heq|]; [|by apply Hi].
      eapply sublist_NoDup; [exact (Hi (ev, r) Hin)|].
      apply fmap_sublist, sublist_delete.
    - intros e1 e2 s1 s2 [He1 _]%Hfin [He2 _]%Hfin.
      rewrite !arrayAt_insert by done.
      destruct (decide (e1.2 = r)) as [Heq1|Hne1];
        destruct (decide (e2.2 = r)) as [Heq2|Hne2].
      + intros _ _ _. by rewrite (Hrefs e1 He1 Heq1), (Hrefs e2 He2 Heq2).
      + intros Hs1%Hl' Hs2. apply Hap; try done. by rewrite Heq1.
      + intros Hs1 Hs2%Hl'. apply Hap; try done. by rewrite Heq2.
      + by apply Hap. }
  assert (Hfilter : List.filter (λ e, negb (Nat.eqb e.2 r && Nat.eqb (length l') 0)) subs
                    = if Nat.eqb (length l') 0 then Map_delete ev subs else subs).
  { destruct (Nat.eqb (length l') 0).
    - clear Hmid Hl' l'. revert Hin Hk Hrefs. clear.
      induction subs as [|[ev' r'] subs IH]; intros Hin Hk Hrefs; simpl.
      + by apply elem_of_nil in Hin.
      + rewrite fmap_cons in Hk. apply NoDup_cons in Hk as [Hev' Hk].
        rewrite andb_true_r.
        destruct (String.eqb_spec ev ev') as [<-|Hne].
        * assert (r' = r) as ->.
          { assert (H := Hrefs (ev, r') ltac:(left)). simpl in H.
            apply elem_of_cons in Hin as [[= <-]|Hin]; [done|].
            destruct Hev'. apply list_elem_of_fmap. by exists (ev, r). }
          rewrite Nat.eqb_refl. simpl.
          clear IH Hin. induction subs as [|[ev2 r2] subs IH]; [done|]. simpl.
          rewrite andb_true_r.
          destruct (Nat.eqb_spec r2 r) as [->|Hne2].
          { assert (H := Hrefs (ev2, r) ltac:(right; left) eq_refl).
            simplify_eq. destruct Hev'. left. }
          simpl. f_equal. apply IH.
          -- intros Hin. apply Hev'. by right.
          -- rewrite fmap_cons in Hk. by apply NoDup_cons in Hk as [_ Hk].
          -- intros e He. apply Hrefs. apply elem_of_cons in He as [->|He];
               [left|right; by right].
        * apply elem_of_cons in Hin as [[= <- <-]|Hin]; [done|].
          destruct (Nat.eqb_spec r' r) as [->|Hne'].
          { assert (H := Hrefs (ev', r) ltac:(left) eq_refl). by simplify_eq. }
          simpl. f_equal. apply IH; [done|done|].
          intros e He. apply Hrefs. by right.
    - clear. induction subs as [|e subs IH]; [done|]. simpl.
      rewrite andb_false_r. simpl. by f_equal. }
  by rewrite <- Hfilter.
Qed.

Lemma wellFormed_same (b b' : Bus) :
  arrays b' = arrays b → subscriptions b' = subscriptions b →
  nextId b' = nextId b → wellFormed b → wellFormed b'.
Proof. unfold wellFormed. by intros -> -> ->. Qed.

Lemma wellFormed_log (m : Log) (b : Bus) : wellFormed b → wellFormed (log m b).
Proof. unfold log. by destruct (debug b). Qed.

(** What [addSubscription] does to the parts of the bus. *)
Lemma addSubscription_parts (ev : string) (h : nat) (o : bool) (b : Bus) :
  let sub := mkSub (nextId b) ev h o in
  let b' := (addSubscription ev h o b).2 in
  (addSubscription ev h o b).1 = nextId b
  ∧ nextId b' = S (nextId b)
  ∧ calls b' = calls b
  ∧ match Map_get ev (subscriptions b) with
    | Some r =>
        subscriptions b' = subscriptions b
        ∧ arrays b' = <[r := array b r ++ [sub]]> (arrays b)
    | None =>
        subscriptions b' = subscriptions b ++ [(ev, length (arrays b))]
        ∧ arrays b' = arrays b ++ [[sub]]
    end.
Proof.
  unfold addSubscription. simpl.
  destruct (Map_get ev (subscriptions b)) as [r|] eqn:Hget; simpl;
    rewrite ?calls_log, ?subscriptions_log; unfold log; simpl;
    destruct (debug b); simpl; repeat split; try done;
    try (by apply Map_set_absent);
    unfold array; simpl;
    rewrite lookup_app_r, Nat.sub_diag by done; simpl;
    by rewrite (insert_app_r_alt _ _ (length (arrays b))), Nat.sub_diag by done.
Qed.

Lemma addSubscription_wellFormed (ev : string) (h : nat) (o : bool) (b : Bus) :
  wellFormed b → wellFormed (addSubscription ev h o b).2.
Proof.
  intros Hwf. unfold wellFormed.
  destruct (addSubscription_parts ev h o b) as (_ & -> & _ & Hparts).
  destruct (Map_get ev (subscriptions b)) as [r|] eqn:Hget;
    destruct Hparts as [-> ->].
  - apply busInvariant_push; [done|]. by apply Map_get_Some.
  - by apply busInvariant_new.
Qed.

Lemma off_entries_wellFormed (entries : list (string * nat)) (sid : nat) (b : Bus) :
  wellFormed b → (∀ e, e ∈ entries → e ∈ subscriptions b) →
  wellFormed (off_entries entries sid b).
Proof.
  intros Hwf. induction entries as [|[ev r] entries IH]; intros Hsub; [done|].
  cbn [off_entries].
  destruct (findIndex _ _) as [index|];
    [|apply IH; intros; apply Hsub; by right].
  assert (Hin : (ev, r) ∈ subscriptions b) by (apply Hsub; left).
  pose proof (inv_alloc _ _ _ Hwf _ Hin) as Hlt. simpl in Hlt.
  assert (Harr : ∀ m, array (log m (set_array r (delete index (array b r)) b)) r
                      = delete index (array b r)).
  { intros m. rewrite array_log. unfold array, set_array. simpl.
    by rewrite list_lookup_insert_eq. }
  rewrite Harr.
  pose proof (busInvariant_remove _ _ _ ev r index Hwf Hin) as Hrem.
  unfold wellFormed.
  destruct (Nat.eqb _ 0); unfold log; simpl; destruct (debug b); simpl;
    exact Hrem.
Qed.

Lemma off_wellFormed (sid : nat) (b : Bus) : wellFormed b → wellFormed (off sid b).
Proof. intros Hwf. by apply off_entries_wellFormed. Qed.

Lemma clear_wellFormed (ev : string) (b : Bus) : wellFormed b → wellFormed (clear ev b).
Proof.
  intros Hwf. unfold clear. apply wellFormed_log. unfold wellFormed. simpl.
  eapply busInvariant_sublist; [exact Hwf|apply Map_delete_sublist].
Qed.

Lemma clearAll_wellFormed (b : Bus) : wellFormed (clearAll b).
Proof.
  unfold clearAll. apply wellFormed_log. unfold wellFormed. simpl.
  apply busInvariant_empty.
Qed.

Section HandlersKeepInvariant.
Variable code : nat → Value → Prog.

Lemma run_wellFormed
    (emit_rec : string → Value → Bus → option (option Exn * Bus)) (p : Prog) :
  (∀ ev data b ended b',
     wellFormed b → emit_rec ev data b = Some (ended, b') → wellFormed b') →
  ∀ b ended b', wellFormed b → run emit_rec p b = Some (ended, b') → wellFormed b'.
Proof.
  intros Hrec. induction p as [|error|ev h k IH|ev h k IH|sid k IH|ev data k IH
                               |ev k IH|k IH|ev k IH|ev k IH];
    intros b ended b' Hwf Hrun; cbn [run] in Hrun.
  - by simplify_eq.
  - by simplify_eq.
  - unfold on in Hrun.
    destruct (addSubscription ev h false b) as [i b1] eqn:Hadd.
    eapply IH; [|exact Hrun].
    change b1 with (i, b1).2. rewrite <- Hadd. by apply addSubscription_wellFormed.
  - unfold once_ in Hrun.
    destruct (addSubscription ev h true b) as [i b1] eqn:Hadd.
    eapply IH; [|exact Hrun].
    change b1 with (i, b1).2. rewrite <- Hadd. by apply addSubscription_wellFormed.
  - eapply IH; [|exact Hrun]. by apply off_wellFormed.
  - destruct (emit_rec ev data b) as [[[error|] b1]|] eqn:Hemit; [| |done].
    + simplify_eq. by eapply Hrec.
    + eapply IH; [|exact Hrun]. by eapply Hrec.
  - eapply IH; [|exact Hrun]. by apply clear_wellFormed.
  - eapply IH; [|exact Hrun]. apply clearAll_wellFormed.
  - eapply IH; [|exact Hrun]. done.
  - eapply IH; [|exact Hrun]. done.
Qed.

Lemma deliver_wellFormed
    (emit_rec : string → Value → Bus → option (option Exn * Bus)) :
  (∀ ev data b ended b',
     wellFormed b → emit_rec ev data b = Some (ended, b') → wellFormed b') →
  ∀ n subs index ev data toRemove b ended toRemove' b',
    wellFormed b →
    deliver code emit_rec n subs index ev data toRemove b
    = Some (ended, toRemove', b') →
    wellFormed b'.
Proof.
  intros Hrec n. induction n as [|n IH];
    intros subs index ev data toRemove b ended toRemove' b' Hwf Hdel; [done|].
  cbn [deliver] in Hdel.
  destruct (array b subs !! index) as [sub|]; [|by simplify_eq].
  destruct (run emit_rec (code (handler sub) data) (record_call sub data b))
    as [[[error|] b1]|] eqn:Hrun; [| |done].
  - assert (wellFormed b1)
      by (eapply run_wellFormed; [exact Hrec| |exact Hrun]; done).
    destruct (interpolate error) as [text|raised]; [|by simplify_eq].
    eapply IH; [|exact Hdel]. done.
  - eapply IH; [|exact Hdel]. eapply run_wellFormed; [exact Hrec| |exact Hrun]. done.
Qed.

Lemma foldl_off_wellFormed (toRemove : list nat) (b : Bus) :
  wellFormed b → wellFormed (foldl (λ b i, off i b) b toRemove).
Proof.
  revert b. induction toRemove as [|i l IH]; intros b Hwf; [done|].
  simpl. by apply IH, off_wellFormed.
Qed.

Lemma emit_wellFormed (fuel : nat) (ev : string) (data : Value) (b : Bus)
    (ended : option Exn) (b' : Bus) :
  wellFormed b → emit code fuel ev data b = Some (ended, b') → wellFormed b'.
Proof.
  revert ev data b ended b'. induction fuel as [|fuel IH];
    intros ev data b ended b' Hwf Hemit; [done|].
  cbn [emit] in Hemit.
  destruct (Map_get ev (subscriptions b)) as [r|];
    [|simplify_eq; by apply wellFormed_log].
  destruct (Nat.eqb _ 0); [simplify_eq; by apply wellFormed_log|].
  destruct (deliver _ _ _ _ _ _ _ _ _) as [[[[error|] toRemove] b1]|] eqn:Hdel;
    [| |done].
  - simplify_eq.
    eapply deliver_wellFormed; [exact IH| |exact Hdel]. by apply wellFormed_log.
  - simplify_eq. apply foldl_off_wellFormed.
    eapply deliver_wellFormed; [exact IH| |exact Hdel]. by apply wellFormed_log.
Qed.
End HandlersKeepInvariant.

(** X1.  The bus keeps its invariant: the bus [createEventBus] returns has
    it, and [on], [once], [off], [clear], [clearAll] and [emit], whatever the
    handlers do through the bus while they run and whether [emit] returns or
    throws, lead from a bus that has it to one that has it.  So in every bus the operations can reach, live
    subscription ids are pairwise distinct and below [nextId], every event in
    the map has its own, non-empty array, and each subscription sits under
    the event it names. *)
Theorem bus_operations_keep_invariant (code : nat → Value → Prog) :
  (∀ debug, wellFormed (createEventBus debug))
  ∧ (∀ ev h b, wellFormed b → wellFormed (on ev h b).2)
  ∧ (∀ ev h b, wellFormed b → wellFormed (once_ ev h b).2)
  ∧ (∀ sid b, wellFormed b → wellFormed (off sid b))
  ∧ (∀ ev b, wellFormed b → wellFormed (clear ev b))
  ∧ (∀ b, wellFormed (clearAll b))
  ∧ (∀ fuel ev data b ended b',
       wellFormed b → emit code fuel ev data b = Some (ended, b') →
       wellFormed b').
Proof.
  split; [intros; apply busInvariant_empty|].
  split; [intros; by apply addSubscription_wellFormed|].
  split; [intros; by apply addSubscription_wellFormed|].
  split; [intros; by apply off_wellFormed|].
  split; [intros; by apply clear_wellFormed|].
  split; [intros; apply clearAll_wellFormed|].
  intros. by eapply emit_wellFormed.
Qed.

(** ** Subscribing and unsubscribing *)

Lemma Map_get_app {A : Type} (k k' : string) (v : A) (m : list (string * A)) :
  Map_get k (m ++ [(k', v)])
  = match Map_get k m with
    | Some x => Some x
    | None => if String.eqb k k' then Some v else None
    end.
Proof.
  unfold Map_get. induction m as [|[k1 v1] m IH]; simpl; [done|].
  by destruct (String.eqb k k1).
Qed.

Lemma subscribers_elem (b : Bus) (ev : string) (sub : Subscription) :
  sub ∈ subscribers b ev →
  ∃ r, (ev, r) ∈ subscriptions b ∧ sub ∈ array b r.
Proof.
  unfold subscribers. destruct (Map_get ev (subscriptions b)) as [r|] eqn:Hget.
  - intros Hsub. exists r. split; [by apply Map_get_Some|done].
  - intros H. by apply elem_of_nil in H.
Qed.

Lemma subscribers_entry (b : Bus) (ev : string) (r : nat) :
  wellFormed b → (ev, r) ∈ subscriptions b → subscribers b ev = array b r.
Proof.
  intros Hwf Hin. unfold subscribers.
  by rewrite (Map_get_elem ev r _ (inv_keys _ _ _ Hwf) Hin).
Qed.

Lemma wellFormed_other_ref (b : Bus) (ev ev' : string) (r r' : nat) :
  wellFormed b → (ev, r) ∈ subscriptions b → (ev', r') ∈ subscriptions b →
  ev' ≠ ev → r' ≠ r.
Proof.
  intros Hwf Hin Hin' Hne ->. apply Hne.
  pose proof (NoDup_fmap_eq snd _ (ev', r) (ev, r) (inv_refs _ _ _ Hwf) Hin' Hin eq_refl).
  by simplify_eq.
Qed.

(** What [addSubscription] does to the live subscriptions. *)
Lemma addSubscription_live (ev : string) (h : nat) (o : bool) (b : Bus) :
  wellFormed b →
  let i := (addSubscription ev h o b).1 in
  let b' := (addSubscription ev h o b).2 in
  i = nextId b
  ∧ (∀ ev' sub, sub ∈ subscribers b ev' → id sub ≠ i)
  ∧ subscribers b' ev = subscribers b ev ++ [mkSub i ev h o]
  ∧ subscriberCount ev b' = S (subscriberCount ev b)
  ∧ (∀ ev', ev' ≠ ev → subscribers b' ev' = subscribers b ev').
Proof.
  intros Hwf i b'.
  destruct (addSubscription_parts ev h o b) as (Hi & Hnext & _ & Hparts).
  fold i in Hi. fold b' in Hnext, Hparts.
  assert (Hfresh : ∀ ev' sub, sub ∈ subscribers b ev' → id sub ≠ i).
  { intros ev' sub (r & Hin & Hsub)%subscribers_elem.
    pose proof (inv_fresh _ _ _ Hwf _ _ Hin Hsub). lia. }
  assert (Hmain : subscribers b' ev = subscribers b ev ++ [mkSub i ev h o]
                  ∧ ∀ ev', ev' ≠ ev → subscribers b' ev' = subscribers b ev').
  { rewrite Hi. unfold subscribers.
    destruct (Map_get ev (subscriptions b)) as [r|] eqn:Hget;
      destruct Hparts as [Hsubs Harrs]; rewrite Hsubs.
    - apply Map_get_Some in Hget as Hin.
      pose proof (inv_alloc _ _ _ Hwf _ Hin) as Hlt. simpl in Hlt.
      rewrite Hget. unfold array at 1. rewrite Harrs.
      split; [by rewrite list_lookup_insert_eq|].
      intros ev' Hne. destruct (Map_get ev' (subscriptions b)) as [r'|] eqn:Hget';
        [|done].
      unfold array. rewrite Harrs, list_lookup_insert_ne; [done|].
      apply Map_get_Some in Hget'.
      intros <-. by apply (wellFormed_other_ref b ev ev' r r).
    - rewrite Map_get_app, Hget, String.eqb_refl. unfold array at 1. rewrite Harrs.
      split; [by rewrite lookup_app_r, Nat.sub_diag by done|].
      intros ev' Hne. rewrite Map_get_app.
      destruct (Map_get ev' (subscriptions b)) as [r'|] eqn:Hget'.
      + apply Map_get_Some in Hget'.
        pose proof (inv_alloc _ _ _ Hwf _ Hget') as Hlt. simpl in Hlt.
        unfold array. by rewrite Harrs, lookup_app_l.
      + by destruct (String.eqb_spec ev' ev). }
  destruct Hmain as [Hev Hother].
  split; [done|]. split; [done|]. split; [done|]. split; [|done].
  assert (Hcount : ∀ b0, subscriberCount ev b0 = length (subscribers b0 ev)).
  { intros b0. unfold subscriberCount, subscribers.
    by destruct (Map_get ev (subscriptions b0)). }
  rewrite !Hcount, Hev, length_app. simpl. lia.
Qed.

(** X2.  On a bus that has the invariant, [addSubscription] (that is, [on]
    and [once]) hands out [nextId], an id no live subscription has, appends
    the new subscription at the end of its event's subscribers, and leaves
    the subscribers of every other event as they are. *)
Theorem addSubscription_appends (ev : string) (h : nat) (o : bool) (b : Bus) :
  wellFormed b →
  let i := (addSubscription ev h o b).1 in
  let b' := (addSubscription ev h o b).2 in
  i = nextId b
  ∧ (∀ ev' sub, sub ∈ subscribers b ev' → id sub ≠ i)
  ∧ subscribers b' ev = subscribers b ev ++ [mkSub i ev h o]
  ∧ subscriberCount ev b' = S (subscriberCount ev b)
  ∧ (∀ ev', ev' ≠ ev → subscribers b' ev' = subscribers b ev').
Proof. apply addSubscription_live. Qed.

Lemma addSubscription_appends_witness :
  let i := (addSubscription "x" 1 false quietBus).1 in
  let b' := (addSubscription "x" 1 false quietBus).2 in
  i = nextId quietBus
  ∧ (∀ ev' sub, sub ∈ subscribers quietBus ev' → id sub ≠ i)
  ∧ subscribers b' "x" = subscribers quietBus "x" ++ [mkSub i "x" 1 false]
  ∧ subscriberCount "x" b' = S (subscriberCount "x" quietBus)
  ∧ (∀ ev', ev' ≠ "x" → subscribers b' ev' = subscribers quietBus ev').
Proof.
  apply (addSubscription_appends "x" 1 false quietBus).
  apply addSubscription_wellFormed, addSubscription_wellFormed, busInvariant_empty.
Defined.

Lemma findIndex_None {A : Type} (p : A → bool) (l : list A) :
  (∀ x, x ∈ l → p x = false) → findIndex p l = None.
Proof.
  induction l as [|x l IH]; intros Hp; simpl; [done|].
  rewrite (Hp x) by left. rewrite IH; [done|]. intros; apply Hp; by right.
Qed.

(** With distinct ids, splicing at the index [findIndex] finds for an id
    removes the one subscription with that id. *)
Lemma findIndex_delete (k : nat) (l : list Subscription) (sub : Subscription) :
  NoDup (id <$> l) → sub ∈ l → id sub = k →
  ∃ index,
    findIndex (λ s, Nat.eqb (id s) k) l = Some index
    ∧ delete index l = List.filter (λ s, negb (Nat.eqb (id s) k)) l.
Proof.
  induction l as [|x l IH]; intros Hnd Hin Hk; [by apply elem_of_nil in Hin|].
  rewrite fmap_cons in Hnd. apply NoDup_cons in Hnd as [Hx Hnd]. simpl.
  destruct (Nat.eqb_spec (id x) k) as [Heq|Hne].
  - exists 0. split; [done|]. simpl.
    clear IH Hin. induction l as [|y l IH]; [done|]. simpl.
    rewrite fmap_cons in Hx, Hnd. apply not_elem_of_cons in Hx as [Hxy Hx].
    apply NoDup_cons in Hnd as [_ Hnd].
    destruct (Nat.eqb_spec (id y) k); [lia|]. simpl. f_equal. by apply IH.
  - apply elem_of_cons in Hin as [->|Hin]; [done|].
    destruct (IH Hnd Hin Hk) as (index & -> & Hdel).
    exists (S index). split; [done|]. simpl. by rewrite Hdel.
Qed.

Lemma off_entries_skip (pre rest : list (string * nat)) (sid : nat) (b : Bus) :
  (∀ e sub, e ∈ pre → sub ∈ array b e.2 → id sub ≠ sid) →
  off_entries (pre ++ rest) sid b = off_entries rest sid b.
Proof.
  induction pre as [|[ev r] pre IH]; intros Hpre; [done|].
  cbn [app off_entries]. rewrite findIndex_None.
  - apply IH. intros e sub He. apply Hpre. by right.
  - intros sub Hsub. apply Nat.eqb_neq. by apply (Hpre (ev, r)); [left|].
Qed.

(** [off] with the id of a live subscription takes exactly that subscription
    out of its event's subscribers. *)
Lemma off_live (b : Bus) (ev : string) (sub : Subscription) :
  wellFormed b → sub ∈ subscribers b ev →
  ∀ ev',
    subscribers (off (id sub) b) ev'
    = if decide (ev' = ev)
      then List.filter (λ s, negb (Nat.eqb (id s) (id sub))) (subscribers b ev)
      else subscribers b ev'.
Proof.
  intros Hwf Hsub ev'.
  destruct (subscribers_elem b ev sub Hsub) as (r & Hin & Hsubr).
  pose proof (subscribers_entry b ev r Hwf Hin) as Hev.
  pose proof (inv_keys _ _ _ Hwf) as Hkeys.
  pose proof (inv_alloc _ _ _ Hwf _ Hin) as Hlt. simpl in Hlt.
  destruct (list_elem_of_split _ _ Hin) as (pre & post & Hsplit).
  assert (Hpre : ∀ e s, e ∈ pre → s ∈ array b e.2 → id s ≠ id sub).
  { intros e s He Hs Hid.
    assert (e ∈ subscriptions b) as He' by (rewrite Hsplit, elem_of_app; by left).
    pose proof (inv_apart _ _ _ Hwf e (ev, r) s sub He' Hin Hs Hsubr Hid) as ->.
    rewrite Hsplit in Hkeys. rewrite fmap_app, fmap_cons in Hkeys.
    apply NoDup_app in Hkeys as (_ & Hdisj & _).
    apply (Hdisj ev); [|left]. apply list_elem_of_fmap. by exists (ev, r). }
  destruct (findIndex_delete (id sub) (array b r) sub
              (inv_ids _ _ _ Hwf _ Hin) Hsubr eq_refl) as (index & Hfind & Hdel).
  unfold off. rewrite Hsplit at 1. rewrite (off_entries_skip _ _ _ _ Hpre).
  cbn [off_entries]. rewrite Hfind.
  assert (Harr : ∀ m, array (log m (set_array r (delete index (array b r)) b)) r
                      = delete index (array b r)).
  { intros m. rewrite array_log. unfold array, set_array. simpl.
    by rewrite list_lookup_insert_eq. }
  rewrite Harr, Hev, <- Hdel.
  assert (Hother : ∀ r' m, r' ≠ r →
            array (log m (set_array r (delete index (array b r)) b)) r'
            = array b r').
  { intros r' m Hne. rewrite array_log. unfold array, set_array. simpl.
    by rewrite list_lookup_insert_ne. }
  unfold subscribers.
  destruct (Nat.eqb_spec (length (delete index (array b r))) 0) as [Hlen|Hlen].
  - simpl. rewrite subscriptions_log. simpl. rewrite Map_get_delete by done.
    destruct (decide (ev' = ev)) as [->|Hne]; [by apply nil_length_inv in Hlen|].
    destruct (Map_get ev' (subscriptions b)) as [r'|] eqn:Hget'; [|done].
    apply Map_get_Some in Hget'.
    change (array (set_subscriptions ?m ?x) r') with (array x r').
    apply Hother. by apply (wellFormed_other_ref b ev ev' r r').
  - rewrite subscriptions_log. simpl.
    destruct (decide (ev' = ev)) as [->|Hne].
    + rewrite (Map_get_elem ev r _ Hkeys Hin). apply Harr.
    + destruct (Map_get ev' (subscriptions b)) as [r'|] eqn:Hget'; [|done].
      apply Map_get_Some in Hget'. apply Hother.
      by apply (wellFormed_other_ref b ev ev' r r').
Qed.

(** X3.  Unsubscribing right after subscribing undoes it: on a bus that has
    the invariant, [off] with the id [on] or [once] just returned leaves
    every event with the subscribers it had before. *)
Theorem off_undoes_addSubscription (ev : string) (h : nat) (o : bool) (b : Bus) :
  wellFormed b →
  ∀ ev',
    subscribers (off (addSubscription ev h o b).1 (addSubscription ev h o b).2) ev'
    = subscribers b ev'.
Proof.
  intros Hwf ev'.
  destruct (addSubscription_live ev h o b Hwf) as (Hi & Hfresh & Hev & _ & Hother).
  set (i := (addSubscription ev h o b).1) in *.
  set (b' := (addSubscription ev h o b).2) in *.
  assert (Hwf' : wellFormed b') by by apply addSubscription_wellFormed.
  assert (Hsub : mkSub i ev h o ∈ subscribers b' ev)
    by (rewrite Hev, elem_of_app; right; left).
  pose proof (off_live b' ev (mkSub i ev h o) Hwf' Hsub ev') as Hoff.
  simpl in Hoff. rewrite Hoff.
  destruct (decide (ev' = ev)) as [->|Hne]; [|by apply Hother].
  rewrite Hev, List.filter_app. simpl. rewrite Nat.eqb_refl. simpl.
  rewrite app_nil_r.
  assert (Hall : ∀ l : list Subscription,
            (∀ sub, sub ∈ l → id sub ≠ i) →
            List.filter (λ s, negb (Nat.eqb (id s) i)) l = l).
  { induction l as [|x l IH]; intros Hl; [done|]. simpl.
    destruct (Nat.eqb_spec (id x) i) as [Heq|_]; [by destruct (Hl x ltac:(left))|].
    simpl. f_equal. apply IH. intros; apply Hl; by right. }
  apply Hall. intros sub Hs. by apply (Hfresh ev).
Qed.

Lemma off_undoes_addSubscription_witness :
  subscribers (off (addSubscription "x" 1 true quietBus).1
                   (addSubscription "x" 1 true quietBus).2) "x"
  = subscribers quietBus "x".
Proof.
  apply (off_undoes_addSubscription "x" 1 true quietBus).
  apply addSubscription_wellFormed, addSubscription_wellFormed, busInvariant_empty.
Defined.

(** X4.  [off] with an id no live subscription has changes nothing: not the
    map, not an array, not the id counter, and it logs nothing. *)
Theorem off_unknown_id (sid : nat) (b : Bus) :
  (∀ ev sub, sub ∈ subscribers b ev → id sub ≠ sid) →
  NoDup (subscriptions b).*1 →
  off sid b = b.
Proof.
  intros Hnone Hkeys. unfold off.
  rewrite <- (app_nil_r (subscriptions b)) at 1.
  rewrite off_entries_skip; [done|].
  intros [ev r] sub He Hsub. apply (Hnone ev). unfold subscribers.
  by rewrite (Map_get_elem ev r _ Hkeys He).
Qed.

Lemma off_unknown_id_witness : off 7 quietBus = quietBus.
Proof.
  apply (off_unknown_id 7 quietBus).
  - intros ev sub Hsub.
    destruct (String.eqb_spec ev "x") as [->|Hne].
    + change (subscribers quietBus "x")
        with [mkSub 1 "x" 3 false; mkSub 2 "x" 1 false] in Hsub.
      apply elem_of_cons in Hsub as [->|Hsub]; [done|].
      apply elem_of_cons in Hsub as [->|Hsub]; [done|].
      by apply elem_of_nil in Hsub.
    + unfold subscribers, Map_get in Hsub. simpl in Hsub.
      destruct (String.eqb_spec ev "x"); [done|]. by apply elem_of_nil in Hsub.
  - by apply (bool_decide_unpack _).
Defined.

(** X5.  [clear] leaves the event without subscribers and every other
    event with the ones it had. *)
Theorem clear_removes_event (ev : string) (b : Bus) :
  NoDup (subscriptions b).*1 →
  ∀ ev',
    subscribers (clear ev b) ev'
    = if decide (ev' = ev) then [] else subscribers b ev'.
Proof.
  intros Hkeys ev'. unfold clear, subscribers.
  rewrite subscriptions_log. simpl. rewrite Map_get_delete by done.
  destruct (decide (ev' = ev)); [done|].
  destruct (Map_get ev' (subscriptions b)); [|done].
  by rewrite array_log.
Qed.

Lemma clear_removes_event_witness :
  subscribers (clear "x" quietBus) "x"
  = if decide ("x" = "x") then [] else subscribers quietBus "x".
Proof.
  apply (clear_removes_event "x" quietBus). by apply (bool_decide_unpack _).
Defined.

(** X6.  After [clearAll] no event has a subscriber, an [emit] calls no
    handler, and id allocation starts over: the next subscription gets id 1,
    whatever ids were handed out before. *)
Theorem clearAll_resets (code : nat → Value → Prog) (b : Bus) :
  (∀ ev, subscribers (clearAll b) ev = [])
  ∧ (∀ fuel ev data,
       ∃ b', emit code (S fuel) ev data (clearAll b) = Some (None, b')
             ∧ calls b' = calls b)
  ∧ (∀ ev h, (on ev h (clearAll b)).1 = 1)
  ∧ (∀ ev h, (once_ ev h (clearAll b)).1 = 1).
Proof.
  assert (Hsubs : subscriptions (clearAll b) = []).
  { unfold clearAll. by rewrite subscriptions_log. }
  assert (Hcalls : calls (clearAll b) = calls b).
  { unfold clearAll. by rewrite calls_log. }
  assert (Hnext : nextId (clearAll b) = 1).
  { unfold clearAll, log. simpl. by destruct (debug b). }
  split; [|split; [|split]].
  - intros ev. unfold subscribers. by rewrite Hsubs.
  - intros fuel ev data. cbn [emit]. rewrite Hsubs. simpl.
    eexists. split; [done|]. by rewrite calls_log.
  - intros ev h. unfold on.
    by destruct (addSubscription_parts ev h false (clearAll b)) as (-> & _).
  - intros ev h. unfold once_.
    by destruct (addSubscription_parts ev h true (clearAll b)) as (-> & _).
Qed.

(** ** Removal of [once] subscriptions *)

(** A handler call that ended in a return. *)
Definition isReturn (ended : option Exn) : bool :=
  match ended with
  | None => true
  | Some _ => false
  end.

Lemma deliver_inert (code : nat → Value → Prog)
    (emit_rec : string → Value → Bus → option (option Exn * Bus)) (r : nat)
    (subs : list Subscription) (ev : string) (data : Value)
    (ends : Subscription → option Exn) :
  (∀ sub, sub ∈ subs →
          ∀ b, run emit_rec (code (handler sub) data) b = Some (ends sub, b)) →
  (∀ sub error, sub ∈ subs → ends sub = Some error →
                ∃ text, interpolate error = inl text) →
  ∀ (n index : nat) (toRemove : list nat) (b : Bus),
    array b r = subs →
    length subs - index < n →
    ∃ b',
      deliver code emit_rec n r index ev data toRemove b
      = Some (None,
              toRemove
              ++ (id <$> List.filter (λ s, once s && isReturn (ends s))
                                     (drop index subs)),
              b')
      ∧ arrays b' = arrays b ∧ subscriptions b' = subscriptions b
      ∧ nextId b' = nextId b
      ∧ calls b' = calls b ++ ((λ sub, (sub, data)) <$> drop index subs).
Proof.
  intros Hinert Hrender n.
  induction n as [|n IH]; intros index toRemove b Harr Hn; [lia|].
  cbn [deliver]. rewrite Harr.
  destruct (subs !! index) as [sub|] eqn:Hsub.
  - assert (Hin : sub ∈ subs) by (by eapply list_elem_of_lookup_2).
    rewrite (Hinert sub Hin). pose proof (lookup_lt_Some _ _ _ Hsub).
    rewrite (drop_S _ _ _ Hsub), fmap_cons. cbn [List.filter].
    destruct (ends sub) as [error|] eqn:Hends; cbn [isReturn].
    + destruct (Hrender sub error Hin Hends) as (text & ->).
      destruct (IH (S index) toRemove
                  (Msg (LogHandlerError ev text) (record_call sub data b)) Harr)
        as (b' & Hdel & Ha & Hs & Hn' & Hc); [lia|].
      rewrite Hdel. exists b'. rewrite Ha, Hs, Hn', Hc. simpl.
      rewrite <- !app_assoc. split; [|done].
      by rewrite andb_false_r.
    + destruct (IH (S index)
                  (if once sub then toRemove ++ [id sub] else toRemove)
                  (record_call sub data b) Harr)
        as (b' & Hdel & Ha & Hs & Hn' & Hc); [lia|].
      rewrite Hdel. exists b'. rewrite Ha, Hs, Hn', Hc. simpl.
      rewrite <- !app_assoc. split; [|done].
      rewrite andb_true_r. destruct (once sub); simpl; by rewrite <- ?app_assoc.
  - exists b. apply lookup_ge_None in Hsub. rewrite drop_ge by done.
    simpl. by rewrite !app_nil_r.
Qed.

Lemma filter_all {A : Type} (f : A → bool) (l : list A) :
  (∀ x, x ∈ l → f x = true) → List.filter f l = l.
Proof.
  induction l as [|x l IH]; intros Hf; [done|]. cbn [List.filter].
  rewrite (Hf x) by left. f_equal. apply IH. intros; apply Hf; by right.
Qed.

Lemma filter_filter_ext {A : Type} (f g h : A → bool) (l : list A) :
  (∀ x, x ∈ l → h x = g x && f x) →
  List.filter f (List.filter g l) = List.filter h l.
Proof.
  induction l as [|x l IH]; intros Hh; [done|]. cbn [List.filter].
  rewrite (Hh x) by left.
  assert (IH' : List.filter f (List.filter g l) = List.filter h l)
    by (apply IH; intros; apply Hh; by right).
  destruct (g x); cbn [List.filter andb]; [|done].
  destruct (f x); by rewrite IH'.
Qed.

Lemma foldl_off_live (ev : string) (rm : list Subscription) (b : Bus) :
  wellFormed b → (∀ s, s ∈ rm → s ∈ subscribers b ev) → NoDup (id <$> rm) →
  ∀ ev',
    subscribers (foldl (λ b i, off i b) b (id <$> rm)) ev'
    = if decide (ev' = ev)
      then List.filter (λ s, negb (bool_decide (id s ∈ id <$> rm)))
                       (subscribers b ev)
      else subscribers b ev'.
Proof.
  revert b. induction rm as [|s0 rm IH]; intros b Hwf Hin Hnd ev'.
  - cbn [fmap list_fmap foldl]. destruct (decide _) as [->|]; [|done].
    symmetry. apply filter_all. intros x _.
    apply negb_true_iff, bool_decide_eq_false_2, not_elem_of_nil.
  - rewrite fmap_cons in Hnd. apply NoDup_cons in Hnd as [Hs0 Hnd].
    rewrite fmap_cons. cbn [foldl].
    assert (Hs0in : s0 ∈ subscribers b ev) by (apply Hin; left).
    pose proof (off_live b ev s0 Hwf Hs0in) as Hoff.
    rewrite IH; [|by apply off_wellFormed| |done].
    + rewrite (Hoff ev'). destruct (decide (ev' = ev)) as [->|Hne]; [|done].
      rewrite (Hoff ev), decide_True by done.
      apply filter_filter_ext. intros x _.
      destruct (Nat.eqb_spec (id x) (id s0)) as [Heq|Hne]; cbn [negb andb].
      * apply negb_false_iff, bool_decide_eq_true_2. rewrite Heq. left.
      * f_equal. apply bool_decide_ext. rewrite elem_of_cons. naive_solver.
    + intros s Hs. rewrite (Hoff ev), decide_True by done.
      apply list_elem_of_In, filter_In. split.
      * apply list_elem_of_In, Hin. by right.
      * apply negb_true_iff, Nat.eqb_neq. intros Heq. apply Hs0.
        rewrite <- Heq. apply list_elem_of_fmap. by exists s.
Qed.

(** X7.  On a bus that has the invariant, when the handlers subscribed to
    an event do not touch the bus and throw nothing but values the log line
    of the [catch] can render, one [emit] returns after calling each of them
    once, in subscription order, and afterwards the event's subscribers are
    the ones it had minus the [once] subscriptions whose handler returned: a
    persistent subscription stays, a [once] subscription whose handler threw
    stays too, and no other event is affected. *)
Theorem emit_removes_once_subscriptions (code : nat → Value → Prog)
    (fuel : nat) (ev : string) (data : Value) (b : Bus)
    (ends : Subscription → option Exn) :
  wellFormed b →
  (∀ sub, sub ∈ subscribers b ev →
          ∀ emit_rec b0,
            run emit_rec (code (handler sub) data) b0 = Some (ends sub, b0)) →
  (∀ sub error, sub ∈ subscribers b ev → ends sub = Some error →
                ∃ text, interpolate error = inl text) →
  (length (subscribers b ev) + 2 ≤ fuel)%nat →
  ∃ b',
    emit code fuel ev data b = Some (None, b')
    ∧ wellFormed b'
    ∧ calls b' = calls b ++ ((λ sub, (sub, data)) <$> subscribers b ev)
    ∧ subscribers b' ev
      = List.filter (λ s, negb (once s && isReturn (ends s))) (subscribers b ev)
    ∧ ∀ ev', ev' ≠ ev → subscribers b' ev' = subscribers b ev'.
Proof.
  intros Hwf Hinert Hrender Hfuel.
  destruct fuel as [|fuel]; [lia|].
  assert (Hsubs : subscribers b ev
                  = match Map_get ev (subscriptions b) with
                    | Some r => array b r
                    | None => []
                    end) by done.
  assert (Hquiet : ∀ b0 ev',
            subscribers (log (LogEmitNone ev) b0) ev' = subscribers b0 ev').
  { intros b0 ev'. unfold subscribers. rewrite subscriptions_log.
    destruct (Map_get ev' (subscriptions b0)); [by rewrite array_log|done]. }
  cbn [emit].
  destruct (Map_get ev (subscriptions b)) as [r|] eqn:Hget.
  2: { eexists. split; [done|]. split; [by apply wellFormed_log|].
       rewrite calls_log, Hquiet, Hsubs. split; [by rewrite app_nil_r|].
       split; [done|]. intros; apply Hquiet. }
  destruct (Nat.eqb_spec (length (array b r)) 0) as [Hlen|Hlen].
  { eexists. split; [done|]. split; [by apply wellFormed_log|].
    apply nil_length_inv in Hlen.
    rewrite calls_log, Hquiet, Hsubs, Hlen. split; [by rewrite app_nil_r|].
    split; [done|]. intros; apply Hquiet. }
  rewrite Hsubs in Hinert, Hrender, Hfuel.
  set (b0 := log (LogEmit ev (length (array b r))) b).
  destruct (deliver_inert code (emit code fuel) r (array b r) ev data ends
              (λ sub Hs, Hinert sub Hs (emit code fuel)) Hrender fuel 0 [] b0)
    as (b1 & Hdel & Ha & Hs & Hn & Hc); [apply array_log|lia|].
  rewrite Hdel. rewrite drop_0 in *. cbn [app].
  set (rm := List.filter (λ s, once s && isReturn (ends s)) (array b r)) in *.
  assert (Hsame : ∀ ev', subscribers b1 ev' = subscribers b ev').
  { intros ev'. unfold subscribers, array. rewrite Hs, Ha.
    unfold b0. rewrite subscriptions_log.
    destruct (Map_get ev' (subscriptions b)) as [r'|]; [|done].
    fold (array (log (LogEmit ev (length (array b r))) b) r').
    by rewrite array_log. }
  assert (Hwf1 : wellFormed b1).
  { unfold wellFormed. rewrite Ha, Hs, Hn. by apply wellFormed_log. }
  pose proof (inv_ids _ _ _ Hwf _ (Map_get_Some _ _ _ Hget)) as Hids.
  simpl in Hids. change (arrayAt (arrays b) r) with (array b r) in Hids.
  assert (Hrm_in : ∀ s, s ∈ rm → s ∈ subscribers b1 ev).
  { intros s Hs'%list_elem_of_In%filter_In. rewrite Hsame, Hsubs.
    apply list_elem_of_In. tauto. }
  assert (Hrm_nd : NoDup (id <$> rm)).
  { eapply sublist_NoDup; [exact Hids|]. apply fmap_sublist.
    unfold rm. clear. induction (array b r) as [|x l IH]; [done|].
    cbn [List.filter].
    destruct (_ && _); [by apply sublist_skip|by apply sublist_cons]. }
  pose proof (foldl_off_live ev rm b1 Hwf1 Hrm_in Hrm_nd) as Hfold.
  eexists. split; [done|].
  split; [by apply foldl_off_wellFormed|].
  split; [rewrite calls_foldl_off, Hc, Hsubs; unfold b0; by rewrite calls_log|].
  split.
  - rewrite (Hfold ev), decide_True, Hsame, Hsubs by done.
    apply filter_ext_in. intros s Hs'. f_equal.
    apply list_elem_of_In in Hs'.
    destruct (once s && isReturn (ends s)) eqn:Hp.
    + apply bool_decide_eq_true_2, list_elem_of_fmap. exists s.
      split; [done|]. apply list_elem_of_In, filter_In.
      split; [by apply list_elem_of_In|done].
    + apply bool_decide_eq_false_2.
      intros (s' & Hid & Hs2%list_elem_of_In%filter_In)%list_elem_of_fmap.
      destruct Hs2 as [Hs2 Hp2]. apply list_elem_of_In in Hs2.
      assert (s = s') by by apply (NoDup_fmap_eq id (array b r)).
      subst s'. congruence.
  - intros ev' Hne. by rewrite (Hfold ev'), decide_False, Hsame by done.
Qed.

(** [once("x", h1); on("x", h5); once("x", h3)]: a [once] handler that
    returns, a persistent one, and a [once] handler that throws. *)
Definition onceBus : Bus :=
  (addSubscription "x" 3 true
     (addSubscription "x" 5 false
        (addSubscription "x" 1 true (createEventBus false)).2).2).2.

Lemma emit_removes_once_subscriptions_witness :
  ∃ b',
    emit exampleCode 5 "x" VNull onceBus = Some (None, b')
    ∧ wellFormed b'
    ∧ calls b' = calls onceBus ++ ((λ sub, (sub, VNull)) <$> subscribers onceBus "x")
    ∧ subscribers b' "x"
      = List.filter
          (λ s, negb (once s
                      && isReturn (if Nat.eqb (handler s) 3
                                   then Some (Error "boom") else None)))
          (subscribers onceBus "x")
    ∧ ∀ ev', ev' ≠ "x" → subscribers b' ev' = subscribers onceBus ev'.
Proof.
  apply (emit_removes_once_subscriptions exampleCode 5 "x" VNull onceBus
           (λ s, if Nat.eqb (handler s) 3 then Some (Error "boom") else None)).
  - unfold onceBus. repeat apply addSubscription_wellFormed. apply busInvariant_empty.
  - intros sub Hsub emit_rec b0.
    change (subscribers onceBus "x")
      with [mkSub 1 "x" 1 true; mkSub 2 "x" 5 false; mkSub 3 "x" 3 true] in Hsub.
    repeat (apply elem_of_cons in Hsub as [->|Hsub]; [reflexivity|]).
    by apply elem_of_nil in Hsub.
  - intros sub error Hsub Hends.
    destruct (Nat.eqb (handler sub) 3); simplify_eq. by eexists.
  - vm_compute. lia.
Defined.

(** ** Outcomes of the safe state operations *)

(** [a] is an empty object in [w'] that was not there in [w]. *)
Definition newEmptyObject (w w' : World) (a : nat) : Prop :=
  heap w !! a = None ∧ heap w' !! a = Some (ORecord [] []).

Lemma alloc_newEmptyObject (w : World) :
  newEmptyObject w
    (mkWorld (heap w ++ [ORecord [] []]) (activePlugins w) (orderedPlugins w)
             (eventBus w) (controllers w))
    (length (heap w)).
Proof.
  split; [by apply lookup_ge_None_2|].
  simpl. by rewrite lookup_app_r, Nat.sub_diag.
Qed.

(** X8.  What [safeGetState] answers, case by case.  With no [getState]
    method it reports a failure that says so.  When [getState] returns an
    object, it reports success with that object; when it returns [null] or
    [undefined], success with a new empty object; when it returns anything
    else, a failure that names the type.  When [getState] throws a value
    that converts to a string, it reports a failure that carries the
    message; when the conversion throws, that exception leaves
    [safeGetState].  The data of every failure is a new empty object. *)
Theorem safeGetState_outcome (p : Plugin) (n : string) (w : World) :
  ∃ r w' t,
    safeGetState p n w = (r, w', t)
    ∧ match getState p with
      | None =>
          ∃ a, r = Ok (mkSafeStateResult false (VObj a)
                         (Some ("Feature '" +:+ n +:+ "' has no getState method")))
               ∧ newEmptyObject w w' a
      | Some (Returns (VObj a)) => r = Ok (mkSafeStateResult true (VObj a) None)
      | Some (Returns (VNull as v)) | Some (Returns (VUndefined as v)) =>
          ∃ a, r = Ok (mkSafeStateResult true (VObj a) None)
               ∧ newEmptyObject w w' a
      | Some (Returns v) =>
          ∃ a, r = Ok (mkSafeStateResult false (VObj a)
                         (Some ("State must be an object, got " +:+ typeOf v)))
               ∧ newEmptyObject w w' a
      | Some (Throws thrown) =>
          match errorMessage thrown with
          | inl errorMsg =>
              ∃ a, r = Ok (mkSafeStateResult false (VObj a) (Some errorMsg))
                   ∧ newEmptyObject w w' a
          | inr raised => r = Thrown raised
          end
      end.
Proof.
  unfold safeGetState, createEmptyState, errorMsgOf, throw.
  destruct (getState p) as [[v|thrown]|].
  - destruct v; unfold_M; eexists _, _, _; (split; [reflexivity|]);
      first [reflexivity
            | eexists; split; [reflexivity|apply alloc_newEmptyObject]].
  - unfold_M. destruct (errorMessage thrown) as [errorMsg|raised];
      eexists _, _, _; (split; [reflexivity|]); [|reflexivity].
    eexists; split; [reflexivity|apply alloc_newEmptyObject].
  - unfold_M. eexists _, _, _. split; [reflexivity|].
    eexists; split; [reflexivity|apply alloc_newEmptyObject].
Qed.


(** X10.  What [safeHotReloadComplete] answers.  It answers [true] when the
    plugin has no [onHotReloadComplete] hook, without calling anything, and
    when the hook returned; [false] exactly when the hook threw a value that
    converts to a string; and when the conversion throws, that exception
    leaves [safeHotReloadComplete]. *)
Theorem safeHotReloadComplete_outcome (p : Plugin) (n : string) (w : World) :
  let r := result_of (safeHotReloadComplete p n) w in
  let t := trace_of (safeHotReloadComplete p n) w in
  (r = Ok true ↔ ∀ thrown, onHotReloadComplete p ≠ Some (Throws thrown))
  ∧ (r = Ok false ↔
     ∃ thrown, onHotReloadComplete p = Some (Throws thrown) ∧ printable thrown)
  ∧ (∀ raised,
       r = Thrown raised ↔
       ∃ thrown, onHotReloadComplete p = Some (Throws thrown)
                 ∧ errorMessage thrown = inr raised)
  ∧ (onHotReloadComplete p = None → t = []).
Proof.
  intros r t. subst r t. unfold result_of, trace_of.
  rewrite safeHotReloadComplete_run. cbn [fst snd].
  unfold hotReloadResult, hotReloadTrace, caughtResult, printable.
  destruct (onHotReloadComplete p) as [[[]|thrown]|].
  - split; [split; [done|done]|].
    split; [split; [done|by intros (? & ? & _)]|].
    split; [|done]. intros raised. split; [done|by intros (? & ? & _)].
  - destruct (errorMessage thrown) as [errorMsg|raised0] eqn:Hmsg.
    + split; [split; [done|intros H; by destruct (H thrown)]|].
      split; [split; [intros _; exists thrown; eauto|done]|].
      split; [|done]. intros raised.
      split; [done|intros (? & ? & ?); simplify_eq; congruence].
    + split; [split; [done|intros H; by destruct (H thrown)]|].
      split; [split; [done|intros (? & ? & ? & ?); simplify_eq; congruence]|].
      split; [|done]. intros raised. split.
      * intros [= <-]. by exists thrown.
      * intros (? & ? & ?). simplify_eq. congruence.
  - split; [split; [done|done]|].
    split; [split; [done|by intros (? & ? & _)]|].
    split; [|done]. intros raised. split; [done|by intros (? & ? & _)].
Qed.

(** ** What a valid verdict of [validateStateShape] guarantees *)

(** The objects a value leads to, through array items and own properties. *)
Inductive reach (h : Heap) : nat → nat → Prop :=
| reach_here (a : nat) : reach h a a
| reach_child (a : nat) (o : Obj) (c b : nat) :
    h !! a = Some o → VObj c ∈ children o → reach h c b → reach h a b.

Definition reachV (h : Heap) (v : Value) (b : nat) : Prop :=
  match v with
  | VObj a => reach h a b
  | _ => False
  end.

(** An object that can be serialized as far as it goes: not an entity
    handle, no function among its items or properties, and on no reference
    cycle. *)
Definition serializable (h : Heap) (b : nat) : Prop :=
  ∀ o, h !! b = Some o →
    hasIsValid o = false
    ∧ (∀ f, VFun f ∉ children o)
    ∧ (∀ c, VObj c ∈ children o → ¬ reach h c b).

Section Walk.
Variable h : Heap.

(** What a walk that reported nothing has established. *)
Definition walked (v : Value) (st r : gset nat * list string) : Prop :=
  st.2 `prefix_of` r.2
  ∧ (r.2 = st.2 →
     (∀ f, v ≠ VFun f)
     ∧ (∀ b, reachV h v b → b ∉ st.1 ∧ serializable h b)
     ∧ (∀ b, b ∈ r.1 ↔ b ∈ st.1 ∨ reachV h v b)).

Lemma forEachIndexed_walked {A : Type} (val : A → Value)
    (f : A → nat → gset nat * list string → option (gset nat * list string))
    (l : list A) (index : nat) (st r : gset nat * list string) :
  (∀ x i s r, f x i s = Some r → walked (val x) s r) →
  forEachIndexed f l index st = Some r →
  st.2 `prefix_of` r.2
  ∧ (r.2 = st.2 →
     (∀ x g, x ∈ l → val x ≠ VFun g)
     ∧ (∀ x b, x ∈ l → reachV h (val x) b → b ∉ st.1 ∧ serializable h b)
     ∧ (∀ b, b ∈ r.1 ↔ b ∈ st.1 ∨ ∃ x, x ∈ l ∧ reachV h (val x) b)).
Proof.
  intros Hf. revert index st.
  induction l as [|x l IH]; intros index st; simpl.
  - intros [= <-]. split; [done|]. intros _.
    split; [by intros ?? ?%elem_of_nil|].
    split; [by intros ?? ?%elem_of_nil|].
    intros b. split; [by left|]. intros [?|(? & ?%elem_of_nil & _)]; done.
  - destruct (f x index st) as [s1|] eqn:Hx; [|done].
    intros Hrest. destruct (Hf _ _ _ _ Hx) as [Hpre1 Hx1].
    destruct (IH _ _ Hrest) as [Hpre2 Hrest1].
    split; [by etrans|].
    intros Hsame.
    assert (Hs1 : s1.2 = st.2).
    { symmetry. apply prefix_length_eq; [done|].
      rewrite <- Hsame. by apply prefix_length. }
    destruct (Hx1 Hs1) as (Hfun & Hnew & Hseen).
    destruct (Hrest1 ltac:(congruence)) as (Hfuns & Hnews & Hseens).
    split; [|split].
    + intros y g [->|Hy]%elem_of_cons; [apply Hfun|by apply Hfuns].
    + intros y b [->|Hy]%elem_of_cons Hb; [by apply Hnew|].
      destruct (Hnews y b Hy Hb) as [Hnot Hser]. split; [|done].
      intros Hin. apply Hnot, Hseen. by left.
    + intros b. rewrite Hseens, Hseen. split.
      * intros [[?|?]|(y & Hy & Hb)]; [by left|right..].
        -- exists x. split; [apply list_elem_of_here|done].
        -- exists y. split; [by apply list_elem_of_further|done].
      * intros [?|(y & [->|Hy]%elem_of_cons & Hb)];
          [by left; left|by left; right|right; by exists y].
Qed.

Lemma checkValue_walked (fuel : nat) (v : Value) (path : string)
    (st r : gset nat * list string) :
  checkValue h fuel v path st = Some r → walked v st r.
Proof.
  revert v path st r.
  induction fuel as [|fuel IH]; intros v path st r; [done|].
  assert (Hleaf : ∀ v, (∀ a, v ≠ VObj a) → (∀ f, v ≠ VFun f) → walked v st st).
  { intros v' Hobj Hfun. split; [done|]. intros _. split; [done|].
    split; intros b; destruct v'; try done; try naive_solver. }
  destruct v as [| |b|n|s|a|a]; cbn [checkValue];
    try (intros [= <-]; by apply Hleaf).
  - intros [= <-]. split; [by apply prefix_app_r|]. simpl. intros Habs.
    apply (f_equal length) in Habs. rewrite length_app in Habs. simpl in Habs. lia.
  - assert (Hgrow : ∀ seen line, walked (VObj a) st (seen, st.2 ++ [line])).
    { intros seen line. split; [by apply prefix_app_r|]. simpl. intros Habs.
      apply (f_equal length) in Habs. rewrite length_app in Habs.
      simpl in Habs. lia. }
    destruct (decide (a ∈ st.1)) as [Hin|Hnotin]; [intros [= <-]; apply Hgrow|].
    destruct (h !! a) as [o|] eqn:Ha.
    2:{ intros [= <-]. split; [done|]. intros _. split; [done|].
        assert (Honly : ∀ b, reach h a b → b = a).
        { intros b Hb. inversion Hb; simplify_eq; done. }
        split.
        - intros b Hb. apply Honly in Hb as ->. split; [done|].
          intros o Ho. congruence.
        - intros b. simpl. rewrite elem_of_union, elem_of_singleton. split.
          + intros [->|?]; [right; constructor|by left].
          + intros [?|Hb]; [by right|left; by apply Honly]. }
    destruct (hasIsValid o) eqn:Hvalid; [intros [= <-]; apply Hgrow|].
    assert (Hobj : ∀ {A : Type} (val : A → Value)
              (f : A → nat → gset nat * list string → option (gset nat * list string))
              (l : list A),
              children o = val <$> l →
              (∀ x i s r, f x i s = Some r → walked (val x) s r) →
              forEachIndexed f l 0 ({[a]} ∪ st.1, st.2) = Some r →
              walked (VObj a) st r).
    { intros A val f l Hchildren Hf Hloop.
      destruct (forEachIndexed_walked val f l 0 _ r Hf Hloop) as [Hpre Hclean].
      split; [done|]. simpl in Hpre, Hclean. intros Hsame.
      destruct (Hclean Hsame) as (Hfuns & Hnews & Hseens).
      assert (Hchild : ∀ c b, VObj c ∈ children o → reach h c b →
                b ∉ ({[a]} ∪ st.1 : gset nat) ∧ serializable h b).
      { intros c b Hc Hb. rewrite Hchildren in Hc.
        apply list_elem_of_fmap in Hc as (x & Hx & Hin).
        apply (Hnews x b Hin). by rewrite <- Hx. }
      assert (Hsplit : ∀ b, reach h a b ↔
                b = a ∨ ∃ c, VObj c ∈ children o ∧ reach h c b).
      { intros b. split.
        - intros Hb. inversion Hb; simplify_eq; [by left|right; eauto].
        - intros [->|(c & Hc & Hb)]; [constructor|by econstructor]. }
      split; [done|]. split.
      - intros b [->|(c & Hc & Hb)]%Hsplit.
        + split; [done|]. intros o' Ho'. simplify_eq.
          split; [done|]. split.
          * intros g Hg. rewrite Hchildren in Hg.
            apply list_elem_of_fmap in Hg as (x & Hx & Hin).
            by apply (Hfuns x g Hin).
          * intros c Hc Hcycle.
            destruct (Hchild c a Hc Hcycle) as [Hnot _]. set_solver.
        + destruct (Hchild c b Hc Hb) as [Hnot Hser]. split; [set_solver|done].
      - intros b. rewrite Hseens. simpl. rewrite Hsplit, elem_of_union, elem_of_singleton.
        split.
        + intros [[->|?]|(x & Hin & Hb)]; [by right; left|by left|].
          right. right. destruct (val x) as [| | | | | |c] eqn:Hx; try done.
          exists c. split; [|done]. rewrite Hchildren, <- Hx.
          by apply list_elem_of_fmap_2.
        + intros [?|[->|(c & Hc & Hb)]]; [by left; right|by left; left|].
          right. rewrite Hchildren in Hc.
          apply list_elem_of_fmap in Hc as (x & Hx & Hin).
          exists x. split; [done|]. by rewrite <- Hx. }
    destruct o as [items|own hidden].
    + apply (Hobj Value (λ x, x)); [by rewrite list_fmap_id|].
      intros x i s r'. apply IH.
    + apply (Hobj (string * Value)%type snd); [done|].
      intros x i s r'. apply IH.
Qed.

End Walk.

(** X11.  A state that [validateStateShape] judges valid is an object, and
    every object it leads to through array items and own properties is no
    entity handle, holds no function, and lies on no reference cycle. *)
Theorem validateStateShape_valid_sound (h : Heap) (fuel : nat) (state : Value)
    (featureName : string) (result : ValidationResult) :
  validateStateShape h fuel state featureName = Some result →
  valid result = true →
  ∃ a, state = VObj a ∧ ∀ b, reach h a b → serializable h b.
Proof.
  unfold validateStateShape. intros Hrun Hvalid.
  destruct state as [| |b|n|s|f|a]; try by simplify_eq.
  exists a. split; [done|].
  destruct (checkValue h fuel (VObj a) "state" (∅, [])) as [[seen issues]|] eqn:Hwalk;
    [|done].
  destruct issues as [|line issues]; [|by simplify_eq].
  destruct (checkValue_walked h _ _ _ _ _ Hwalk) as [_ Hclean].
  destruct (Hclean eq_refl) as (_ & Hnew & _).
  intros b Hb. by apply Hnew.
Qed.

(** [{ score: 1, slots: [null, "a"] }] *)
Definition plainHeap : Heap :=
  [ORecord [("score", VNum 1); ("slots", VObj 1)] []; OArray [VNull; VStr "a"]].

Lemma validateStateShape_valid_sound_witness :
  ∃ a, VObj 0 = VObj a ∧ ∀ b, reach plainHeap a b → serializable plainHeap b.
Proof.
  apply (validateStateShape_valid_sound plainHeap 3 (VObj 0) "plugin"
           (mkValidationResult true None)); reflexivity.
Defined.

(** ** The serialization helpers *)

Lemma Map_get_set {A : Type} (k k' : string) (v : A) (m : list (string * A)) :
  Map_get k (Map_set k' v m) = if String.eqb k k' then Some v else Map_get k m.
Proof.
  unfold Map_get. induction m as [|[k1 v1] m IH]; simpl; [done|].
  destruct (String.eqb_spec k' k1) as [->|Hne]; simpl.
  - by destruct (String.eqb k k1).
  - destruct (String.eqb_spec k k1) as [->|Hne'].
    + destruct (String.eqb_spec k1 k'); [by subst|done].
    + apply IH.
Qed.

Lemma Map_set_present {A : Type} (k : string) (v : A) (m : list (string * A)) :
  k ∈ m.*1 → (Map_set k v m).*1 = m.*1.
Proof.
  induction m as [|[k1 v1] m IH]; [by intros ?%elem_of_nil|]. cbn [Map_set].
  destruct (String.eqb_spec k k1) as [->|Hne]; [done|].
  rewrite !fmap_cons. intros [?|Hin]%elem_of_cons; [done|]. by rewrite IH.
Qed.

Lemma Map_set_NoDup {A : Type} (k : string) (v : A) (m : list (string * A)) :
  NoDup m.*1 → NoDup (Map_set k v m).*1.
Proof.
  intros Hnd. destruct (decide (k ∈ m.*1)) as [Hin|Hnotin].
  - by rewrite Map_set_present.
  - rewrite Map_set_absent by by apply Map_get_None.
    rewrite fmap_app. apply NoDup_app. split; [done|].
    split; [|apply NoDup_singleton].
    intros x Hx ->%list_elem_of_singleton. done.
Qed.

Import Serialization.

Lemma spread_NoDup (target source : list (string * Value)) :
  NoDup target.*1 → NoDup (spread target source).*1.
Proof.
  unfold spread. revert target.
  induction source as [|[k v] source IH]; intros target Hnd; simpl; [done|].
  by apply IH, Map_set_NoDup.
Qed.

Lemma spread_get (target source : list (string * Value)) (k : string) :
  NoDup source.*1 →
  Map_get k (spread target source)
  = match Map_get k source with
    | Some v => Some v
    | None => Map_get k target
    end.
Proof.
  unfold spread. revert target.
  induction source as [|[k1 v1] source IH]; intros target; simpl; [done|].
  rewrite NoDup_cons. intros [Hk1 Hnd]. rewrite (IH _ Hnd), Map_get_set.
  unfold Map_get at 3. simpl.
  destruct (String.eqb_spec k k1) as [->|Hne]; [|done].
  apply Map_get_None in Hk1. by rewrite Hk1.
Qed.

Lemma spread_fresh (target source : list (string * Value)) :
  NoDup (target ++ source).*1 → spread target source = target ++ source.
Proof.
  unfold spread. revert target.
  induction source as [|[k v] source IH]; intros target; simpl.
  - by rewrite app_nil_r.
  - intros Hnd. rewrite Map_set_absent.
    + rewrite IH; rewrite <- app_assoc; done.
    + apply Map_get_None. rewrite fmap_app in Hnd.
      apply NoDup_app in Hnd as (_ & Hdisj & _).
      intros Hin. apply (Hdisj k Hin). simpl. apply list_elem_of_here.
Qed.

(** X12.  [mergeWithDefaults] on objects: the result has each key once; a
    key of the saved state has the saved value, [undefined] included, and
    any other key has its default.  Without a saved state the result is a
    copy of the defaults. *)
Theorem mergeWithDefaults_lookup (savedState : option (list (string * Value)))
    (defaultState : list (string * Value)) :
  NoDup defaultState.*1 →
  (∀ saved, savedState = Some saved → NoDup saved.*1) →
  NoDup (mergeWithDefaults savedState defaultState).*1
  ∧ (savedState = None → mergeWithDefaults savedState defaultState = defaultState)
  ∧ ∀ k, Map_get k (mergeWithDefaults savedState defaultState)
         = match savedState ≫= Map_get k with
           | Some v => Some v
           | None => Map_get k defaultState
           end.
Proof.
  intros Hdef Hsaved.
  assert (Hcopy : spread [] defaultState = defaultState) by by apply spread_fresh.
  unfold mergeWithDefaults. destruct savedState as [saved|]; simpl.
  - rewrite Hcopy. split; [by apply spread_NoDup|]. split; [done|].
    intros k. apply spread_get. by apply Hsaved.
  - by rewrite Hcopy.
Qed.

Lemma mergeWithDefaults_lookup_witness :
  NoDup (mergeWithDefaults (Some [("score", VUndefined); ("round", VNum 3)])
           [("score", VNum 0); ("lives", VNum 5)]).*1
  ∧ (Some [("score", VUndefined); ("round", VNum 3)] = None →
     mergeWithDefaults (Some [("score", VUndefined); ("round", VNum 3)])
       [("score", VNum 0); ("lives", VNum 5)]
     = [("score", VNum 0); ("lives", VNum 5)])
  ∧ ∀ k, Map_get k (mergeWithDefaults (Some [("score", VUndefined); ("round", VNum 3)])
                      [("score", VNum 0); ("lives", VNum 5)])
         = match Some [("score", VUndefined); ("round", VNum 3)] ≫= Map_get k with
           | Some v => Some v
           | None => Map_get k [("score", VNum 0); ("lives", VNum 5)]
           end.
Proof.
  apply (mergeWithDefaults_lookup (Some [("score", VUndefined); ("round", VNum 3)])
           [("score", VNum 0); ("lives", VNum 5)]).
  - by apply (bool_decide_unpack _).
  - intros saved [= <-]. by apply (bool_decide_unpack _).
Defined.

Section CollectionFacts.
Context {K V : Type} `{EqDecision K}.

Lemma JsMap_get_set (k k' : K) (v : V) (m : list (K * V)) :
  JsMap_get k (JsMap_set k' v m) = if decide (k = k') then Some v else JsMap_get k m.
Proof.
  induction m as [|[k1 v1] m IH]; simpl.
  - by destruct (decide (k = k')).
  - destruct (decide (k' = k1)) as [->|Hne]; simpl.
    + by destruct (decide (k = k1)).
    + destruct (decide (k = k1)) as [->|Hne'].
      * by rewrite decide_False.
      * apply IH.
Qed.

Lemma JsMap_get_app (k : K) (m : list (K * V)) (e : K * V) :
  JsMap_get k (m ++ [e])
  = match JsMap_get k m with
    | Some v => Some v
    | None => if decide (k = e.1) then Some e.2 else None
    end.
Proof.
  induction m as [|[k1 v1] m IH]; simpl; [by destruct e|].
  by destruct (decide (k = k1)).
Qed.

Lemma JsMap_set_present (k : K) (v : V) (m : list (K * V)) :
  k ∈ m.*1 → (JsMap_set k v m).*1 = m.*1.
Proof.
  induction m as [|[k1 v1] m IH]; [by intros ?%elem_of_nil|]. cbn [JsMap_set].
  destruct (decide (k = k1)) as [->|Hne]; [done|].
  rewrite !fmap_cons. intros [?|Hin]%elem_of_cons; [done|]. by rewrite IH.
Qed.

Lemma JsMap_set_absent (k : K) (v : V) (m : list (K * V)) :
  k ∉ m.*1 → JsMap_set k v m = m ++ [(k, v)].
Proof.
  induction m as [|[k1 v1] m IH]; simpl; [done|].
  rewrite not_elem_of_cons. intros [Hne Hnotin].
  rewrite decide_False by done. by rewrite IH.
Qed.

Lemma JsMap_set_NoDup (k : K) (v : V) (m : list (K * V)) :
  NoDup m.*1 → NoDup (JsMap_set k v m).*1.
Proof.
  intros Hnd. destruct (decide (k ∈ m.*1)) as [Hin|Hnotin].
  - by rewrite JsMap_set_present.
  - rewrite JsMap_set_absent by done.
    rewrite fmap_app. apply NoDup_app. split; [done|].
    split; [|apply NoDup_singleton].
    intros x Hx ->%list_elem_of_singleton. done.
Qed.

Lemma JsMap_fold (acc entries : list (K * V)) :
  NoDup acc.*1 →
  NoDup (foldl (λ m e, JsMap_set e.1 e.2 m) acc entries).*1
  ∧ ∀ k, JsMap_get k (foldl (λ m e, JsMap_set e.1 e.2 m) acc entries)
         = match JsMap_get k (reverse entries) with
           | Some v => Some v
           | None => JsMap_get k acc
           end.
Proof.
  revert acc. induction entries as [|e entries IH]; intros acc Hnd; simpl; [done|].
  destruct (IH (JsMap_set e.1 e.2 acc)) as [Hnd' Hget];
    [by apply JsMap_set_NoDup|].
  split; [done|]. intros k.
  rewrite Hget, reverse_cons, JsMap_get_app, JsMap_get_set.
  destruct (JsMap_get k (reverse entries)); [done|].
  by destruct (decide (k = e.1)).
Qed.

Lemma JsMap_fold_fresh (acc entries : list (K * V)) :
  NoDup (acc ++ entries).*1 →
  foldl (λ m e, JsMap_set e.1 e.2 m) acc entries = acc ++ entries.
Proof.
  revert acc. induction entries as [|[k v] entries IH]; intros acc; simpl.
  - by rewrite app_nil_r.
  - intros Hnd. rewrite JsMap_set_absent.
    + rewrite IH; rewrite <- app_assoc; done.
    + rewrite fmap_app in Hnd. apply NoDup_app in Hnd as (_ & Hdisj & _).
      intros Hin. apply (Hdisj k Hin). simpl. apply list_elem_of_here.
Qed.

Lemma JsSet_fold (acc values : list K) :
  NoDup acc →
  NoDup (foldl (λ s x, JsSet_add x s) acc values)
  ∧ (∀ x, x ∈ foldl (λ s x, JsSet_add x s) acc values ↔ x ∈ acc ∨ x ∈ values)
  ∧ (NoDup (acc ++ values) →
     foldl (λ s x, JsSet_add x s) acc values = acc ++ values).
Proof.
  revert acc. induction values as [|y values IH]; intros acc Hnd; simpl.
  - split; [done|]. split; [|by rewrite app_nil_r].
    intros x. split; [by left|]. by intros [?|?%elem_of_nil].
  - assert (Hadd : NoDup (JsSet_add y acc)).
    { unfold JsSet_add. destruct (decide (y ∈ acc)); [done|].
      apply NoDup_app. split; [done|]. split; [|apply NoDup_singleton].
      intros x Hx ->%list_elem_of_singleton. done. }
    destruct (IH _ Hadd) as (Hnd' & Helem & Hfresh).
    split; [done|]. split.
    + intros x. rewrite Helem, elem_of_cons. unfold JsSet_add.
      destruct (decide (y ∈ acc)) as [Hin|Hnotin].
      * split; [intros [?|?]; auto|intros [?|[->|?]]; auto].
      * rewrite elem_of_app, list_elem_of_singleton. tauto.
    + intros Hall. assert (Hy : y ∉ acc).
      { apply NoDup_app in Hall as (_ & Hdisj & _).
        intros Hin. apply (Hdisj y Hin), list_elem_of_here. }
      assert (Hstep : JsSet_add y acc = acc ++ [y])
        by (unfold JsSet_add; by rewrite decide_False).
      rewrite Hstep in Hfresh |- *. rewrite Hfresh; rewrite <- app_assoc; done.
Qed.

(** X13.  A [Map] survives [serializeMap] followed by [deserializeMap]
    with its entries and their order. *)
Theorem deserializeMap_serializeMap (map : list (K * V)) :
  NoDup map.*1 →
  deserializeMap (SavedArray (serializeMap map)) = map.
Proof.
  intros Hnd. unfold deserializeMap, serializeMap, JsMap_new.
  by apply (JsMap_fold_fresh []).
Qed.

(** X14.  [deserializeMap] always answers a map with each key once.  From
    an array, a key has the value of its last entry in the array, and a key
    without entry is absent; from anything else the map is empty. *)
Theorem deserializeMap_last_entry_wins (entries : Saved (K * V)) :
  NoDup (deserializeMap entries).*1
  ∧ (∀ items k, entries = SavedArray items →
       JsMap_get k (deserializeMap entries) = JsMap_get k (reverse items))
  ∧ ((∀ items, entries ≠ SavedArray items) → deserializeMap entries = []).
Proof.
  destruct entries as [|items|v]; simpl.
  - split; [constructor|]. split; [done|done].
  - destruct (JsMap_fold [] items) as [Hnd Hget]; [constructor|].
    split; [done|]. split.
    + intros items' k [= <-]. unfold JsMap_new. rewrite Hget.
      by destruct (JsMap_get k (reverse items)).
    + intros Hnot. by destruct (Hnot items).
  - split; [constructor|]. split; [done|done].
Qed.

(** X15.  [deserializeSet] always answers a set with each value once.  From
    an array it has exactly the values of the array, and an array without
    repetition, as [serializeSet] produces, comes back in the same order;
    from anything else the set is empty. *)
Theorem deserializeSet_values (values : Saved K) :
  NoDup (deserializeSet values)
  ∧ (∀ items, values = SavedArray items →
       (∀ x, x ∈ deserializeSet values ↔ x ∈ items)
       ∧ (NoDup items → deserializeSet (SavedArray (serializeSet items)) = items))
  ∧ ((∀ items, values ≠ SavedArray items) → deserializeSet values = []).
Proof.
  destruct values as [|items|v]; simpl.
  - split; [constructor|]. split; [done|done].
  - destruct (JsSet_fold [] items) as (Hnd & Helem & Hfresh); [constructor|].
    split; [done|]. split.
    + intros items' [= <-]. split.
      * intros x. unfold JsSet_new. rewrite Helem.
        split; [by intros [?%elem_of_nil|?]|by right].
      * apply Hfresh.
    + intros Hnot. by destruct (Hnot items).
  - split; [constructor|]. split; [done|done].
Qed.

End CollectionFacts.

Lemma deserializeMap_serializeMap_witness :
  deserializeMap (SavedArray (serializeMap [(2, "b"); (1, "a")]))
  = [(2, "b"); (1, "a")].
Proof.
  apply (deserializeMap_serializeMap (K := nat) (V := string) [(2, "b"); (1, "a")]).
  by apply (bool_decide_unpack _).
Defined.

(** ** Passes over the plugins that stop at an exception *)

Import Dispatch.

Lemma bind_thrown {A B : Type} (m : M A) (f : A → M B) (w w1 : World)
    (e : Exn) (t1 : list Event) :
  m w = (Thrown e, w1, t1) → (m ≫= f) w = (Thrown e, w1, t1).
Proof. intros Hm. unfold_M. by rewrite Hm. Qed.

Lemma forEachAcc_abort {A St : Type} (f : A → St → M St) (w : World)
    (tr : A → list Event) (before after : list A) (x : A) (e : Exn)
    (tx : list Event) :
  (∀ y s, y ∈ before → ∃ s', f y s w = (Ok s', w, tr y)) →
  (∀ s, f x s w = (Thrown e, w, tx)) →
  ∀ s, forEachAcc f (before ++ x :: after) s w
       = (Thrown e, w, (before ≫= tr) ++ tx).
Proof.
  intros Hbefore Hx. induction before as [|y before IH]; intros s.
  - simpl. unfold_M. by rewrite Hx.
  - destruct (Hbefore y s) as (s1 & H1); [apply list_elem_of_here|].
    simpl. rewrite <- app_assoc. eapply bind_ok; [exact H1|].
    apply IH. intros; apply Hbefore; by apply list_elem_of_further.
Qed.

Lemma forEachPluginInOrder_abort (callback : Plugin → string → M unit)
    (tr : Plugin → string → list Event) (w : World)
    (before after : list PluginDescriptor) (d : PluginDescriptor) (p : Plugin)
    (e : Exn) (tx : list Event) :
  orderedPlugins w = before ++ d :: after →
  (∀ d' p', d' ∈ before → activePlugins w !! name d' = Some p' →
            callback p' (name d') w = (Ok tt, w, tr p' (name d'))) →
  activePlugins w !! name d = Some p →
  callback p (name d) w = (Thrown e, w, tx) →
  forEachPluginInOrder callback w
  = (Thrown e, w, passTrace (set_orderedPlugins before w) tr ++ tx).
Proof.
  intros Hord Hbefore Hp Hd.
  unfold forEachPluginInOrder, forEachPluginInOrderAcc.
  change (passTrace (set_orderedPlugins before w) tr ++ tx)
    with ([] ++ passTrace (set_orderedPlugins before w) tr ++ tx).
  eapply bind_ok; [reflexivity|]. rewrite Hord.
  apply (forEachAcc_abort
           (λ d (s : unit),
              plugin ← gets (λ w, activePlugins w !! name d);
              match plugin with
              | Some plugin => callback plugin (name d)
              | None => mret s
              end)
           w
           (λ d, match activePlugins w !! name d with
                 | Some p => tr p (name d)
                 | None => []
                 end)).
  - intros d' [] Hd'. exists tt.
    destruct (activePlugins w !! name d') as [p'|] eqn:Hp'.
    + change (tr p' (name d')) with ([] ++ tr p' (name d')).
      eapply bind_ok; [reflexivity|]. simpl. rewrite Hp'. by apply Hbefore.
    + eapply (bind_ok _ _ w w w _ _ [] []); [reflexivity|].
      simpl. rewrite Hp'. reflexivity.
  - intros []. change tx with ([] ++ tx).
    eapply bind_ok; [reflexivity|]. simpl. rewrite Hp. exact Hd.
Qed.

(** What a dispatch leaves in the trace for one plugin. *)
Definition hookTrace (m : Method) (hook : Plugin → option (Outcome unit))
    (p : Plugin) (n : string) : list Event :=
  match hook p with
  | Some (Returns _) => [Invoke n m; Return_ n m]
  | Some (Throws _) => [Invoke n m; Threw n m]
  | None => []
  end.

Lemma dispatch_callback (m : Method) (hook : Plugin → option (Outcome unit))
    (p : Plugin) (n : string) (w : World) :
  (match hook p with
   | Some hook => call n m hook
   | None => mret tt
   end) w
  = (match hook p with
     | Some (Throws e) => Thrown e
     | _ => Ok tt
     end, w, hookTrace m hook p n).
Proof. unfold hookTrace. by destruct (hook p) as [[[]|e]|]. Qed.

(** X16.  When no hook throws, [dispatchEvent] returns after calling the
    hook of every active plugin that has one, once each, in the order of
    [orderedPlugins], skipping the plugins without it. *)
Theorem dispatchEvent_reaches_every_hook (m : Method)
    (hook : Plugin → option (Outcome unit)) (w : World) :
  (∀ d p e, d ∈ orderedPlugins w → activePlugins w !! name d = Some p →
            hook p ≠ Some (Throws e)) →
  result_of (dispatchEvent m hook) w = Ok tt
  ∧ trace_of (dispatchEvent m hook) w = passTrace w (hookTrace m hook).
Proof.
  intros Hquiet.
  assert (Hrun : dispatchEvent m hook w
                 = (Ok tt, w, passTrace w (hookTrace m hook))).
  { unfold dispatchEvent.
    apply forEachPluginInOrder_steady_trace. intros d p Hd Hp.
    rewrite dispatch_callback. specialize (Hquiet d p).
    destruct (hook p) as [[[]|e]|]; try done. by destruct (Hquiet e Hd Hp). }
  unfold result_of, trace_of. by rewrite Hrun.
Qed.

Lemma dispatchEvent_reaches_every_hook_witness :
  result_of (dispatchEvent MCleanup cleanup) saveWorld = Ok tt
  ∧ trace_of (dispatchEvent MCleanup cleanup) saveWorld
    = passTrace saveWorld (hookTrace MCleanup cleanup).
Proof.
  apply (dispatchEvent_reaches_every_hook MCleanup cleanup saveWorld).
  intros d p e Hd Hp.
  apply elem_of_cons in Hd as [->|Hd];
    [|apply elem_of_cons in Hd as [->|Hd]; [|by apply elem_of_nil in Hd]];
    vm_compute in Hp; by simplify_eq.
Defined.

(** A dispatch in which a hook throws. *)
Lemma dispatchEvent_abort (m : Method)
    (hook : Plugin → option (Outcome unit)) (w : World)
    (before after : list PluginDescriptor) (d : PluginDescriptor) (p : Plugin)
    (e : Exn) :
  orderedPlugins w = before ++ d :: after →
  (∀ d' p' e', d' ∈ before → activePlugins w !! name d' = Some p' →
               hook p' ≠ Some (Throws e')) →
  activePlugins w !! name d = Some p →
  hook p = Some (Throws e) →
  dispatchEvent m hook w
  = (Thrown e, w,
     passTrace (set_orderedPlugins before w) (hookTrace m hook)
     ++ [Invoke (name d) m; Threw (name d) m]).
Proof.
  intros Hord Hquiet Hp Hthrow. unfold dispatchEvent.
  eapply forEachPluginInOrder_abort; [exact Hord| |exact Hp|].
  - intros d' p' Hd' Hp'. rewrite dispatch_callback. specialize (Hquiet d' p').
    destruct (hook p') as [[[]|e']|]; try done. by destruct (Hquiet e' Hd' Hp').
  - rewrite dispatch_callback. unfold hookTrace. by rewrite Hthrow.
Qed.

(** X17.  [dispatchEvent] does not isolate the plugins from each other: the
    first hook that throws ends the dispatch with its exception, after the
    hooks of the plugins before it, and no plugin after it is called. *)
Theorem dispatchEvent_stops_at_throwing_hook (m : Method)
    (hook : Plugin → option (Outcome unit)) (w : World)
    (before after : list PluginDescriptor) (d : PluginDescriptor) (p : Plugin)
    (e : Exn) :
  orderedPlugins w = before ++ d :: after →
  (∀ d' p' e', d' ∈ before → activePlugins w !! name d' = Some p' →
               hook p' ≠ Some (Throws e')) →
  activePlugins w !! name d = Some p →
  hook p = Some (Throws e) →
  dispatchEvent m hook w
  = (Thrown e, w,
     passTrace (set_orderedPlugins before w) (hookTrace m hook)
     ++ [Invoke (name d) m; Threw (name d) m]).
Proof. apply dispatchEvent_abort. Qed.

(** A plugin whose [cleanup] throws, between two that are well behaved. *)
Definition failingCleanup : Plugin :=
  mkPlugin (Returns tt) (Some (Throws (Error "stuck"))) (Some (Returns (VObj 0)))
           None None None.

Definition dStuck : PluginDescriptor :=
  mkDescriptor "stuck" (Returns failingCleanup) (Some 50%Z).

Definition stuckWorld : World :=
  mkWorld sharedHeap
          {[ "broken" := throwingPlugin; "stuck" := failingCleanup;
             "hud" := examplePlugin ]}
          [dBroken; dStuck; dHud] (EventBus.createEventBus false) (λ _, None).

Lemma dispatchEvent_stops_at_throwing_hook_witness :
  dispatchEvent MCleanup cleanup stuckWorld
  = (Thrown (Error "stuck"), stuckWorld,
     passTrace (set_orderedPlugins [dBroken] stuckWorld) (hookTrace MCleanup cleanup)
     ++ [Invoke (name dStuck) MCleanup; Threw (name dStuck) MCleanup]).
Proof.
  apply (dispatchEvent_stops_at_throwing_hook MCleanup cleanup stuckWorld
           [dBroken] [dHud] dStuck failingCleanup (Error "stuck")).
  - reflexivity.
  - intros d' p' e' Hd' Hp'.
    apply elem_of_cons in Hd' as [->|Hd']; [|by apply elem_of_nil in Hd'].
    vm_compute in Hp'. by simplify_eq.
  - reflexivity.
  - reflexivity.
Defined.

(** X25.  A tick of the think loop in which an [onThink] hook throws ends
    with that exception before the next tick is asked for: the plugins after
    the throwing one miss the tick, and the loop is not scheduled again. *)
Theorem thinkTick_stops_the_loop_on_throwing_hook (m : Method)
    (hook : Plugin → option (Outcome unit)) (w : World)
    (before after : list PluginDescriptor) (d : PluginDescriptor) (p : Plugin)
    (e : Exn) :
  orderedPlugins w = before ++ d :: after →
  (∀ d' p' e', d' ∈ before → activePlugins w !! name d' = Some p' →
               hook p' ≠ Some (Throws e')) →
  activePlugins w !! name d = Some p →
  hook p = Some (Throws e) →
  thinkTick m hook w
  = (Thrown e, w,
     passTrace (set_orderedPlugins before w) (hookTrace m hook)
     ++ [Invoke (name d) m; Threw (name d) m],
     false).
Proof.
  intros Hord Hquiet Hp Hthrow. unfold thinkTick.
  by rewrite (dispatchEvent_abort m hook w before after d p e Hord Hquiet Hp Hthrow).
Qed.

Lemma thinkTick_stops_the_loop_on_throwing_hook_witness :
  thinkTick MCleanup cleanup stuckWorld
  = (Thrown (Error "stuck"), stuckWorld,
     passTrace (set_orderedPlugins [dBroken] stuckWorld) (hookTrace MCleanup cleanup)
     ++ [Invoke (name dStuck) MCleanup; Threw (name dStuck) MCleanup],
     false).
Proof.
  apply (thinkTick_stops_the_loop_on_throwing_hook MCleanup cleanup stuckWorld
           [dBroken] [dHud] dStuck failingCleanup (Error "stuck")).
  - reflexivity.
  - intros d' p' e' Hd' Hp'.
    apply elem_of_cons in Hd' as [->|Hd']; [|by apply elem_of_nil in Hd'].
    vm_compute in Hp'. by simplify_eq.
  - reflexivity.
  - reflexivity.
Defined.

(** ** Loading the plugins at boot *)

(** The callback of the loop of [initializePlugins]. *)
Definition loadStep (cfg : GamemodeConfig) (d : PluginDescriptor) : M unit :=
  let p := effectivePriority d in
  Msg_cfg cfg ("Loading plugin: " +:+ name d +:+ " (priority: "
               +:+ pretty p +:+ ")");;
  pluginInstance ← call (name d) MCreate (create d);
  call (name d) MInit (init pluginInstance);;
  modify (λ w, set_activePlugins
                 (<[name d := pluginInstance]> (activePlugins w)) w).

(** The plugin calls of a load that goes well, and of one that does not. *)
Definition loadTrace (d : PluginDescriptor) : list Event :=
  [Invoke (name d) MCreate; Return_ (name d) MCreate;
   Invoke (name d) MInit; Return_ (name d) MInit].

Definition failTrace (d : PluginDescriptor) : list Event :=
  match create d with
  | Throws _ => [Invoke (name d) MCreate; Threw (name d) MCreate]
  | Returns _ => [Invoke (name d) MCreate; Return_ (name d) MCreate;
                  Invoke (name d) MInit; Threw (name d) MInit]
  end.

Lemma loadLoop_ok (cfg : GamemodeConfig) (l : list PluginDescriptor) (w : World) :
  (∀ d, d ∈ l → ∃ p, create d = Returns p ∧ init p = Returns tt) →
  ∃ t,
    forEach (loadStep cfg) l w
    = (Ok tt, set_activePlugins (registered (activePlugins w) l) w, t)
    ∧ List.filter isPluginEvent t = l ≫= loadTrace.
Proof.
  revert w. induction l as [|d l IH]; intros w Hl; simpl.
  - exists []. by destruct w.
  - destruct (Hl d) as (p & Hp & Hi); [apply list_elem_of_here|].
    destruct (IH (set_activePlugins (<[name d := p]> (activePlugins w)) w))
      as (t & Ht & Hfilter); [intros; apply Hl; by apply list_elem_of_further|].
    eexists. split.
    + eapply (bind_ok _ _ _ (set_activePlugins (<[name d := p]> (activePlugins w)) w)).
      * unfold loadStep, Msg_cfg. unfold_M. rewrite Hp. cbn beta iota.
        rewrite Hi. reflexivity.
      * rewrite Ht. unfold registered. simpl. rewrite Hp. reflexivity.
    + rewrite List.filter_app, Hfilter. reflexivity.
Qed.

Lemma loadLoop_abort (cfg : GamemodeConfig) (before after : list PluginDescriptor)
    (d : PluginDescriptor) (e : Exn) (w : World) :
  (∀ d', d' ∈ before → ∃ p, create d' = Returns p ∧ init p = Returns tt) →
  create d = Throws e ∨ (∃ p, create d = Returns p ∧ init p = Throws e) →
  ∃ t,
    forEach (loadStep cfg) (before ++ d :: after) w
    = (Thrown e, set_activePlugins (registered (activePlugins w) before) w, t)
    ∧ List.filter isPluginEvent t = (before ≫= loadTrace) ++ failTrace d.
Proof.
  intros Hbefore Hd. revert w.
  induction before as [|d' before IH]; intros w; simpl.
  - assert (Hw : set_activePlugins (activePlugins w) w = w) by by destruct w.
    rewrite Hw. unfold failTrace.
    destruct Hd as [Hc|(p & Hc & Hi)]; eexists; (split; [|shelve]).
    + unfold loadStep, Msg_cfg. unfold_M. rewrite Hc. reflexivity.
    + unfold loadStep, Msg_cfg. unfold_M. rewrite Hc. cbn beta iota.
      rewrite Hi. reflexivity.
    Unshelve. all: by rewrite Hc.
  - destruct (Hbefore d') as (p & Hp & Hi); [apply list_elem_of_here|].
    destruct (IH (λ x Hx, Hbefore x (list_elem_of_further _ _ _ Hx))
                 (set_activePlugins (<[name d' := p]> (activePlugins w)) w))
      as (t & Ht & Hfilter).
    eexists. split.
    + eapply (bind_ok _ _ _ (set_activePlugins (<[name d' := p]> (activePlugins w)) w)).
      * unfold loadStep, Msg_cfg. unfold_M. rewrite Hp. cbn beta iota.
        rewrite Hi. reflexivity.
      * rewrite Ht. unfold registered. simpl. rewrite Hp. reflexivity.
    + rewrite List.filter_app, Hfilter. reflexivity.
Qed.

(** X18.  When every factory and every [init] of the plugins to load
    returns, [initializePlugins] creates and initializes them one after the
    other in priority order, each [init] directly after its factory, and
    registers each instance under its name, on top of what is registered. *)
Theorem initializePlugins_loads_in_order (cfg : GamemodeConfig) (w : World) :
  (∀ d, d ∈ getOrderedPlugins cfg →
        ∃ p, create d = Returns p ∧ init p = Returns tt) →
  ∃ t,
    initializePlugins cfg w
    = (Ok tt,
       set_activePlugins (registered (activePlugins w) (getOrderedPlugins cfg))
                         (set_orderedPlugins (getOrderedPlugins cfg) w),
       t)
    ∧ List.filter isPluginEvent t = getOrderedPlugins cfg ≫= loadTrace.
Proof.
  intros Hall.
  set (w1 := set_orderedPlugins (getOrderedPlugins cfg) w).
  destruct (loadLoop_ok cfg (getOrderedPlugins cfg) w1 Hall) as (t & Hloop & Hfilter).
  set (w2 := set_activePlugins (registered (activePlugins w) (getOrderedPlugins cfg)) w1).
  assert (Hlast : ∃ line,
             (if hasEnabledList cfg
              then Msg_cfg cfg ("Enabled plugins: "
                     +:+ String.concat ", " (default [] (enabledPlugins cfg)))
              else Msg_cfg cfg ("All " +:+ pretty (length (getOrderedPlugins cfg))
                                +:+ " plugins loaded (no filter)")) w2
             = (Ok tt, w2, [Host.Msg line])).
  { destruct (hasEnabledList cfg); by eexists. }
  destruct Hlast as (line & Hlast).
  eexists. split.
  - unfold initializePlugins.
    eapply bind_ok; [reflexivity|]. eapply bind_ok; [reflexivity|].
    eapply bind_ok; [reflexivity|]. eapply bind_ok; [exact Hloop|exact Hlast].
  - rewrite !List.filter_app, Hfilter. simpl. by rewrite app_nil_r.
Qed.

Lemma initializePlugins_loads_in_order_witness :
  ∃ t,
    initializePlugins reloadConfig exampleWorld
    = (Ok tt,
       set_activePlugins
         (registered (activePlugins exampleWorld) (getOrderedPlugins reloadConfig))
         (set_orderedPlugins (getOrderedPlugins reloadConfig) exampleWorld),
       t)
    ∧ List.filter isPluginEvent t = getOrderedPlugins reloadConfig ≫= loadTrace.
Proof.
  apply (initializePlugins_loads_in_order reloadConfig exampleWorld).
  assert (Hordered : getOrderedPlugins reloadConfig = [dDebug; dHud])
    by reflexivity.
  rewrite Hordered. intros d Hd.
  apply elem_of_cons in Hd as [->|Hd]; [by eexists|].
  apply elem_of_cons in Hd as [->|Hd]; [by eexists|].
  by apply elem_of_nil in Hd.
Defined.

(** X19.  [initializePlugins] stops at the first plugin whose factory or
    [init] throws: the exception goes to the caller, the plugins before it
    stay registered, the failing one is not registered even when its
    factory returned, and no later plugin is created. *)
Theorem initializePlugins_stops_at_failing_plugin (cfg : GamemodeConfig)
    (w : World) (before after : list PluginDescriptor) (d : PluginDescriptor)
    (e : Exn) :
  getOrderedPlugins cfg = before ++ d :: after →
  (∀ d', d' ∈ before → ∃ p, create d' = Returns p ∧ init p = Returns tt) →
  create d = Throws e ∨ (∃ p, create d = Returns p ∧ init p = Throws e) →
  ∃ t,
    initializePlugins cfg w
    = (Thrown e,
       set_activePlugins (registered (activePlugins w) before)
                         (set_orderedPlugins (getOrderedPlugins cfg) w),
       t)
    ∧ List.filter isPluginEvent t = (before ≫= loadTrace) ++ failTrace d.
Proof.
  intros Hord Hbefore Hd.
  set (w1 := set_orderedPlugins (getOrderedPlugins cfg) w).
  destruct (loadLoop_abort cfg before after d e w1 Hbefore Hd)
    as (t & Hloop & Hfilter).
  rewrite <- Hord in Hloop.
  eexists. split.
  - unfold initializePlugins.
    eapply bind_ok; [reflexivity|]. eapply bind_ok; [reflexivity|].
    eapply bind_ok; [reflexivity|].
    apply bind_thrown. exact Hloop.
  - by rewrite !List.filter_app, Hfilter.
Qed.

(** A plugin whose [init] throws, loaded between two that are well behaved. *)
Definition failingInit : Plugin :=
  mkPlugin (Throws (Error "no map")) None None None None None.

Definition dFailing : PluginDescriptor :=
  mkDescriptor "failing" (Returns failingInit) (Some 50%Z).

Definition startupConfig : GamemodeConfig :=
  mkConfig "Sandbox" [dHud; dFailing; dDebug] None "20".

Lemma initializePlugins_stops_at_failing_plugin_witness :
  ∃ t,
    initializePlugins startupConfig exampleWorld
    = (Thrown (Error "no map"),
       set_activePlugins (registered (activePlugins exampleWorld) [dDebug])
                         (set_orderedPlugins (getOrderedPlugins startupConfig)
                                             exampleWorld),
       t)
    ∧ List.filter isPluginEvent t = ([dDebug] ≫= loadTrace) ++ failTrace dFailing.
Proof.
  apply (initializePlugins_stops_at_failing_plugin startupConfig exampleWorld
           [dDebug] [dHud] dFailing (Error "no map")).
  - reflexivity.
  - intros d' Hd'.
    apply elem_of_cons in Hd' as [->|Hd']; [by eexists|].
    by apply elem_of_nil in Hd'.
  - right. by eexists.
Defined.

(** ** The checkpoint *)

Definition isCleanupEvent (e : Event) : bool :=
  match e with
  | Invoke _ MCleanup | Return_ _ MCleanup | Threw _ MCleanup => true
  | _ => false
  end.

Definition isGetStateCall (e : Event) : bool :=
  match e with
  | Invoke _ MGetState => true
  | _ => false
  end.

Definition notCleanup (m : Method) : Prop :=
  match m with MCleanup => False | _ => True end.

Definition notGetState (m : Method) : Prop :=
  match m with MGetState => False | _ => True end.

Lemma trace_bind_ok {A B : Type} (m : M A) (f : A → M B) (w w1 : World) (a : A)
    (t1 : list Event) :
  m w = (Ok a, w1, t1) → trace_of (m ≫= f) w = t1 ++ trace_of (f a) w1.
Proof.
  intros Hm. unfold trace_of. unfold_M. rewrite Hm.
  by destruct (f a w1) as [[r w2] t2].
Qed.

(** The checkpoint after its cleanup pass. *)
Ltac checkpoint_rest T allowed :=
  apply traces_bind; [done| |intros [[? ?] ?]];
  [ apply traces_forEachPluginInOrderAcc; [done|done|]; intros ? ? [[? ?] ?];
    apply traces_bind; [done|by apply (traces_safeGetState T allowed)|];
    intros res; destruct (success res); by apply traces_ret
  | apply traces_bind; [done| |intros _];
    [ match goal with |- traces _ (if ?b then _ else _) => destruct b end;
      [unfold Msg_cfg; by apply traces_tell|by apply traces_ret]
    | apply traces_bind; [done|by apply traces_gets|intros ?];
      apply traces_bind; [done|unfold Msg_cfg; by apply traces_tell|intros _];
      by apply traces_ret ] ].

Section CheckpointTraces.
Variable T : list Event → Prop.
Variable allowed : Method → Prop.
Hypothesis T_nil : T [].
Hypothesis T_app : ∀ t1 t2, T t1 → T t2 → T (t1 ++ t2).
Hypothesis T_host : ∀ e, isPluginEvent e = false → T [e].
Hypothesis T_return : ∀ n m, allowed m → T [Invoke n m; Return_ n m].
Hypothesis T_threw : ∀ n m, allowed m → T [Invoke n m; Threw n m].

Lemma traces_cleanup_pass :
  allowed MCleanup →
  traces T (forEachPluginInOrder
              (λ plugin name,
                 match cleanup plugin with
                 | Some cleanup => call name MCleanup cleanup
                 | None => mret tt
                 end)).
Proof.
  intros H. apply traces_forEachPluginInOrder; [done|done|]. intros p n.
  destruct (cleanup p); [by apply (traces_call T allowed)|by apply traces_ret].
Qed.

Lemma traces_setupHotReload_before (cfg : GamemodeConfig) :
  allowed MCleanup → allowed MGetState → traces T (setupHotReload_before cfg).
Proof.
  intros H1 H2. unfold setupHotReload_before.
  apply traces_bind; [done|unfold Msg_cfg; by apply traces_tell|intros _].
  apply traces_bind; [done|by apply traces_tell|intros _].
  apply traces_bind; [done|by apply traces_modify|intros _].
  apply traces_bind; [done|by apply traces_tell|intros _].
  apply traces_bind; [done|by apply traces_cleanup_pass|intros _].
  checkpoint_rest T allowed.
Qed.
End CheckpointTraces.

Lemma setupHotReload_before_splits (cfg : GamemodeConfig) :
  splits isCleanupEvent isGetStateCall (setupHotReload_before cfg).
Proof.
  pose (T := Forall (λ e, isGetStateCall e = false)).
  assert (Hnil : T []) by constructor.
  assert (Happ : ∀ t1 t2, T t1 → T t2 → T (t1 ++ t2))
    by (intros; by apply Forall_app).
  assert (Hhost : ∀ e, isPluginEvent e = false → T [e])
    by (intros e He; repeat constructor; by destruct e).
  assert (Hret : ∀ n m, notGetState m → T [Invoke n m; Return_ n m])
    by (intros n []; simpl; intros; try done; by repeat constructor).
  assert (Hthr : ∀ n m, notGetState m → T [Invoke n m; Threw n m])
    by (intros n []; simpl; intros; try done; by repeat constructor).
  unfold setupHotReload_before.
  apply splits_bind_l; [unfold Msg_cfg; by apply traces_tell|intros _].
  apply splits_bind_l; [by apply traces_tell|intros _].
  apply splits_bind_l; [by apply traces_modify|intros _].
  apply splits_bind_l; [by apply traces_tell|intros _].
  apply splits_bind_l; [by apply (traces_cleanup_pass T notGetState)|intros _].
  apply splits_second.
  clear T Hnil Happ Hhost Hret Hthr.
  pose (T := Forall (λ e, isCleanupEvent e = false)).
  assert (Hnil : T []) by constructor.
  assert (Happ : ∀ t1 t2, T t1 → T t2 → T (t1 ++ t2))
    by (intros; by apply Forall_app).
  assert (Hhost : ∀ e, isPluginEvent e = false → T [e])
    by (intros e He; repeat constructor; by destruct e).
  assert (Hret : ∀ n m, notCleanup m → T [Invoke n m; Return_ n m])
    by (intros n []; simpl; intros; try done; by repeat constructor).
  assert (Hthr : ∀ n m, notCleanup m → T [Invoke n m; Threw n m])
    by (intros n []; simpl; intros; try done; by repeat constructor).
  change (Forall (λ e, isCleanupEvent e = false)) with T.
  checkpoint_rest T notCleanup.
Qed.

(** X20.  A checkpoint, whatever the plugins do: it first stops the think
    loop and clears the event bus, before any plugin code runs; every
    [cleanup] call, its end included, comes before the first [getState]
    call; and every call that is made is directly followed by its return or
    its throw. *)
Theorem checkpoint_order (cfg : GamemodeConfig) (w : World) :
  (∃ line rest,
     trace_of (setupHotReload_before cfg) w
     = Host.Msg line :: SetNextThink false :: ClearAll :: rest)
  ∧ precedes isCleanupEvent isGetStateCall (trace_of (setupHotReload_before cfg) w)
  ∧ completed (trace_of (setupHotReload_before cfg) w).
Proof.
  split; [|split].
  - unfold setupHotReload_before, Msg_cfg.
    erewrite trace_bind_ok; [|reflexivity].
    erewrite trace_bind_ok; [|reflexivity].
    erewrite trace_bind_ok; [|reflexivity].
    erewrite trace_bind_ok; [|reflexivity].
    by eexists _, _.
  - destruct (setupHotReload_before_splits cfg w) as (t1 & t2 & -> & H1 & H2).
    by apply precedes_split.
  - apply (traces_setupHotReload_before completed (λ _, True));
      auto using completed_app, completed_host, completed_return,
                 completed_threw.
    by intros [|i] ???.
Qed.

(** X21.  A [cleanup] that throws ends the checkpoint with its exception:
    the bus is cleared and the plugins before it are cleaned up, but no
    plugin after it is, no [getState] is called, and no state is handed
    back. *)
Theorem checkpoint_aborted_by_throwing_cleanup (cfg : GamemodeConfig)
    (w : World) (before after : list PluginDescriptor) (d : PluginDescriptor)
    (p : Plugin) (e : Exn) :
  orderedPlugins w = before ++ d :: after →
  (∀ d' p' e', d' ∈ before → activePlugins w !! name d' = Some p' →
               cleanup p' ≠ Some (Throws e')) →
  activePlugins w !! name d = Some p →
  cleanup p = Some (Throws e) →
  ∃ line,
    setupHotReload_before cfg w
    = (Thrown e, set_eventBus (EventBus.clearAll (eventBus w)) w,
       [Host.Msg line; SetNextThink false; ClearAll]
       ++ passTrace (set_orderedPlugins before w) (hookTrace MCleanup cleanup)
       ++ [Invoke (name d) MCleanup; Threw (name d) MCleanup]).
Proof.
  intros Hord Hquiet Hp Hthrow.
  set (w1 := set_eventBus (EventBus.clearAll (eventBus w)) w).
  assert (HC : forEachPluginInOrder
                 (λ plugin name,
                    match cleanup plugin with
                    | Some cleanup => call name MCleanup cleanup
                    | None => mret tt
                    end) w1
               = (Thrown e, w1,
                  passTrace (set_orderedPlugins before w1) (hookTrace MCleanup cleanup)
                  ++ [Invoke (name d) MCleanup; Threw (name d) MCleanup])).
  { eapply forEachPluginInOrder_abort; [exact Hord| |exact Hp|].
    - intros d' p' Hd' Hp'. rewrite (dispatch_callback MCleanup cleanup).
      specialize (Hquiet d' p').
      destruct (cleanup p') as [[[]|e']|]; try done.
      by destruct (Hquiet e' Hd' Hp').
    - rewrite (dispatch_callback MCleanup cleanup). unfold hookTrace.
      by rewrite Hthrow. }
  eexists. unfold setupHotReload_before.
  change [Host.Msg ?line; SetNextThink false; ClearAll]
    with ([Host.Msg line] ++ [SetNextThink false] ++ [] ++ [ClearAll]).
  rewrite <- !app_assoc.
  eapply bind_ok; [reflexivity|]. eapply bind_ok; [reflexivity|].
  eapply bind_ok; [reflexivity|]. eapply bind_ok; [reflexivity|].
  apply bind_thrown. exact HC.
Qed.

Lemma checkpoint_aborted_by_throwing_cleanup_witness :
  ∃ line,
    setupHotReload_before reloadConfig stuckWorld
    = (Thrown (Error "stuck"), set_eventBus (EventBus.clearAll (eventBus stuckWorld)) stuckWorld,
       [Host.Msg line; SetNextThink false; ClearAll]
       ++ passTrace (set_orderedPlugins [dBroken] stuckWorld)
                    (hookTrace MCleanup cleanup)
       ++ [Invoke (name dStuck) MCleanup; Threw (name dStuck) MCleanup]).
Proof.
  apply (checkpoint_aborted_by_throwing_cleanup reloadConfig stuckWorld
           [dBroken] [dHud] dStuck failingCleanup (Error "stuck")).
  - reflexivity.
  - intros d' p' e' Hd' Hp'.
    apply elem_of_cons in Hd' as [->|Hd']; [|by apply elem_of_nil in Hd'].
    vm_compute in Hp'. by simplify_eq.
  - reflexivity.
  - reflexivity.
Defined.

(** ** The rebuild *)

Lemma safeRestoreState_calls (stack : nat) (p : Plugin) (v : Value)
    (n : string) (w : World) (n' : string) (v' : Value) :
  Invoke n' (MRestoreState v') ∈ trace_of (safeRestoreState stack p v n) w →
  n' = n ∧ v' = v.
Proof.
  unfold trace_of.
  assert (Hnone : ∀ line : string,
             Invoke n' (MRestoreState v') ∈ [Host.Msg line] → n' = n ∧ v' = v).
  { intros line Hin. apply list_elem_of_singleton in Hin. discriminate Hin. }
  destruct (restoreState p) as [restore|] eqn:Hrestore.
  2:{ unfold safeRestoreState. rewrite Hrestore. apply Hnone. }
  assert (v = VUndefined ∨ v = VNull ∨ (v ≠ VUndefined ∧ v ≠ VNull))
    as [->|[->|[Hundef Hnull]]]
    by (destruct v; first [by left | by right; left | by right; right]).
  { unfold safeRestoreState. rewrite Hrestore. apply Hnone. }
  { unfold safeRestoreState. rewrite Hrestore. apply Hnone. }
  destruct (validateStateShape (heap w) stack v n) as [validation|] eqn:Hval.
  - rewrite (safeRestoreState_validated stack p v n w restore validation)
      by done.
    unfold validationWarning, restoreCallTrace, caughtTrace. cbn [snd].
    destruct (valid validation); destruct (restore v) as [[]|thrown];
      try destruct (errorMessage thrown); simpl; intros Hin;
      repeat (apply elem_of_cons in Hin as [Hin|Hin]; [by simplify_eq|]);
      by apply elem_of_nil in Hin.
  - rewrite (safeRestoreState_overflow stack p v n w restore) by done.
    apply Hnone.
Qed.





(** X22.  On a rebuild, [restoreState] is called on a plugin only with what
    reading the plugin's name on the checkpoint object gives, the plugin's
    own entry or, for a name without one, the member of that name the object
    inherits, and only when that value is truthy: without a checkpoint the
    plugin starts from its defaults. *)
Theorem rebuild_restores_only_saved_entries (cfg : GamemodeConfig)
    (engine : Engine) (state : option (gmap string Value)) (w : World)
    (n : string) (v : Value) :
  Invoke n (MRestoreState v)
  ∈ trace_of (setupHotReload_after cfg engine state) w →
  ∃ saved, state = Some saved ∧ v = getProperty engine saved n
           ∧ truthy v = true.
Proof.
  revert n v.
  pose (T := λ t : list Event,
          ∀ n v, Invoke n (MRestoreState v) ∈ t →
                 ∃ saved, state = Some saved ∧ v = getProperty engine saved n
                          ∧ truthy v = true).
  change (T (trace_of (setupHotReload_after cfg engine state) w)). revert w.
  change (traces T (setupHotReload_after cfg engine state)).
  assert (Hnil : T []) by (by intros n v ?%elem_of_nil).
  assert (Happ : ∀ t1 t2, T t1 → T t2 → T (t1 ++ t2)).
  { intros t1 t2 H1 H2 n v [?|?]%elem_of_app; auto. }
  assert (Hhost : ∀ e, isPluginEvent e = false → T [e]).
  { intros e He n v Hin%list_elem_of_singleton. by subst e. }
  assert (Hret : ∀ n m, notRestore m → T [Invoke n m; Return_ n m]).
  { intros n m Hm n' v' Hin.
    repeat (apply elem_of_cons in Hin as [Hin|Hin]; [by simplify_eq|]).
    by apply elem_of_nil in Hin. }
  assert (Hthr : ∀ n m, notRestore m → T [Invoke n m; Threw n m]).
  { intros n m Hm n' v' Hin.
    repeat (apply elem_of_cons in Hin as [Hin|Hin]; [by simplify_eq|]).
    by apply elem_of_nil in Hin. }
  unfold setupHotReload_after.
  apply traces_bind; [done|unfold Msg_cfg; by apply traces_tell|intros _].
  apply traces_bind; [done|by apply traces_modify|intros _].
  apply traces_bind;
    [done|by apply (traces_createPluginInstances T notRestore)|intros _].
  apply traces_bind; [done| |intros rc].
  2:{ apply traces_bind; [done|by apply traces_gets|intros size].
      apply traces_bind; [done|unfold Msg_cfg; by apply traces_tell|intros _].
      by apply (traces_init_pass T notRestore). }
  unfold restorePass.
  destruct state as [saved|]; [|by apply traces_ret].
  apply traces_forEachPluginInOrderAcc; [done|done|]. intros p n s.
  destruct (truthy (getProperty engine saved n)) eqn:Htruthy;
    [|by apply traces_ret].
  apply traces_bind; [done| |intros; by apply traces_ret].
  intros w n' v' Hin. apply safeRestoreState_calls in Hin as [-> ->].
  by exists saved.
Qed.

(** A plugin registered under a name that every object inherits. *)
Definition inheritedNameConfig : GamemodeConfig :=
  mkConfig "Sandbox" [mkDescriptor "constructor" (Returns examplePlugin) None]
           None "20".

Lemma rebuild_restores_only_saved_entries_witness :
  ∃ saved, Some (∅ : gmap string Value) = Some saved
           ∧ VFun 0 = getProperty exampleEngine saved "constructor"
           ∧ truthy (VFun 0) = true.
Proof.
  apply (rebuild_restores_only_saved_entries inheritedNameConfig exampleEngine
           (Some ∅) exampleWorld "constructor" (VFun 0)).
  vm_compute. repeat first [apply list_elem_of_here | apply list_elem_of_further].
Defined.



(** ** Which exceptions leave the rebuild *)



Section Contained.
Variable allowed : Method → Prop.








End Contained.



(** ** What the checkpoint and the rebuild do to the world *)

(** [evolves R m]: wherever [m] stops, the world it leaves is related by [R]
    to the one it started in. *)
Definition evolves {A : Type} (R : World → World → Prop) (m : M A) : Prop :=
  ∀ w, R w (world_of m w).

Lemma world_bind_ok {A B : Type} (m : M A) (f : A → M B) (w w1 : World) (a : A)
    (t1 : list Event) :
  m w = (Ok a, w1, t1) → world_of (m ≫= f) w = world_of (f a) w1.
Proof.
  intros Hm. unfold world_of. unfold_M. rewrite Hm.
  by destruct (f a w1) as [[r w2] t2].
Qed.

Section Evolves.
Variable R : World → World → Prop.
Hypothesis R_refl : ∀ w, R w w.
Hypothesis R_trans : ∀ w1 w2 w3, R w1 w2 → R w2 w3 → R w1 w3.
Hypothesis R_alloc :
  ∀ w, R w (mkWorld (heap w ++ [ORecord [] []]) (activePlugins w)
                    (orderedPlugins w) (eventBus w) (controllers w)).

Lemma evolves_ret {A : Type} (a : A) : evolves R (mret a).
Proof. intros w. apply R_refl. Qed.

Lemma evolves_gets {A : Type} (f : World → A) : evolves R (gets f).
Proof. intros w. apply R_refl. Qed.

Lemma evolves_tell (e : Event) : evolves R (tell e).
Proof. intros w. apply R_refl. Qed.

Lemma evolves_call {A : Type} (n : string) (m : Method) (o : Outcome A) :
  evolves R (call n m o).
Proof. intros w. unfold world_of, call. destruct o; apply R_refl. Qed.

Lemma evolves_alloc : evolves R (alloc (ORecord [] [])).
Proof. intros w. apply R_alloc. Qed.

Lemma evolves_throw {A : Type} (e : Exn) : evolves R (throw (A := A) e).
Proof. intros w. apply R_refl. Qed.

Lemma evolves_errorMsgOf (thrown : Exn) : evolves R (errorMsgOf thrown).
Proof.
  intros w. unfold world_of, errorMsgOf.
  destruct (errorMessage thrown); apply R_refl.
Qed.

Lemma evolves_validate (stack : nat) (state : Value) (n : string) :
  evolves R (validate stack state n).
Proof.
  intros w. unfold world_of, validate.
  destruct (validateStateShape _ _ _ _); apply R_refl.
Qed.

Lemma evolves_bind {A B : Type} (m : M A) (f : A → M B) :
  evolves R m → (∀ a, evolves R (f a)) → evolves R (m ≫= f).
Proof.
  intros Hm Hf w. specialize (Hm w). unfold world_of in *. unfold_M.
  destruct (m w) as [[[a|e|] w1] t1]; simpl in *; [|done..].
  specialize (Hf a w1). unfold world_of in Hf.
  destruct (f a w1) as [[r w2] t2]. simpl in *. by eapply R_trans.
Qed.

Lemma evolves_try_catch {A : Type} (m : M A) (h : Exn → M A) :
  evolves R m → (∀ e, evolves R (h e)) → evolves R (try_catch m h).
Proof.
  intros Hm Hh w. specialize (Hm w). unfold world_of in *. unfold try_catch.
  destruct (m w) as [[[a|e|] w1] t1]; simpl in *; [done| |done].
  specialize (Hh e w1). unfold world_of in Hh.
  destruct (h e w1) as [[r w2] t2]. simpl in *. by eapply R_trans.
Qed.

Lemma evolves_forEachAcc {A St : Type} (f : A → St → M St) (l : list A) (s : St) :
  (∀ x s, evolves R (f x s)) → evolves R (forEachAcc f l s).
Proof.
  intros Hf. revert s. induction l as [|x l IH]; intros s; simpl.
  - apply evolves_ret.
  - apply evolves_bind; [apply Hf|apply IH].
Qed.

Ltac evolves_step :=
  first
    [ apply evolves_ret | apply evolves_gets | apply evolves_tell
    | apply evolves_call | apply evolves_alloc | apply evolves_validate
    | apply evolves_throw | apply evolves_errorMsgOf
    | apply evolves_bind; [|intros]
    | apply evolves_try_catch; [|intros]
    | apply evolves_forEachAcc; intros
    | match goal with
      | |- evolves _ (match ?x with _ => _ end) => destruct x
      | |- evolves _ (let '(_, _) := ?x in _) => destruct x
      end ].

Lemma evolves_forEachPluginInOrderAcc {St : Type}
    (callback : Plugin → string → St → M St) (s : St) :
  (∀ p n s, evolves R (callback p n s)) →
  evolves R (forEachPluginInOrderAcc callback s).
Proof.
  intros H. unfold forEachPluginInOrderAcc. repeat evolves_step. apply H.
Qed.

(** The checkpoint leaves a world that evolved from the one with the bus
    cleared. *)
Lemma checkpoint_world (cfg : GamemodeConfig) (w : World) :
  R (set_eventBus (EventBus.clearAll (eventBus w)) w)
    (world_of (setupHotReload_before cfg) w).
Proof.
  unfold setupHotReload_before, Msg_cfg.
  erewrite world_bind_ok; [|reflexivity].
  erewrite world_bind_ok; [|reflexivity].
  erewrite world_bind_ok; [|reflexivity].
  erewrite world_bind_ok; [|reflexivity].
  match goal with
  | |- R _ (world_of ?m _) => enough (H : evolves R m) by apply H
  end.
  apply evolves_bind; [|intros _].
  { apply evolves_forEachPluginInOrderAcc. intros p n [].
    destruct (cleanup p); [apply evolves_call|apply evolves_ret]. }
  apply evolves_bind; [|intros [[state sc] ec]].
  { apply evolves_forEachPluginInOrderAcc. intros p n [[state sc] ec].
    apply evolves_bind; [|intros res; destruct (success res); apply evolves_ret].
    unfold safeGetState, createEmptyState. repeat evolves_step. }
  apply evolves_bind; [destruct (Nat.ltb 0 ec); repeat evolves_step|intros _].
  repeat evolves_step.
Qed.

(** The rebuild, once its factories have returned, leaves a world that
    evolved from the one with the new instances registered. *)
Lemma rebuild_world (cfg : GamemodeConfig) (engine : Engine)
    (state : option (gmap string Value)) (w : World) :
  (∀ d, d ∈ getOrderedPlugins cfg → ∃ p, create d = Returns p) →
  R (rebuilt cfg w) (world_of (setupHotReload_after cfg engine state) w).
Proof.
  intros Hcreate.
  set (ordered := getOrderedPlugins cfg) in *.
  set (w1 := set_orderedPlugins ordered w).
  set (w' := rebuilt cfg w).
  destruct (createPluginInstances_loop ordered (set_activePlugins ∅ w1) Hcreate)
    as (tCreate & HCreate).
  assert (HC : createPluginInstances w1 = (Ok tt, w', [] ++ [] ++ tCreate)).
  { unfold createPluginInstances.
    eapply bind_ok; [reflexivity|]. eapply bind_ok; [reflexivity|].
    exact HCreate. }
  unfold setupHotReload_after, Msg_cfg.
  erewrite world_bind_ok; [|reflexivity].
  erewrite world_bind_ok; [|reflexivity].
  erewrite world_bind_ok; [|exact HC].
  match goal with
  | |- R _ (world_of ?m _) => enough (H : evolves R m) by apply H
  end.
  apply evolves_bind; [|intros rc].
  { unfold restorePass. destruct state as [saved|]; [|apply evolves_ret].
    apply evolves_forEachPluginInOrderAcc. intros p n s.
    destruct (truthy _); [|apply evolves_ret].
    apply evolves_bind; [|intros; apply evolves_ret].
    unfold safeRestoreState. repeat evolves_step. }
  apply evolves_bind; [apply evolves_gets|intros size].
  apply evolves_bind; [apply evolves_tell|intros _].
  apply evolves_bind; [|intros _].
  { apply evolves_forEachPluginInOrderAcc. intros p n []. apply evolves_call. }
  apply evolves_bind; [unfold setupMainThinkLoop, Msg_cfg; repeat evolves_step|intros _].
  apply evolves_bind; [apply evolves_gets|intros connected].
  apply evolves_bind; [|intros _; apply evolves_tell].
  destruct (Nat.ltb 0 connected); [|apply evolves_ret].
  apply evolves_bind; [apply evolves_tell|intros _].
  apply evolves_forEachPluginInOrderAcc. intros p n [].
  apply evolves_bind; [|intros; apply evolves_ret].
  unfold safeHotReloadComplete. repeat evolves_step.
Qed.
End Evolves.

(** The registry is the same in both worlds. *)
Definition sameRegistry (w1 w2 : World) : Prop :=
  activePlugins w2 = activePlugins w1 ∧ orderedPlugins w2 = orderedPlugins w1.

Lemma sameRegistry_refl (w : World) : sameRegistry w w.
Proof. done. Qed.

Lemma sameRegistry_trans (w1 w2 w3 : World) :
  sameRegistry w1 w2 → sameRegistry w2 w3 → sameRegistry w1 w3.
Proof. intros [? ?] [? ?]. split; congruence. Qed.

(** X26.  A checkpoint, however it ends, leaves the registry as it is: the
    plugins registered and their order are those from before it. *)
Theorem checkpoint_leaves_plugins_registered (cfg : GamemodeConfig) (w : World) :
  activePlugins (world_of (setupHotReload_before cfg) w) = activePlugins w
  ∧ orderedPlugins (world_of (setupHotReload_before cfg) w) = orderedPlugins w.
Proof.
  apply (checkpoint_world sameRegistry sameRegistry_refl sameRegistry_trans).
  intros w0. done.
Qed.

Lemma registered_absent (m : gmap string Plugin) (l : list PluginDescriptor)
    (n : string) :
  n ∉ name <$> l → registered m l !! n = m !! n.
Proof.
  revert m. induction l as [|d l IH]; intros m; [done|].
  rewrite fmap_cons, not_elem_of_cons. intros [Hne Hnotin]. simpl.
  destruct (create d) as [p|e]; rewrite IH by done; [|done].
  by rewrite lookup_insert_ne.
Qed.

(** X27.  A rebuild whose factories all return, however it ends, leaves the
    registry with the new instances only: what was registered before is
    gone, so a name that is no longer among the ordered plugins has no
    instance. *)
Theorem rebuild_replaces_every_instance (cfg : GamemodeConfig)
    (engine : Engine) (state : option (gmap string Value)) (w : World) :
  (∀ d, d ∈ getOrderedPlugins cfg → ∃ p, create d = Returns p) →
  activePlugins (world_of (setupHotReload_after cfg engine state) w)
  = registered ∅ (getOrderedPlugins cfg)
  ∧ orderedPlugins (world_of (setupHotReload_after cfg engine state) w)
    = getOrderedPlugins cfg
  ∧ ∀ n, n ∉ name <$> getOrderedPlugins cfg →
         activePlugins (world_of (setupHotReload_after cfg engine state) w) !! n
         = None.
Proof.
  intros Hcreate.
  destruct (rebuild_world sameRegistry sameRegistry_refl sameRegistry_trans
              cfg engine state w Hcreate)
    as [Hactive Hordered].
  rewrite Hactive, Hordered. repeat (split; [done|]).
  intros n Hn. simpl. by rewrite registered_absent.
Qed.

Lemma rebuild_replaces_every_instance_witness :
  activePlugins
    (world_of (setupHotReload_after reloadConfig exampleEngine None) saveWorld)
  = registered ∅ (getOrderedPlugins reloadConfig)
  ∧ orderedPlugins
      (world_of (setupHotReload_after reloadConfig exampleEngine None) saveWorld)
    = getOrderedPlugins reloadConfig
  ∧ ∀ n, n ∉ name <$> getOrderedPlugins reloadConfig →
         activePlugins
           (world_of (setupHotReload_after reloadConfig exampleEngine None)
                     saveWorld)
         !! n = None.
Proof.
  apply (rebuild_replaces_every_instance reloadConfig exampleEngine None
           saveWorld).
  assert (Hordered : getOrderedPlugins reloadConfig = [dDebug; dHud])
    by reflexivity.
  rewrite Hordered. intros d Hd.
  apply elem_of_cons in Hd as [->|Hd]; [by eexists|].
  apply elem_of_cons in Hd as [->|Hd]; [by eexists|].
  by apply elem_of_nil in Hd.
Defined.
